(** * Quasi-Newton optimiser and finite-difference Hessian builder

    A shallow embedding of
    [pyiron_atomistics/interactive/quasi_newton.py]: the engine
    [QuasiNewtonInteractive], the driver [run_qn] and the class [Hessian].
    The builder of [atomsk] command lines
    ([pyiron_atomistics/atomistics/structure/factories/atomsk.py]) follows
    in the module [Atomsk], with its own conventions.

    Conventions of the embedding.
    - A floating-point number is an exact rational ([Q]); rounding, [nan] and
      [inf] are not modelled (in [Q], [x / 0] is [0]).  Statements about
      numbers use [==] ([Qeq]).
    - A one-dimensional array is a list, a two-dimensional array a list of
      rows.  An [einsum] is written the way its subscripts read: a table over
      the free indices of a sum over the bound ones.  Operands are taken to
      have matching shapes where numpy would otherwise refuse them.
    - A gradient is handed to the engine as its row-major data
      ([g.flatten()]); the engine reads it in no other way, apart from the
      element-wise difference with the previous gradient.
    - A Python exception is a value of [exn]; a method of an object is a
      function from the object's state to an outcome and the state left
      behind.
    - [numpy.linalg.inv], [numpy.linalg.eigh] and [numpy.linalg.norm] are
      library routines and enter as the variables of a section. *)

From Stdlib Require Import String Ascii DecimalString.
From Stdlib Require Import List ZArith QArith Qabs Qminmax Lqa Lia Bool PeanoNat.
Import ListNotations.
Open Scope Q_scope.

(** ** Exceptions and outcomes *)

Inductive exn : Type :=
| ValueError (msg : string)
| AttributeError (msg : string)
| AssertionError (msg : string)
| IndexError
| LinAlgError.

Inductive result (A : Type) : Type :=
| Ok (a : A)
| Raise (e : exn).

Arguments Ok {A} a.
Arguments Raise {A} e.

(** A method: runs on a state, yields an outcome and the state it leaves. *)
Definition M (S A : Type) : Type := S -> result A * S.

Definition ret {S A : Type} (a : A) : M S A := fun s => (Ok a, s).

Definition raise {S A : Type} (e : exn) : M S A := fun s => (Raise e, s).

Definition bind {S A B : Type} (m : M S A) (k : A -> M S B) : M S B :=
  fun s => match m s with
           | (Ok a, s') => k a s'
           | (Raise e, s') => (Raise e, s')
           end.

Definition get {S : Type} : M S S := fun s => (Ok s, s).

Definition modify {S : Type} (f : S -> S) : M S unit := fun s => (Ok tt, f s).

Definition lift {S A : Type} (r : result A) : M S A := fun s => (r, s).

Notation "x <- m ;; k" := (bind m (fun x => k))
  (at level 61, m at next level, right associativity).
Notation "m ;;; k" := (bind m (fun _ => k))
  (at level 61, right associativity).

(** ** Arrays *)

Definition vec : Type := list Q.
Definition mat : Type := list (list Q).

Definition vget (v : vec) (i : nat) : Q := nth i v 0.
Definition mget (m : mat) (i j : nat) : Q := nth j (nth i m []) 0.

Definition nrows (m : mat) : nat := length m.
Definition ncols (m : mat) : nat := length (hd [] m).

Definition vtab (n : nat) (f : nat -> Q) : vec := map f (seq 0 n).
Definition mtab (n m : nat) (f : nat -> nat -> Q) : mat :=
  map (fun i => vtab m (f i)) (seq 0 n).

Definition sumQ (l : list Q) : Q := fold_right Qplus 0 l.

(** [big n f] is the sum of [f k] over [k < n]. *)
Definition big (n : nat) (f : nat -> Q) : Q := sumQ (vtab n f).

Definition flatten (m : mat) : vec := concat m.

(** [np.dot(a, b)] and [einsum('i,i->', a, b)]. *)
Definition dot (a b : vec) : Q := big (length a) (fun i => vget a i * vget b i).

(** [einsum('ij,j->i', A, x)]. *)
Definition matvec (A : mat) (x : vec) : vec :=
  vtab (nrows A) (fun i => big (length x) (fun j => mget A i j * vget x j)).

(** [np.outer(a, b)] and [einsum('i,j->ij', a, b)]. *)
Definition outer (a b : vec) : mat :=
  mtab (length a) (length b) (fun i j => vget a i * vget b j).

Definition transpose (A : mat) : mat :=
  mtab (ncols A) (nrows A) (fun i j => mget A j i).

Definition madd (A B : mat) : mat :=
  mtab (nrows A) (ncols A) (fun i j => mget A i j + mget B i j).

Definition msub (A B : mat) : mat :=
  mtab (nrows A) (ncols A) (fun i j => mget A i j - mget B i j).

Definition mmul_elem (A B : mat) : mat :=
  mtab (nrows A) (ncols A) (fun i j => mget A i j * mget B i j).

Definition mscale (c : Q) (A : mat) : mat :=
  mtab (nrows A) (ncols A) (fun i j => c * mget A i j).

Definition mdiv (A : mat) (c : Q) : mat :=
  mtab (nrows A) (ncols A) (fun i j => mget A i j / c).

Definition vsub (a b : vec) : vec :=
  vtab (length a) (fun i => vget a i - vget b i).

Definition vneg (a : vec) : vec := map Qopp a.

Definition kron (i j : nat) : Q := if Nat.eqb i j then 1 else 0.

(** [np.eye(n)]. *)
Definition eye (n : nat) : mat := mtab n n kron.

(** [np.zeros_like(a)]. *)
Definition zeros_like (a : mat) : mat := mtab (nrows a) (ncols a) (fun _ _ => 0).

Definition Qlt_bool (x y : Q) : bool := negb (Qle_bool y x).

(** [a.reshape(r, c)] on row-major data. *)
Definition reshape (r c : nat) (v : vec) : result mat :=
  if Nat.eqb (r * c) (length v)
  then Ok (mtab r c (fun i j => vget v (i * c + j)))
  else Raise (ValueError "cannot reshape array").

(** [a.reshape(-1, 3)]. *)
Definition reshape_m1_3 (v : vec) : result mat :=
  if Nat.eqb (length v mod 3) 0
  then reshape (length v / 3) 3 v
  else Raise (ValueError "cannot reshape array").

(** A call of [np.linalg.inv]: a singular matrix raises [LinAlgError]. *)
Definition inv (linalg_inv : mat -> option mat) (A : mat) : result mat :=
  match linalg_inv A with
  | Some B => Ok B
  | None => Raise LinAlgError
  end.

(** ** The collaborators *)

(** What [structure.get_symmetry()] answers: the operations, the method
    [symmetrize_vectors], and [indices], the table (one row per operation)
    that [Hessian.indices] builds from them with a nearest-neighbour query
    ([scipy.spatial.cKDTree]): entry [m] of row [n] is the atom onto which
    operation [n] sends atom [m]. *)
Record Symmetry : Type := {
  rotations : list mat;
  translations : list vec;
  symmetrize_vectors : mat -> mat;
  indices : list (list nat)
}.

Record Structure : Type := {
  positions : mat;
  get_symmetry : Symmetry
}.

(** [starting_h]: a number, or an array given by its row-major data.  The
    arrays of the model are those the first branch of [_initialize_hessian]
    takes, of as many entries as the Hessian has; for an array of another
    size numpy would try to broadcast it against [np.eye], which the model
    does not follow: it raises there. *)
Inductive seed : Type :=
| Scalar (k : Q)
| Array (data : vec).

(** ** QuasiNewtonInteractive *)

Record QuasiNewtonInteractive : Type := {
  use_eigenvalues : bool;
  _hessian : mat;
  _eigenvalues : option vec;
  _eigenvectors : option mat;
  g_old : option vec;
  symmetry : option Symmetry;
  regularization : Q;
  dx : option mat          (* [None]: the attribute is not set yet *)
}.

Definition set_use_eigenvalues (b : bool) (e : QuasiNewtonInteractive) :=
  {| use_eigenvalues := b; _hessian := _hessian e;
     _eigenvalues := _eigenvalues e; _eigenvectors := _eigenvectors e;
     g_old := g_old e; symmetry := symmetry e;
     regularization := regularization e; dx := dx e |}.

(** What a successful assignment to [hessian] comes to: the matrix stored
    and the cached eigenpairs dropped. *)
Definition set_hessian_raw (h : mat) (e : QuasiNewtonInteractive) :=
  {| use_eigenvalues := use_eigenvalues e; _hessian := h;
     _eigenvalues := None; _eigenvectors := None;
     g_old := g_old e; symmetry := symmetry e;
     regularization := regularization e; dx := dx e |}.

Definition set_eig (w : vec) (V : mat) (e : QuasiNewtonInteractive) :=
  {| use_eigenvalues := use_eigenvalues e; _hessian := _hessian e;
     _eigenvalues := Some w; _eigenvectors := Some V;
     g_old := g_old e; symmetry := symmetry e;
     regularization := regularization e; dx := dx e |}.

Definition set_g_old (g : vec) (e : QuasiNewtonInteractive) :=
  {| use_eigenvalues := use_eigenvalues e; _hessian := _hessian e;
     _eigenvalues := _eigenvalues e; _eigenvectors := _eigenvectors e;
     g_old := Some g; symmetry := symmetry e;
     regularization := regularization e; dx := dx e |}.

Definition set_regularization (r : Q) (e : QuasiNewtonInteractive) :=
  {| use_eigenvalues := use_eigenvalues e; _hessian := _hessian e;
     _eigenvalues := _eigenvalues e; _eigenvectors := _eigenvectors e;
     g_old := g_old e; symmetry := symmetry e;
     regularization := r; dx := dx e |}.

Definition set_dx (d : mat) (e : QuasiNewtonInteractive) :=
  {| use_eigenvalues := use_eigenvalues e; _hessian := _hessian e;
     _eigenvalues := _eigenvalues e; _eigenvectors := _eigenvectors e;
     g_old := g_old e; symmetry := symmetry e;
     regularization := regularization e; dx := Some d |}.

(** [self._hessian = ...], the cached eigenpairs left as they are. *)
Definition set_hessian_array (h : mat) (e : QuasiNewtonInteractive) :=
  {| use_eigenvalues := use_eigenvalues e; _hessian := h;
     _eigenvalues := _eigenvalues e; _eigenvectors := _eigenvectors e;
     g_old := g_old e; symmetry := symmetry e;
     regularization := regularization e; dx := dx e |}.

(** [self._eigenvalues = None; self._eigenvectors = None]. *)
Definition clear_eigenpairs (e : QuasiNewtonInteractive) :=
  {| use_eigenvalues := use_eigenvalues e; _hessian := _hessian e;
     _eigenvalues := None; _eigenvectors := None;
     g_old := g_old e; symmetry := symmetry e;
     regularization := regularization e; dx := dx e |}.

(** The setter of the property [hessian], on the row-major data of
    [np.array(v)], statement by statement: the value is stored as it comes,
    [length = int(sqrt(size))], the stored value is reshaped to a square,
    and only then are the cached eigenpairs dropped.  Between the first and
    the third statement [_hessian] holds the value in the shape it came in;
    the model, which has the value by its data alone, keeps that data as
    one row.  A reshape that fails leaves the engine there. *)
Definition hessian_setter (v : vec) : M QuasiNewtonInteractive unit :=
  modify (set_hessian_array [v]) ;;;
  let length := Nat.sqrt (List.length v) in
  h <- lift (reshape length length v) ;;
  modify (set_hessian_array h) ;;;
  modify clear_eigenpairs.

(** The getter of the property [hessian]. *)
Definition hessian : M QuasiNewtonInteractive mat :=
  e <- get ;; ret (_hessian e).

(** [_get_SR]: [denominator] once the test has been passed. *)
Definition SR_denominator (dx H_tmp : vec) (threshold : Q) : Q :=
  let denominator := dot H_tmp dx in
  if Qlt_bool (Qabs denominator) threshold
  then denominator + threshold
  else denominator.

Definition _get_SR (dx dg H_tmp : vec) (threshold : Q) : mat :=
  mdiv (outer H_tmp H_tmp) (SR_denominator dx H_tmp threshold).

(** [einsum('i,i,j,k->jk', dx, H_tmp, dx, dx)]. *)
Definition einsum_i_i_j_k (a b c d : vec) : mat :=
  mtab (length c) (length d)
       (fun j k => big (length a) (fun i => vget a i * vget b i * vget c j * vget d k)).

Definition _get_PSB (dx dg H_tmp : vec) : mat :=
  let dxdx := dot dx dx in
  let dH := outer H_tmp dx in
  let dH := mdiv (madd dH (transpose dH)) dxdx in
  msub dH (mdiv (einsum_i_i_j_k dx H_tmp dx dx) (dxdx ^ 2)).

(** [_get_BFGS] divides by [dg . dx] and by [dx . H_tmp].  Where one of
    them is zero the floats of the source give [nan] or [inf], which a
    rational cannot be: the statements about this mode carry both as
    nonzero. *)
Definition _get_BFGS (dx dg H_tmp : vec) : mat :=
  msub (mdiv (outer dg dg) (dot dg dx))
       (mdiv (outer H_tmp H_tmp) (dot dx H_tmp)).

(** [get_dg]; called only where [g_old] is set. *)
Definition get_dg (g : vec) : M QuasiNewtonInteractive vec :=
  e <- get ;;
  match g_old e with
  | Some go => ret (vsub g go)
  | None => raise (AttributeError "unsupported operand: g_old is None")
  end.

Definition default_threshold : Q := 1 # 10000.

(** [update_hessian].  [_get_SR] is called without [threshold], hence with
    its default. *)
Definition update_hessian (g : vec) (threshold : Q) (mode : string)
  : M QuasiNewtonInteractive unit :=
  e <- get ;;
  match g_old e with
  | None => modify (set_g_old g)
  | Some _ =>
      dg <- get_dg g ;;
      dx <- match dx e with
            | Some d => ret (flatten d)
            | None => raise (AttributeError "object has no attribute 'dx'")
            end ;;
      H <- hessian ;;
      let H_tmp := vsub dg (matvec H dx) in
      (if String.eqb mode "SR" then
         H' <- hessian ;;
         hessian_setter (flatten (madd (_get_SR dx dg H_tmp default_threshold) H'))
       else if String.eqb mode "PSB" then
         H' <- hessian ;;
         hessian_setter (flatten (madd (_get_PSB dx dg H_tmp) H'))
       else if String.eqb mode "BFGS" then
         H' <- hessian ;;
         hessian_setter (flatten (madd (_get_BFGS dx dg H_tmp) H'))
       else
         raise (ValueError "Mode not recognized. Choose from `SR`, `PSB` and `BFGS`")) ;;;
      modify (set_g_old g)
  end.

Section Numpy.

(** [np.linalg.inv] ([None]: the matrix is singular), [np.linalg.eigh] and
    [np.linalg.norm]. *)
Variable linalg_inv : mat -> option mat.
Variable linalg_eigh : mat -> vec * mat.
Variable linalg_norm : vec -> Q.

(** [_calc_eig]; the pair it stores is also handed back to the two
    properties below, which return the freshly stored component. *)
Definition _calc_eig : M QuasiNewtonInteractive (vec * mat) :=
  H <- hessian ;;
  modify (set_eig (fst (linalg_eigh H)) (snd (linalg_eigh H))) ;;;
  ret (linalg_eigh H).

(** The property [eigenvalues]. *)
Definition eigenvalues : M QuasiNewtonInteractive vec :=
  e <- get ;;
  match _eigenvalues e with
  | None => p <- _calc_eig ;; ret (fst p)
  | Some w => ret w
  end.

(** The property [eigenvectors]. *)
Definition eigenvectors : M QuasiNewtonInteractive mat :=
  e <- get ;;
  match _eigenvectors e with
  | None => p <- _calc_eig ;; ret (snd p)
  | Some V => ret V
  end.

(** [einsum('ik,k,jk->ij', A, d, B)]. *)
Definition einsum_ik_k_jk (A : mat) (d : vec) (B : mat) : mat :=
  mtab (nrows A) (nrows B)
       (fun i j => big (length d) (fun k => mget A i k * vget d k * mget B j k)).

(** [w / (w**2 + r)], element by element. *)
Definition damped (w : vec) (r : Q) : vec :=
  map (fun x => x / (x ^ 2 + r)) w.

(** The property [inv_hessian].  Its last line reads [np.linnalg.inv]: numpy
    has no attribute [linnalg], so reaching it raises [AttributeError]. *)
Definition inv_hessian : M QuasiNewtonInteractive mat :=
  e <- get ;;
  if Qlt_bool 0 (regularization e) then
    if use_eigenvalues e then
      V <- eigenvectors ;;
      w <- eigenvalues ;;
      V' <- eigenvectors ;;
      ret (einsum_ik_k_jk V (damped w (regularization e)) V')
    else
      H <- hessian ;;
      lift (inv linalg_inv (madd H (mscale (regularization e) (eye (length H)))))
  else
    raise (AttributeError "module 'numpy' has no attribute 'linnalg'").

(** [get_dx]. *)
Definition get_dx (g : vec) (threshold : Q) (mode : string)
  : M QuasiNewtonInteractive mat :=
  update_hessian g threshold mode ;;;
  inv <- inv_hessian ;;
  d <- lift (reshape_m1_3 (vneg (matvec inv g))) ;;
  modify (set_dx d) ;;;
  e <- get ;;
  match symmetry e with
  | Some s =>
      modify (set_dx (symmetrize_vectors s d)) ;;;
      ret (symmetrize_vectors s d)
  | None => ret d
  end.

(** [v[diffusion_id] = diffusion_direction] on an array of 3-vectors. *)
Definition set_row (v : mat) (i : nat) (row : vec) : result mat :=
  if Nat.ltb i (length v) then
    if Nat.eqb (length row) (ncols v)
    then Ok (firstn i v ++ row :: skipn (S i) v)
    else Raise (ValueError "could not broadcast input array")
  else Raise IndexError.

(** [(starting_h + 1) * M]: a number scales, an array multiplies entry by
    entry.  A seed array of another size than the square of the number of
    coordinates is outside the model: where numpy would try to broadcast
    it, the model raises. *)
Definition seed_plus_one_times (n : nat) (starting_h : seed) (A : mat) : result mat :=
  match starting_h with
  | Scalar k => Ok (mscale (k + 1) A)
  | Array data =>
      match reshape n n data with
      | Ok H0 => Ok (mmul_elem (mtab n n (fun i j => mget H0 i j + 1)) A)
      | Raise x => Raise x
      end
  end.

(** [_initialize_hessian]. *)
Definition _initialize_hessian (structure : Structure) (starting_h : seed)
           (diffusion_id : option nat) (diffusion_direction : option vec)
  : M QuasiNewtonInteractive unit :=
  let n := length (flatten (positions structure)) in
  match starting_h with
  | Scalar k =>
      if Nat.eqb 1 (n ^ 2) then hessian_setter [k]
      else hessian_setter (flatten (mscale k (eye n)))
  | Array data =>
      if Nat.eqb (length data) (n ^ 2) then hessian_setter data
      else raise (ValueError "operands could not be broadcast together")
  end ;;;
  match diffusion_id, diffusion_direction with
  | Some id, Some direction =>
      v <- lift (set_row (zeros_like (positions structure)) id direction) ;;
      let v := flatten v in
      H <- hessian ;;
      D <- lift (seed_plus_one_times n starting_h (outer v v)) ;;
      hessian_setter (flatten (msub H (mdiv D (linalg_norm v ^ 2)))) ;;;
      modify (set_use_eigenvalues true)
  | None, None => ret tt
  | _, _ => raise (ValueError "diffusion id or diffusion direction not specified")
  end.

(** [__init__]; an exception leaves no object behind.  [_hessian] starts as
    [None] (here the empty array) and is assigned by [_initialize_hessian]
    before anything reads it; [regularization] is assigned last.  The test
    [self.regularization == 0] is made here on the exact square: the source
    makes it on the float square, which is also zero for a regularization
    so small that its square is rounded to zero (and which is out of range
    for one so large).  What is stated of a construction in eigen-mode is
    stated under the hypothesis that it succeeds, or for a regularization
    of a size that keeps clear of both. *)
Definition __init__ (structure : Structure) (starting_h : seed)
           (diffusion_id : option nat) (use_eigenvalues0 : bool)
           (diffusion_direction : option vec) (regularization0 : Q)
           (symmetrize : bool) : result QuasiNewtonInteractive :=
  let self :=
    {| use_eigenvalues := use_eigenvalues0; _hessian := [];
       _eigenvalues := None; _eigenvectors := None; g_old := None;
       symmetry := if symmetrize then Some (get_symmetry structure) else None;
       regularization := 0; dx := None |} in
  match (_initialize_hessian structure starting_h diffusion_id diffusion_direction ;;;
         e <- get ;;
         (if use_eigenvalues e
          then modify (set_regularization (regularization0 ^ 2))
          else modify (set_regularization regularization0)) ;;;
         e <- get ;;
         if use_eigenvalues e && Qeq_bool (regularization e) 0
         then raise (ValueError "Regularization must be larger than 0 when eigenvalues are used")
         else ret tt) self with
  | (Ok _, e) => Ok e
  | (Raise x, _) => Raise x
  end.

End Numpy.

(** ** [eigh] on diagonal matrices

    For a diagonal matrix [np.linalg.eigh] answers the diagonal in ascending
    order and the unit vectors in the same order.  [eigh_diag] computes that
    answer; it instantiates [linalg_eigh] where a statement is run on a
    diagonal Hessian. *)

Fixpoint insert_by {A : Type} (le : A -> A -> bool) (x : A) (l : list A) : list A :=
  match l with
  | [] => [x]
  | y :: t => if le x y then x :: l else y :: insert_by le x t
  end.

Definition sort_by {A : Type} (le : A -> A -> bool) (l : list A) : list A :=
  fold_right (insert_by le) [] l.

Definition eigh_diag (H : mat) : vec * mat :=
  let n := nrows H in
  let order := map snd (sort_by (fun p q => Qle_bool (fst p) (fst q))
                                (combine (vtab n (fun i => mget H i i)) (seq 0 n))) in
  (map (fun i => mget H i i) order,
   mtab n n (fun i k => kron i (nth k order 0%nat))).

(** An inverse for the runs that never reach [np.linalg.inv]. *)
Definition inv_unused (A : mat) : option mat := None.

Definition norm_unused (v : vec) : Q := 0.

(** One atom at the origin, the identity as the only symmetry operation. *)
Definition identity_symmetry (n : nat) : Symmetry :=
  {| rotations := [eye 3]; translations := [[0; 0; 0]];
     symmetrize_vectors := fun v => v; indices := [seq 0 n] |}.

Definition one_atom : Structure :=
  {| positions := [[0; 0; 0]]; get_symmetry := identity_symmetry 1 |}.

Definition two_atoms : Structure :=
  {| positions := [[0; 0; 0]; [1 # 2; 1 # 2; 1 # 2]]; get_symmetry := identity_symmetry 2 |}.

(** ** Engines used in the examples *)

(** What [__init__] builds on [one_atom] with [starting_h = 1],
    [regularization = 1] and the other arguments at their defaults. *)
Definition fresh_engine : QuasiNewtonInteractive :=
  {| use_eigenvalues := true;
     _hessian := [[1; 0; 0]; [0; 1; 0]; [0; 0; 1]];
     _eigenvalues := None; _eigenvectors := None; g_old := None;
     symmetry := Some (identity_symmetry 1);
     regularization := 1; dx := None |}.


(** The same engine after a first step along x. *)
Definition seeded_engine : QuasiNewtonInteractive :=
  set_dx [[-(1 # 2); 0; 0]] (set_g_old [1; 0; 0] fresh_engine).

(** A matrix of [n] rows of [n] entries. *)
Definition square (n : nat) (A : mat) : Prop :=
  nrows A = n /\ forall row, In row A -> length row = n.

(** [H == H.T] on a matrix of side [n]. *)
Definition symmetric (n : nat) (A : mat) : Prop :=
  forall i j, (i < n)%nat -> (j < n)%nat -> mget A i j == mget A j i.

(** Successive updates in mode [PSB]: between two calls of [update_hessian]
    the displacement taken is stored as [dx], as [get_dx] does. *)
Fixpoint psb_updates (steps : list (mat * vec)) : M QuasiNewtonInteractive unit :=
  match steps with
  | [] => ret tt
  | (d, g) :: rest =>
      update_hessian g default_threshold "PSB" ;;;
      modify (set_dx d) ;;;
      psb_updates rest
  end.

(** ** run_qn *)

Section Driver.

Variable linalg_inv : mat -> option mat.
Variable linalg_eigh : mat -> vec * mat.
Variable linalg_norm : vec -> Q.

(** The job: its structure, [job.run()], [job.output.forces[-1]],
    [job.structure.positions += dx] and
    [job.structure.center_coordinates_in_unit_cell()]. *)
Variable Job : Type.
Variable job_structure : Job -> Structure.
Variable job_run : Job -> Job.
Variable job_forces_last : Job -> mat.
Variable job_add_positions : Job -> mat -> Job.
Variable job_center_coordinates_in_unit_cell : Job -> Job.

(** [np.linalg.norm(a, axis=-1).max()]; the maximum of no rows raises. *)
Definition max_norm (a : mat) : result Q :=
  match map linalg_norm a with
  | [] => Raise (ValueError "zero-size array to reduction operation maximum")
  | x :: rest => Ok (fold_left Qmax rest x)
  end.

Definition mneg (a : mat) : mat := map (map Qopp) a.

(** What a run leaves: the engine or the exception, the job, the warnings. *)
Definition run_outcome : Type := (result QuasiNewtonInteractive * Job * list string)%type.

(** The loop of [run_qn], [steps] iterations to go. *)
Fixpoint qn_loop (steps : nat) (mode : string) (ionic_force_tolerance : Q)
         (min_displacement : Q) (qn : QuasiNewtonInteractive) (job : Job)
  : run_outcome :=
  match steps with
  | O => (Ok qn, job, [])
  | S steps' =>
      let f := job_forces_last job in
      match max_norm f with
      | Raise x => (Raise x, job, [])
      | Ok nf =>
          if Qlt_bool nf ionic_force_tolerance then (Ok qn, job, [])
          else
            match get_dx linalg_inv linalg_eigh (flatten (mneg f))
                         default_threshold mode qn with
            | (Raise x, _) => (Raise x, job, [])
            | (Ok dx, qn') =>
                match max_norm dx with
                | Raise x => (Raise x, job, [])
                | Ok nd =>
                    if Qlt_bool nd min_displacement
                    then (Ok qn', job, ["line search alpha is zero"%string])
                    else
                      qn_loop steps' mode ionic_force_tolerance min_displacement qn'
                              (job_run (job_center_coordinates_in_unit_cell
                                          (job_add_positions job dx)))
                end
            end
      end
  end.

(** [run_qn].  The engine is built without [symmetrize], hence with its
    default [True]; [ionic_energy_tolerance] is not read either. *)
Definition run_qn (job : Job) (mode : string) (ionic_steps : nat)
           (ionic_force_tolerance ionic_energy_tolerance : Q)
           (starting_h : seed) (diffusion_id : option nat)
           (use_eigenvalues : bool) (diffusion_direction : option vec)
           (regularization : Q) (symmetrize : bool) (min_displacement : Q)
  : run_outcome :=
  match __init__ linalg_norm (job_structure job) starting_h diffusion_id
                 use_eigenvalues diffusion_direction regularization true with
  | Raise x => (Raise x, job, [])
  | Ok qn =>
      qn_loop ionic_steps mode ionic_force_tolerance min_displacement qn (job_run job)
  end.

End Driver.

(** ** Hessian *)

Module Hessian.

(** [_inequivalent_forces] is a Python list until [set_forces] turns it into
    an array; an array has no [extend]. *)
Inductive forces_store : Type :=
| PyList (l : list mat)
| NdArray (rows : list vec).

(** [_symmetry] and [_indices] cache what the private copy of the structure
    answers; they are read through [symmetry] and [indices] below. *)
Record t : Type := {
  structure : Structure;
  dx : Q;
  _displacements : list mat;
  _inequivalent_displacements : list vec;
  _inequivalent_ids : list (list nat);
  _inequivalent_forces : forces_store
}.

Definition __init__ (structure0 : Structure) (dx0 : Q) : t :=
  {| structure := structure0; dx := dx0; _displacements := [];
     _inequivalent_displacements := []; _inequivalent_ids := [];
     _inequivalent_forces := PyList [] |}.

Definition symmetry (h : t) : Symmetry := get_symmetry (structure h).

Definition indices (h : t) : list (list nat) := indices (symmetry h).

(** [np.isclose(a, b)] with the default tolerances. *)
Definition rtol : Q := 1 # 100000.
Definition atol : Q := 1 # 100000000.
Definition isclose (a b : Q) : bool :=
  Qle_bool (Qabs (a - b)) (atol + rtol * Qabs b).

(** [np.argsort] of a row of the index table. *)
Definition argsort (l : list nat) : list nat :=
  map snd (sort_by (fun p q => Nat.leb (fst p) (fst q))
                   (combine l (seq 0 (length l)))).

Definition field_eqb (a b : mat) : bool :=
  Nat.eqb (length a) (length b) &&
  forallb (fun p => Nat.eqb (length (fst p)) (length (snd p)) &&
                    forallb (fun q => Qeq_bool (fst q) (snd q))
                            (combine (fst p) (snd p)))
          (combine a b).

(** [np.sort(np.unique(a, return_index=True, axis=0)[1])]: the positions of
    the first occurrences, in ascending order. *)
Fixpoint unique_index_from (seen : list mat) (i : nat) (a : list mat) : list nat :=
  match a with
  | [] => []
  | x :: rest =>
      if existsb (field_eqb x) seen
      then unique_index_from seen (S i) rest
      else i :: unique_index_from (x :: seen) (S i) rest
  end.

Definition unique_index (a : list mat) : list nat := unique_index_from [] 0 a.

(** [a[ids]] along the first axis. *)
Fixpoint take_ids (a : list mat) (ids : list nat) : result (list mat) :=
  match ids with
  | [] => Ok []
  | i :: rest =>
      match nth_error a i, take_ids a rest with
      | Some x, Ok xs => Ok (x :: xs)
      | None, _ => Raise IndexError
      | _, Raise e => Raise e
      end
  end.

(** [_get_equivalent_vector]: one image of the field [v] per operation
    (atoms reordered by the inverse of the operation's row of [indices], each
    vector rotated), then the images selected by [ids], or the distinct ones
    when [ids] is [None]. *)
Definition _get_equivalent_vector (h : t) (v : mat) (ids : option (list nat))
  : result (list mat * list nat) :=
  let result0 := map (fun row => map (fun a => nth a v []) (argsort row)) (indices h) in
  let result1 := map (fun p => map (fun r => matvec (fst p) r) (snd p))
                     (combine (rotations (symmetry h)) result0) in
  let ids' := match ids with
              | None => unique_index result1
              | Some l => l
              end in
  match take_ids result1 ids' with
  | Ok sel => Ok (sel, ids')
  | Raise e => Raise e
  end.

(** [np.where(cond)] lists the entries where [cond] holds in row-major
    order; [where_first] is its first pair, [(ix[0], iy[0])]. *)
Definition where_first (p : Q -> bool) (a : mat) : option (nat * nat) :=
  match find (fun k => p (mget a (k / ncols a) (k mod ncols a)))
             (seq 0 (nrows a * ncols a)) with
  | Some k => Some (k / ncols a, k mod ncols a)%nat
  | None => None
  end.

(** [a[i, j] = x] on a copy. *)
Definition set_entry (a : mat) (i j : nat) (x : Q) : mat :=
  mtab (nrows a) (ncols a)
       (fun r c => if Nat.eqb r i && Nat.eqb c j then x else mget a r c).

Definition _get_next_displacement (h : t) (all_displacements : mat) : result mat :=
  match where_first (fun x => isclose x 0) all_displacements with
  | Some (ix0, iy0) => Ok (set_entry (zeros_like all_displacements) ix0 iy0 (dx h))
  | None => Raise IndexError
  end.

(** [all_displacements + np.absolute(fields).sum(axis=0)]. *)
Definition add_abs_sum (all_displacements : mat) (fields : list mat) : mat :=
  mtab (nrows all_displacements) (ncols all_displacements)
       (fun i j => mget all_displacements i j
                   + sumQ (map (fun f => Qabs (mget f i j)) fields)).

(** What the loop of [_generate_displacements] carries. *)
Record gen_state : Type := {
  all_displacements : mat;
  raw : list mat;
  inequivalent : list mat;
  ids : list (list nat)
}.

Fixpoint generate_loop (h : t) (count : nat) (s : gen_state) : result gen_state :=
  match count with
  | O => Ok s
  | S count' =>
      if negb (existsb (existsb (fun x => isclose x 0)) (all_displacements s))
      then Ok s
      else
        match _get_next_displacement h (all_displacements s) with
        | Raise e => Raise e
        | Ok d =>
            match _get_equivalent_vector h d None with
            | Raise e => Raise e
            | Ok (inequi_displacements, indices0) =>
                generate_loop h count'
                  {| all_displacements :=
                       add_abs_sum (all_displacements s) inequi_displacements;
                     raw := raw s ++ [d];
                     inequivalent := inequivalent s ++ inequi_displacements;
                     ids := ids s ++ [indices0] |}
            end
        end
  end.

(** [np.array(l).reshape(len(l), -1)]; with no row numpy cannot tell the
    second dimension and raises. *)
Definition reshape_rows (l : list mat) : result (list vec) :=
  match l with
  | [] => Raise (ValueError "cannot reshape array of size 0")
  | _ => Ok (map flatten l)
  end.

Definition set_generated (s : gen_state) (rows : list vec) (h : t) : t :=
  {| structure := structure h; dx := dx h; _displacements := raw s;
     _inequivalent_displacements := rows; _inequivalent_ids := ids s;
     _inequivalent_forces := _inequivalent_forces h |}.

Definition _generate_displacements : M t unit :=
  h <- get ;;
  let all0 := zeros_like (positions (structure h)) in
  s <- lift (generate_loop h (length (flatten all0))
               {| all_displacements := all0; raw := _displacements h;
                  inequivalent := []; ids := _inequivalent_ids h |}) ;;
  modify (set_generated s (_inequivalent_displacements h)) ;;;
  rows <- lift (reshape_rows (inequivalent s)) ;;
  modify (set_generated s rows).

(** The property [displacements]. *)
Definition displacements : M t (list mat) :=
  h <- get ;;
  (if Nat.eqb (length (_displacements h)) 0 then _generate_displacements else ret tt) ;;;
  h' <- get ;;
  ret (_displacements h').

(** The shape of an array of fields. *)
Definition shape3 (a : list mat) : list nat :=
  match a with
  | [] => [0%nat]
  | f :: _ => [length a; nrows f; ncols f]
  end.

Definition set_forces_store (s : forces_store) (h : t) : t :=
  {| structure := structure h; dx := dx h; _displacements := _displacements h;
     _inequivalent_displacements := _inequivalent_displacements h;
     _inequivalent_ids := _inequivalent_ids h;
     _inequivalent_forces := s |}.

(** The body of the loop of [set_forces]. *)
Definition extend_forces (ff : mat) (ii : list nat) : M t unit :=
  h <- get ;;
  match _inequivalent_forces h with
  | PyList l =>
      r <- lift (_get_equivalent_vector h ff (Some ii)) ;;
      modify (set_forces_store (PyList (l ++ fst r)))
  | NdArray _ => raise (AttributeError "'numpy.ndarray' object has no attribute 'extend'")
  end.

Fixpoint set_forces_loop (pairs : list (mat * list nat)) : M t unit :=
  match pairs with
  | [] => ret tt
  | (ff, ii) :: rest => extend_forces ff ii ;;; set_forces_loop rest
  end.

Definition set_forces (forces : list mat) : M t unit :=
  d <- displacements ;;
  (if list_eq_dec Nat.eq_dec (shape3 forces) (shape3 d) then ret tt
   else raise (AssertionError "Force shape does not match displacement shape")) ;;;
  h <- get ;;
  set_forces_loop (combine forces (_inequivalent_ids h)) ;;;
  h' <- get ;;
  match _inequivalent_forces h' with
  | PyList l =>
      rows <- lift (reshape_rows l) ;;
      modify (set_forces_store (NdArray rows))
  | NdArray rows =>
      match rows with
      | [] => raise (ValueError "cannot reshape array of size 0")
      | _ => ret tt
      end
  end.

(** [len(self._inequivalent_forces)]. *)
Definition store_len (s : forces_store) : nat :=
  match s with
  | PyList l => length l
  | NdArray rows => length rows
  end.

Section GetHessian.

Variable linalg_inv : mat -> option mat.

Definition get_hessian (forces : option (list mat)) : M t mat :=
  h <- get ;;
  (match forces with
   | None =>
       if Nat.eqb (store_len (_inequivalent_forces h)) 0
       then raise (AssertionError "Forces not set yet")
       else ret tt
   | Some f => set_forces f
   end) ;;;
  h' <- get ;;
  let D := _inequivalent_displacements h' in
  F <- match _inequivalent_forces h' with
       | NdArray rows => ret rows
       | PyList _ => raise (ValueError "einstein sum subscripts do not match the operand")
       end ;;
  let X := mtab (ncols D) (ncols D)
                (fun k j => big (nrows D) (fun i => mget D i k * mget D i j)) in
  let Y := mtab (ncols F) (ncols D)
                (fun n k => big (nrows F) (fun i => mget F i n * mget D i k)) in
  invX <- lift (inv linalg_inv X) ;;
  ret (mtab (nrows Y) (ncols invX)
            (fun n j => - big (nrows invX) (fun k => mget invX k j * mget Y n k))).

End GetHessian.

End Hessian.

(** The field that is [x] at atom [i], direction [j], and zero elsewhere. *)
Definition onehot (n m i j : nat) (x : Q) : mat :=
  mtab n m (fun r c => if Nat.eqb r i && Nat.eqb c j then x else 0).

(** One probe per atom-direction, atoms in order, then x, y, z. *)
Definition probes (N : nat) (x : Q) : list mat :=
  map (fun k => onehot N 3 (k / 3) (k mod 3) x) (seq 0 (3 * N)).

(** ** Notions for the statements about [Hessian] *)

(** The error of [get_hessian] when there are no forces. *)
Definition not_set : exn := AssertionError "Forces not set yet".

(** The least-squares problem of [get_hessian], for displacements [D] and
    forces [F], one row per probe: [gram D] is [D^T D], [cross F D] is
    [F^T D], and the estimate [H] is sought with [H (D^T D) = - F^T D], the
    normal equations of [F = - D H^T]. *)
Definition gram (D : mat) : mat :=
  mtab (ncols D) (ncols D) (fun k j => big (nrows D) (fun i => mget D i k * mget D i j)).

Definition cross (F D : mat) : mat :=
  mtab (ncols F) (ncols D) (fun n k => big (nrows F) (fun i => mget F i n * mget D i k)).

(** [B] is an inverse of the matrix [X] of side [c]: [B X] is the unit
    matrix. *)
Definition inverse_of (c : nat) (B X : mat) : Prop :=
  nrows B = c /\ ncols B = c /\
  forall k m, (k < c)%nat -> (m < c)%nat ->
    big c (fun j => mget B k j * mget X j m) == kron k m.

(** The invariant of the loop of [_generate_displacements] on [N] atoms
    under the identity alone, after [k] probes of step [dx0]: the entries
    before [k] (row-major) are covered, the others are zero; the probes so
    far are the first [k] unit fields, and so, entry by entry, are their
    images. *)
Definition covered (N : nat) (dx0 : Q) (k : nat) (F : nat -> nat -> Q) : Prop :=
  forall a b, (a < N)%nat -> (b < 3)%nat ->
    F a b == if Nat.ltb (3 * a + b) k then Qabs dx0 else 0.

Definition unit_field (N : nat) (dx0 : Q) (m : nat) (G : nat -> nat -> Q) : Prop :=
  forall a b, (a < N)%nat -> (b < 3)%nat ->
    G a b == if Nat.eqb (3 * a + b) m then dx0 else 0.

Definition loop_inv (N : nat) (dx0 : Q) (k : nat) (st : Hessian.gen_state) : Prop :=
  (exists F, Hessian.all_displacements st = mtab N 3 F /\ covered N dx0 k F) /\
  Hessian.raw st = map (fun m => onehot N 3 (m / 3) (m mod 3) dx0) (seq 0 k) /\
  length (Hessian.inequivalent st) = k /\
  (forall m, (m < k)%nat ->
     exists G, nth m (Hessian.inequivalent st) [] = mtab N 3 G /\ unit_field N dx0 m G) /\
  Hessian.ids st = repeat [0%nat] k.

(** A job at rest for the examples: one atom, no force on it (the norm of
    the zero force being zero, [norm_unused] serves as [np.linalg.norm]). *)
Definition job_at_rest : Type := unit.
Definition rest_structure (j : job_at_rest) : Structure := one_atom.
Definition rest_run (j : job_at_rest) : job_at_rest := j.
Definition rest_forces_last (j : job_at_rest) : mat := [[0; 0; 0]].
Definition rest_add_positions (j : job_at_rest) (d : mat) : job_at_rest := j.
Definition rest_center (j : job_at_rest) : job_at_rest := j.

(** Two steps for the examples: the displacement taken and the gradient
    that follows it. *)
Definition two_steps : list (mat * vec) :=
  [([[-(1 # 2); 0; 0]], [1; 0; 0]); ([[1; 1; 0]], [2; 1; 0])].

(** [diag(1, 2, 3)] as a seed array. *)
Definition diag123 : vec := [1; 0; 0; 0; 2; 0; 0; 0; 3].

(** ** Notions for the further properties *)

(** The residual of the secant equation, as [update_hessian] computes it. *)
Definition residual (e : QuasiNewtonInteractive) (g go : vec) (d : mat) : vec :=
  vsub (vsub g go) (matvec (_hessian e) (flatten d)).

(** A regularization whose square is a float like any other, neither
    rounded to zero nor out of range: [1e-150 <= |r| <= 1e150]. *)
Definition square_in_range (r : Q) : Prop :=
  1 / 10 ^ 150 <= Qabs r /\ Qabs r <= 10 ^ 150.

(** The cached eigenpairs agree with the Hessian: there are none, or they
    are what [eigh] answers on the Hessian stored now. *)
Definition coherent (linalg_eigh : mat -> vec * mat) (e : QuasiNewtonInteractive) : Prop :=
  (_eigenvalues e = None /\ _eigenvectors e = None) \/
  (_eigenvalues e = Some (fst (linalg_eigh (_hessian e))) /\
   _eigenvectors e = Some (snd (linalg_eigh (_hessian e)))).

(** The Euclidean norm of a vector along one axis: the absolute value of its
    one entry.  It serves as [np.linalg.norm] in examples with such vectors. *)
Definition norm_axis (v : vec) : Q := sumQ (map Qabs v).

(** [np.linalg.inv] on diagonal matrices: the inverses of the diagonal
    entries, and no answer when one of them is zero.  It serves as
    [linalg_inv] in examples where the matrix to invert is diagonal. *)
Definition inv_diag (A : mat) : option mat :=
  if forallb (fun i => negb (Qeq_bool (mget A i i) 0)) (seq 0 (nrows A))
  then Some (mtab (nrows A) (nrows A) (fun i j => kron i j / mget A i i))
  else None.

(** What the loop of [_generate_displacements] keeps, whatever the
    symmetry, on positions of [R] rows and [C] columns: the coverage has
    that shape, every probe so far is a unit field of step [dx0], there is
    one index list per probe, and no image without a probe. *)
Definition loop_state (R C : nat) (dx0 : Q) (st : Hessian.gen_state) : Prop :=
  (exists F, Hessian.all_displacements st = mtab R C F) /\
  Forall (fun p => exists i j, (i < R)%nat /\ (j < C)%nat /\ p = onehot R C i j dx0)
         (Hessian.raw st) /\
  length (Hessian.raw st) = length (Hessian.ids st) /\
  (Hessian.inequivalent st <> [] -> Hessian.raw st <> []).

(** * The atomsk command-line builder

    A shallow embedding of
    [pyiron_atomistics/atomistics/structure/factories/atomsk.py]: the class
    [AtomskBuilder], which collects the options of an [atomsk] command line
    and runs it.

    Conventions of the embedding.
    - A Python [str] is a [string], its characters taken among the code
      points below 256.  A number handed to a method enters as the text that
      [str] gives it, which is what the f-strings of the source write.
    - A builder is one object, changed in place by its methods, each of
      which returns it: a method is a function on the builder's state.
    - The [atomsk] process, the file written for it and the reading of its
      output are outside the program and enter as the variables of a
      section. *)

Module Atomsk.

(** ** Text *)

(** The characters [str.split()] takes for white space (code points below
    256): tab to carriage return, the four separators [\x1c] to [\x1f], the
    space, the next-line character [\x85] and the no-break space [\xa0]. *)
Definition is_space (c : ascii) : bool :=
  let n := nat_of_ascii c in
  (Nat.leb 9 n && Nat.leb n 13) || (Nat.leb 28 n && Nat.leb n 32)
  || Nat.eqb n 133 || Nat.eqb n 160.

Definition flush (cur : string) : list string :=
  match cur with
  | EmptyString => []
  | _ => [cur]
  end.

(** [s.split()]: the maximal runs of characters that are not white space,
    [cur] being the run read so far. *)
Fixpoint split_from (cur : string) (s : string) : list string :=
  match s with
  | EmptyString => flush cur
  | String c s' =>
      if is_space c then flush cur ++ split_from EmptyString s'
      else split_from (cur ++ String c EmptyString)%string s'
  end.

Definition split (s : string) : list string := split_from EmptyString s.

(** [" ".join(l)]. *)
Definition join (l : list string) : string := String.concat " " l.

(** [s.replace(a, b)] for one-character [a] and [b]. *)
Fixpoint replace (a b : ascii) (s : string) : string :=
  match s with
  | EmptyString => EmptyString
  | String c s' => String (if Ascii.eqb c a then b else c) (replace a b s')
  end.


Section Builder.

(** A structure ([Atoms]). *)
Variable Atoms : Type.

(** [repr] of the value given as [hkl], for the error message. *)
Variable repr_hkl : list (list string) -> string.

(** [subprocess.run(argv, capture_output=True, cwd=temp_dir)] followed by
    [proc.stdout.decode("utf8")]: the text [atomsk] prints, in a directory
    that holds the structure (when there is one) as [input.exyz]. *)
Variable run_atomsk : list string -> option Atoms -> result string.

(** [ase_to_pyiron(read(io.StringIO(text), format="extxyz"))]. *)
Variable read_structure : string -> result Atoms.

Record AtomskBuilder : Type := {
  _options : list string;
  _structure : option Atoms
}.

Definition __init__ : AtomskBuilder := {| _options := []; _structure := None |}.

(** [self._options.append(line)]. *)
Definition append_option (line : string) (b : AtomskBuilder) : AtomskBuilder :=
  {| _options := _options b ++ [line]; _structure := _structure b |}.


Definition duplicate (nx : string) (ny nz : option string) : M AtomskBuilder unit :=
  let ny := match ny with None => nx | Some y => y end in
  let nz := match nz with None => ny | Some z => z end in
  modify (append_option ("-duplicate " ++ nx ++ " " ++ ny ++ " " ++ nz)%string).

Definition orthogonal : M AtomskBuilder unit :=
  modify (append_option "-orthogonal-cell").

(** The command line [build] hands to [subprocess.run]. *)
Definition command_line (options : list string) : list string :=
  "atomsk"%string :: split (join options).

Definition build : M AtomskBuilder Atoms :=
  modify (append_option "- exyz") ;;;
  b <- get ;;
  text <- lift (run_atomsk (command_line (_options b)) (_structure b)) ;;
  lift (read_structure text).

(** The method that [__getattr__] answers for a [name] the class does not
    define, called with positional arguments and keyword arguments (in the
    order given). *)
Definition __getattr__ (name : string) (args : list string)
           (kwargs : list (string * string)) : M AtomskBuilder unit :=
  let args_str := join args in
  let kwargs_str := join (map (fun kv => (fst kv ++ " " ++ snd kv)%string) kwargs) in
  modify (append_option
            ("-" ++ replace "_" "-" name ++ " " ++ args_str ++ " " ++ kwargs_str)%string).

Definition modify (structure : Atoms) : AtomskBuilder :=
  {| _options := ["input.exyz"%string]; _structure := Some structure |}.

End Builder.

Arguments _options {Atoms} _.
Arguments _structure {Atoms} _.
Arguments append_option {Atoms} line b.
Arguments duplicate {Atoms} nx ny nz _.
Arguments orthogonal {Atoms} _.
Arguments __getattr__ {Atoms} name args kwargs _.
Arguments build {Atoms} run_atomsk read_structure _.

(** ** Notions for the statements about the builder *)

Fixpoint no_space (s : string) : bool :=
  match s with
  | EmptyString => true
  | String c s' => negb (is_space c) && no_space s'
  end.

(** A word: a text that is not empty and holds no white space. *)
Definition word (s : string) : bool :=
  match s with
  | EmptyString => false
  | _ => no_space s
  end.

(** A run of [atomsk] for the examples: it prints its command line back. *)
Definition echo_atomsk (argv : list string) (input : option unit) : result string :=
  Ok (join argv).

Definition read_nothing (text : string) : result unit := Ok tt.

End Atomsk.
(** * Properties *)

(** ** Running a method *)

Ltac run :=
  unfold bind, get, ret, raise, modify, lift in *; cbn [fst snd] in *.

(** ** The first call *)

Section EngineFacts.

Variable linalg_inv : mat -> option mat.
Variable linalg_eigh : mat -> vec * mat.

(** Reading the inverse touches the cached eigenpairs and nothing else. *)
Lemma inv_hessian_frame (e e1 : QuasiNewtonInteractive) (r : result mat) :
  inv_hessian linalg_inv linalg_eigh e = (r, e1) ->
  _hessian e1 = _hessian e /\ g_old e1 = g_old e /\ symmetry e1 = symmetry e /\
  dx e1 = dx e /\ regularization e1 = regularization e /\
  use_eigenvalues e1 = use_eigenvalues e.
Proof.
  unfold inv_hessian, eigenvectors, eigenvalues, _calc_eig, hessian. run.
  destruct (Qlt_bool 0 (regularization e)).
  - destruct (use_eigenvalues e) eqn:EU.
    + destruct (_eigenvectors e) as [V|] eqn:EV; cbn.
      * destruct (_eigenvalues e) as [w|] eqn:EW; cbn.
        -- rewrite EV. intros H; inversion H; subst. repeat split; auto.
        -- intros H; inversion H; subst. repeat split; auto.
      * intros H; inversion H; subst. repeat split; auto.
    + unfold inv. destruct (linalg_inv _); intros H; inversion H; subst; repeat split; auto.
  - intros H; inversion H; subst. repeat split; auto.
Qed.

Lemma update_hessian_unseeded (e : QuasiNewtonInteractive) (g : vec) (threshold : Q)
      (mode : string) :
  g_old e = None -> update_hessian g threshold mode e = (Ok tt, set_g_old g e).
Proof.
  intros Hg. unfold update_hessian. run. rewrite Hg. reflexivity.
Qed.

End EngineFacts.

(** C1, as the code has it: on an engine whose [g_old] is undefined, [get_dx]
    stores the gradient as [g_old] and leaves the Hessian alone, whatever the
    mode; it then goes on and, where [inv_hessian] and the reshape succeed,
    returns the displacement [- inv_hessian . g] (symmetrized when a symmetry
    is set) and stores it as [dx]. *)
Theorem get_dx_first_call (linalg_inv : mat -> option mat)
        (linalg_eigh : mat -> vec * mat)
        (e e1 : QuasiNewtonInteractive) (g : vec) (threshold : Q) (mode : string)
        (invH d : mat) :
  g_old e = None ->
  inv_hessian linalg_inv linalg_eigh (set_g_old g e) = (Ok invH, e1) ->
  reshape_m1_3 (vneg (matvec invH g)) = Ok d ->
  let d' := match symmetry e with
            | Some s => symmetrize_vectors s d
            | None => d
            end in
  update_hessian g threshold mode e = (Ok tt, set_g_old g e) /\
  get_dx linalg_inv linalg_eigh g threshold mode e = (Ok d', set_dx d' e1) /\
  _hessian (set_dx d' e1) = _hessian e /\
  g_old (set_dx d' e1) = Some g.
Proof.
  intros Hg Hinv Hre d'.
  pose proof (inv_hessian_frame _ _ _ _ _ Hinv) as (FH & FG & FS & _).
  split; [apply update_hessian_unseeded; exact Hg|].
  split; [|split; cbn; [exact FH | exact FG]].
  unfold get_dx. unfold bind at 1.
  rewrite (update_hessian_unseeded e g threshold mode Hg).
  unfold bind at 1. rewrite Hinv.
  unfold bind at 1. unfold lift at 1. rewrite Hre.
  run. cbn. rewrite FS. cbn. subst d'.
  destruct (symmetry e); reflexivity.
Qed.


Lemma fresh_engine_constructed :
  __init__ norm_unused one_atom (Scalar 1) None true None 1 true = Ok fresh_engine.
Proof. reflexivity. Qed.

Lemma get_dx_first_call_witness :
  g_old fresh_engine = None /\
  exists d e1,
    get_dx inv_unused eigh_diag [1; 0; 0] default_threshold "PSB" fresh_engine
    = (Ok d, set_dx d e1) /\
    _hessian (set_dx d e1) = _hessian fresh_engine /\
    g_old (set_dx d e1) = Some [1; 0; 0].
Proof.
  split; [reflexivity|].
  pose proof (fun e1 invH d =>
                get_dx_first_call inv_unused eigh_diag fresh_engine e1
                  [1; 0; 0] default_threshold "PSB" invH d eq_refl) as H.
  edestruct H as (_ & H2 & H3 & H4);
    [vm_compute; reflexivity | vm_compute; reflexivity |].
  eexists; eexists. split; [exact H2 | split; [exact H3 | exact H4]].
Defined.

(** C1 as stated fails: on a freshly constructed engine the first [get_dx]
    does return a displacement, here [-1/2] along x for the gradient
    [(1, 0, 0)], and stores it as [dx]. *)
Lemma get_dx_first_call_returns_displacement :
  exists d e',
    get_dx inv_unused eigh_diag [1; 0; 0] default_threshold "PSB" fresh_engine
    = (Ok d, e') /\
    dx e' = Some d /\
    e' <> set_g_old [1; 0; 0] fresh_engine /\
    length d = 1%nat /\ mget d 0 0 == - (1 # 2) /\ mget d 0 1 == 0 /\ mget d 0 2 == 0.
Proof.
  eexists; eexists.
  split; [vm_compute; reflexivity|].
  split; [reflexivity|].
  split; [intros H; discriminate H|].
  repeat split.
Qed.

(** ** The path without regularization *)

(** C2: on a 2-atom system seeded with [k.I], eigen-mode off and
    regularization zero, [get_dx] on the gradient [(1,0,0,-1,0,0)] does not
    return [-g/k]: [inv_hessian] reaches [np.linnalg.inv] and the call ends
    in an [AttributeError], for every [k] and whatever the linear-algebra
    routines answer. *)
Theorem get_dx_zero_regularization_raises
        (linalg_inv : mat -> option mat) (linalg_eigh : mat -> vec * mat)
        (linalg_norm : vec -> Q) (k : Q) :
  exists e,
    __init__ linalg_norm two_atoms (Scalar k) None false None 0 true = Ok e /\
    _hessian e = mscale k (eye 6) /\
    get_dx linalg_inv linalg_eigh [1; 0; 0; -(1); 0; 0] default_threshold "PSB" e
    = (Raise (AttributeError "module 'numpy' has no attribute 'linnalg'"),
       set_g_old [1; 0; 0; -(1); 0; 0] e).
Proof.
  eexists. split; [vm_compute; reflexivity|].
  split; reflexivity.
Qed.

(** ** The SR denominator *)

Lemma Qlt_bool_iff (x y : Q) : Qlt_bool x y = true <-> x < y.
Proof.
  unfold Qlt_bool. rewrite negb_true_iff.
  split; intros H.
  - apply Qnot_le_lt. intros L. apply Qle_bool_iff in L. congruence.
  - destruct (Qle_bool y x) eqn:E; [|reflexivity].
    apply Qle_bool_iff in E. exfalso. apply (Qlt_not_le _ _ H E).
Qed.

(** What the nudge does do: a denominator below the threshold in absolute
    value is replaced by a positive one. *)
Lemma SR_denominator_nudged (dx H_tmp : vec) (threshold : Q) :
  Qabs (dot H_tmp dx) < threshold ->
  SR_denominator dx H_tmp threshold == dot H_tmp dx + threshold /\
  0 < SR_denominator dx H_tmp threshold.
Proof.
  intros H. unfold SR_denominator.
  destruct (Qlt_bool (Qabs (dot H_tmp dx)) threshold) eqn:E.
  - split; [reflexivity|].
    apply Qabs_Qlt_condition in H. lra.
  - apply Qlt_bool_iff in H. congruence.
Qed.

(** C3: the nudge adds [threshold] itself, not [threshold] with the sign of
    the denominator.  With [dx = (1)], [threshold = 1e-4]: the denominator
    [-5e-5] becomes [5e-5] (the sign changes), and the denominator [-9e-5]
    becomes [1e-5] (the absolute value decreases). *)
Theorem SR_denominator_not_sign_preserving :
  (dot [-(5 # 100000)] [1] < 0 /\
   0 < SR_denominator [1] [-(5 # 100000)] (1 # 10000)) /\
  (Qabs (dot [-(9 # 100000)] [1]) == 9 # 100000 /\
   Qabs (SR_denominator [1] [-(9 # 100000)] (1 # 10000)) == 1 # 100000).
Proof.
  repeat split.
Qed.

(** ** An unknown mode *)

(** C7, as the code has it: with a mode outside [SR], [PSB], [BFGS], an
    engine whose [g_old] is set raises, from [update_hessian] and from
    [get_dx] alike, and is left exactly as it was; an engine whose [g_old] is
    undefined does not raise: [update_hessian] returns normally and stores the
    gradient as [g_old]. *)
Theorem update_hessian_unknown_mode
        (linalg_inv : mat -> option mat) (linalg_eigh : mat -> vec * mat)
        (e : QuasiNewtonInteractive) (g : vec) (threshold : Q) (mode : string) :
  String.eqb mode "SR" = false ->
  String.eqb mode "PSB" = false ->
  String.eqb mode "BFGS" = false ->
  (g_old e <> None ->
   exists x, update_hessian g threshold mode e = (Raise x, e) /\
             get_dx linalg_inv linalg_eigh g threshold mode e = (Raise x, e)) /\
  (g_old e = None ->
   update_hessian g threshold mode e = (Ok tt, set_g_old g e)).
Proof.
  intros H1 H2 H3. split.
  - intros Hg.
    assert (exists x, update_hessian g threshold mode e = (Raise x, e)) as [x Hx].
    { unfold update_hessian, get_dg, hessian. run.
      destruct (g_old e) as [go|] eqn:G; [|congruence].
      cbn. rewrite G.
      destruct (dx e) as [d|]; cbn.
      - rewrite H1, H2, H3. eexists; reflexivity.
      - eexists; reflexivity. }
    exists x. split; [exact Hx|].
    unfold get_dx. unfold bind at 1. rewrite Hx. reflexivity.
  - apply update_hessian_unseeded.
Qed.


Lemma update_hessian_unknown_mode_witness :
  g_old seeded_engine <> None /\
  exists x,
    update_hessian [2; 0; 0] default_threshold "LBFGS" seeded_engine
    = (Raise x, seeded_engine) /\
    get_dx inv_unused eigh_diag [2; 0; 0] default_threshold "LBFGS" seeded_engine
    = (Raise x, seeded_engine).
Proof.
  split; [discriminate|].
  apply (update_hessian_unknown_mode inv_unused eigh_diag seeded_engine
           [2; 0; 0] default_threshold "LBFGS");
    [reflexivity | reflexivity | reflexivity | discriminate].
Defined.

(** C7 as stated fails on the just-constructed engine: the unknown mode
    [LBFGS] raises nothing, [g_old] changes from undefined to the gradient,
    and [get_dx] goes on to return a displacement. *)
Lemma update_hessian_unknown_mode_unseeded :
  update_hessian [1; 0; 0] default_threshold "LBFGS" fresh_engine
  = (Ok tt, set_g_old [1; 0; 0] fresh_engine) /\
  g_old fresh_engine = None /\
  g_old (set_g_old [1; 0; 0] fresh_engine) = Some [1; 0; 0] /\
  exists d e',
    get_dx inv_unused eigh_diag [1; 0; 0] default_threshold "LBFGS" fresh_engine
    = (Ok d, e').
Proof.
  repeat split.
  eexists; eexists. vm_compute. reflexivity.
Qed.

(** ** Tables *)

Lemma length_vtab (n : nat) (f : nat -> Q) : length (vtab n f) = n.
Proof. unfold vtab. rewrite length_map, length_seq. reflexivity. Qed.

Lemma nth_tab {A : Type} (n i : nat) (f : nat -> A) (d : A) :
  (i < n)%nat -> nth i (map f (seq 0 n)) d = f i.
Proof.
  intros H. rewrite (nth_indep _ d (f 0%nat)) by (rewrite length_map, length_seq; exact H).
  rewrite map_nth, seq_nth by exact H. reflexivity.
Qed.

Lemma vget_vtab (n i : nat) (f : nat -> Q) : (i < n)%nat -> vget (vtab n f) i = f i.
Proof. intros H. unfold vget, vtab. apply nth_tab. exact H. Qed.

Lemma nrows_mtab (n m : nat) (f : nat -> nat -> Q) : nrows (mtab n m f) = n.
Proof. unfold nrows, mtab. rewrite length_map, length_seq. reflexivity. Qed.

Lemma row_mtab (n m i : nat) (f : nat -> nat -> Q) :
  (i < n)%nat -> nth i (mtab n m f) [] = vtab m (f i).
Proof.
  intros H. unfold mtab.
  apply (nth_tab n i (fun i => vtab m (f i))). exact H.
Qed.

Lemma mget_mtab (n m i j : nat) (f : nat -> nat -> Q) :
  (i < n)%nat -> (j < m)%nat -> mget (mtab n m f) i j = f i j.
Proof.
  intros Hi Hj. unfold mget. rewrite row_mtab by exact Hi.
  apply vget_vtab. exact Hj.
Qed.

Lemma rows_mtab (n m : nat) (f : nat -> nat -> Q) (row : vec) :
  In row (mtab n m f) -> length row = m.
Proof.
  unfold mtab. rewrite in_map_iff. intros (i & <- & _). apply length_vtab.
Qed.

Lemma ncols_mtab (n m : nat) (f : nat -> nat -> Q) :
  ncols (mtab n m f) = if Nat.eqb n 0 then 0%nat else m.
Proof.
  destruct n as [|n]; [reflexivity|].
  unfold ncols, mtab. cbn. apply length_vtab.
Qed.


Lemma square_mtab (n : nat) (f : nat -> nat -> Q) : square n (mtab n n f).
Proof. split; [apply nrows_mtab | apply rows_mtab]. Qed.

Lemma square_ncols (n : nat) (A : mat) : square n A -> ncols A = n.
Proof.
  intros [Hn Hr]. unfold ncols, nrows in *.
  destruct A as [|r A]; [exact Hn|]. cbn. apply Hr. left. reflexivity.
Qed.

Lemma length_flatten_rows (m : nat) (A : mat) :
  (forall row, In row A -> length row = m) ->
  length (flatten A) = (length A * m)%nat.
Proof.
  unfold flatten. induction A as [|r A IH]; intros H; [reflexivity|].
  cbn. rewrite length_app.
  rewrite IH by (intros; apply H; cbn; auto).
  rewrite (H r) by (cbn; auto). reflexivity.
Qed.

Lemma nth_flatten_rows (m : nat) (A : mat) (i j : nat) :
  (forall row, In row A -> length row = m) ->
  (i < length A)%nat -> (j < m)%nat ->
  nth (i * m + j) (flatten A) 0 = nth j (nth i A []) 0.
Proof.
  unfold flatten. revert i. induction A as [|r A IH]; intros i H Hi Hj.
  - cbn in Hi. lia.
  - assert (Hr : length r = m) by (apply H; cbn; auto).
    destruct i as [|i]; cbn [concat nth].
    + cbn. rewrite app_nth1 by lia. reflexivity.
    + rewrite app_nth2 by (cbn; lia).
      replace (S i * m + j - length r)%nat with (i * m + j)%nat by (cbn; lia).
      apply IH; [intros; apply H; cbn; auto | cbn in Hi; lia | exact Hj].
Qed.

(** The data of a table, reshaped to its own shape, is the table again. *)
Lemma reshape_flatten_mtab (n : nat) (f : nat -> nat -> Q) :
  exists h, reshape n n (flatten (mtab n n f)) = Ok h /\ square n h /\
            forall i j, (i < n)%nat -> (j < n)%nat -> mget h i j = f i j.
Proof.
  unfold reshape.
  rewrite (length_flatten_rows n) by apply rows_mtab.
  fold (nrows (mtab n n f)). rewrite nrows_mtab, Nat.eqb_refl.
  eexists. split; [reflexivity|]. split; [apply square_mtab|].
  intros i j Hi Hj. rewrite mget_mtab by assumption.
  unfold vget. rewrite (nth_flatten_rows n) by
    (try apply rows_mtab; try assumption; fold (nrows (mtab n n f)); rewrite nrows_mtab; assumption).
  apply mget_mtab; assumption.
Qed.

(** ** Assigning the Hessian *)




(** ** The driver *)

Lemma hessian_setter_outcome (v : vec) (e e' : QuasiNewtonInteractive) (r : result unit) :
  hessian_setter v e = (r, e') ->
  (exists h, r = Ok tt /\ e' = set_hessian_raw h e) \/
  (exists x, r = Raise x /\ e' = set_hessian_array [v] e).
Proof.
  unfold hessian_setter. run.
  destruct (reshape _ _ v) as [h|x]; intros H; inversion H; subst.
  - left. exists h. split; reflexivity.
  - right. exists x. split; reflexivity.
Qed.

Arguments hessian_setter : simpl never.

(** What [update_hessian] can leave behind: the gradient stored on an
    engine without one; an exception, with nothing changed or, when it comes
    from the reshape of the setter, with the value that did not fit in place
    of the Hessian; or a new Hessian (the caches dropped) and the gradient
    stored. *)
Lemma update_hessian_cases (g : vec) (threshold : Q) (mode : string)
      (e e' : QuasiNewtonInteractive) (r : result unit) :
  update_hessian g threshold mode e = (r, e') ->
  (r = Ok tt /\ e' = set_g_old g e /\ g_old e = None) \/
  ((e' = e \/ exists v, e' = set_hessian_array [v] e) /\ exists x, r = Raise x) \/
  (exists h, r = Ok tt /\ e' = set_g_old g (set_hessian_raw h e)).
Proof.
  unfold update_hessian, get_dg, hessian.
  cbv beta iota delta [bind get ret raise modify lift].
  destruct (g_old e) as [go|] eqn:G.
  2: { intros H. inversion H. left. auto. }
  cbv beta iota. rewrite G. cbv beta iota.
  destruct (dx e) as [d|].
  2: { intros H. inversion H. right. left. eauto. }
  cbv beta iota.
  set (dxf := flatten d). set (dg := vsub g go).
  set (H_tmp := vsub dg (matvec (_hessian e) dxf)).
  set (vSR := flatten (madd (_get_SR dxf dg H_tmp default_threshold) (_hessian e))).
  set (vPSB := flatten (madd (_get_PSB dxf dg H_tmp) (_hessian e))).
  set (vBFGS := flatten (madd (_get_BFGS dxf dg H_tmp) (_hessian e))).
  clearbody vSR vPSB vBFGS.
  assert (Hset : forall v,
            (let (r0, s') := hessian_setter v e in
             match r0 with
             | Ok _ => (Ok tt, set_g_old g s')
             | Raise x => (Raise x, s')
             end) = (r, e') ->
            (r = Ok tt /\ e' = set_g_old g e /\ Some go = None) \/
            ((e' = e \/ exists v, e' = set_hessian_array [v] e) /\
             exists x, r = Raise x) \/
            (exists h, r = Ok tt /\ e' = set_g_old g (set_hessian_raw h e))).
  { intros v. destruct (hessian_setter v e) as [r0 s'] eqn:E.
    apply hessian_setter_outcome in E.
    destruct E as [(h & -> & ->)|(x & -> & ->)]; intros H; inversion H.
    - right. right. exists h. auto.
    - right. left. split; [right; exists v; reflexivity | eauto]. }
  destruct (String.eqb mode "SR"); [apply Hset|].
  destruct (String.eqb mode "PSB"); [apply Hset|].
  destruct (String.eqb mode "BFGS"); [apply Hset|].
  intros H. inversion H. right. left. eauto.
Qed.

Section DriverFacts.

Variable linalg_inv : mat -> option mat.
Variable linalg_eigh : mat -> vec * mat.
Variable linalg_norm : vec -> Q.

Lemma hessian_setter_symmetry (v : vec) (e e' : QuasiNewtonInteractive) (r : result unit) :
  hessian_setter v e = (r, e') -> symmetry e' = symmetry e.
Proof.
  intros H. apply hessian_setter_outcome in H.
  destruct H as [(h & _ & ->)|(x & _ & ->)]; reflexivity.
Qed.

Lemma update_hessian_symmetry (g : vec) (threshold : Q) (mode : string)
      (e e' : QuasiNewtonInteractive) (r : result unit) :
  update_hessian g threshold mode e = (r, e') -> symmetry e' = symmetry e.
Proof.
  intros H. apply update_hessian_cases in H.
  destruct H as [(_ & -> & _)|[([->|(v & ->)] & _)|(h & _ & ->)]]; reflexivity.
Qed.

Lemma get_dx_symmetry (g : vec) (threshold : Q) (mode : string)
      (e e' : QuasiNewtonInteractive) (r : result mat) :
  get_dx linalg_inv linalg_eigh g threshold mode e = (r, e') ->
  symmetry e' = symmetry e.
Proof.
  unfold get_dx. unfold bind at 1.
  destruct (update_hessian g threshold mode e) as [[[]|x] e1] eqn:E1;
    apply update_hessian_symmetry in E1;
    [|intros H; inversion H; subst; exact E1].
  unfold bind at 1.
  destruct (inv_hessian linalg_inv linalg_eigh e1) as [[invH|x] e2] eqn:E2;
    apply inv_hessian_frame in E2; destruct E2 as (_ & _ & E2 & _);
    [|intros H; inversion H; subst; congruence].
  run. destruct (reshape_m1_3 _) as [d|x]; cbn;
    [|intros H; inversion H; subst; congruence].
  destruct (symmetry e2) eqn:E3; cbn; intros H; inversion H; subst; cbn; congruence.
Qed.

Lemma _initialize_hessian_symmetry (s : Structure) (starting_h : seed)
      (diffusion_id : option nat) (diffusion_direction : option vec)
      (e e' : QuasiNewtonInteractive) (r : result unit) :
  _initialize_hessian linalg_norm s starting_h diffusion_id diffusion_direction e = (r, e') ->
  symmetry e' = symmetry e.
Proof.
  unfold _initialize_hessian. unfold bind at 1.
  match goal with
  | |- context [match ?m e with _ => _ end] => destruct (m e) as [[[]|x] e1] eqn:E
  end.
  - assert (E1 : symmetry e1 = symmetry e).
    { destruct starting_h as [k|data].
      - destruct (Nat.eqb 1 _); eapply hessian_setter_symmetry; exact E.
      - destruct (Nat.eqb (length data) _);
          [eapply hessian_setter_symmetry; exact E | inversion E; reflexivity]. }
    destruct diffusion_id as [id|]; destruct diffusion_direction as [direction|];
      try (intros H; inversion H; subst; exact E1).
    unfold hessian. run.
    destruct (set_row _ _ _) as [v|x]; cbn; [|intros H; inversion H; subst; exact E1].
    destruct (seed_plus_one_times _ _ _) as [D|x]; cbn;
      [|intros H; inversion H; subst; exact E1].
    match goal with
    | |- context [hessian_setter ?v e1] =>
        destruct (hessian_setter v e1) as [[[]|x] e2] eqn:E2;
        apply hessian_setter_symmetry in E2;
        intros H; inversion H; subst; cbn; congruence
    end.
  - assert (E1 : symmetry e1 = symmetry e).
    { destruct starting_h as [k|data].
      - destruct (Nat.eqb 1 _); eapply hessian_setter_symmetry; exact E.
      - destruct (Nat.eqb (length data) _);
          [eapply hessian_setter_symmetry; exact E | inversion E; reflexivity]. }
    intros H; inversion H; subst; exact E1.
Qed.

Lemma init_symmetry (s : Structure) (starting_h : seed) (diffusion_id : option nat)
      (use_eigenvalues0 : bool) (diffusion_direction : option vec) (r : Q)
      (symmetrize : bool) (e : QuasiNewtonInteractive) :
  __init__ linalg_norm s starting_h diffusion_id use_eigenvalues0
           diffusion_direction r symmetrize = Ok e ->
  symmetry e = if symmetrize then Some (get_symmetry s) else None.
Proof.
  unfold __init__. unfold bind at 1.
  match goal with
  | |- context [_initialize_hessian ?a ?b ?c ?d ?f ?self] =>
      destruct (_initialize_hessian a b c d f self) as [[[]|x] e1] eqn:E;
      apply _initialize_hessian_symmetry in E; cbn in E
  end; [|discriminate].
  run. destruct (use_eigenvalues e1); cbn;
    repeat match goal with
           | |- context [if ?b then _ else _] => destruct b; cbn
           end;
    intros H; inversion H; subst; cbn; exact E.
Qed.

Variable Job : Type.
Variable job_run : Job -> Job.
Variable job_forces_last : Job -> mat.
Variable job_add_positions : Job -> mat -> Job.
Variable job_center_coordinates_in_unit_cell : Job -> Job.

Lemma qn_loop_symmetry (steps : nat) (mode : string)
      (ionic_force_tolerance min_displacement : Q)
      (qn qn' : QuasiNewtonInteractive) (job job' : Job) (w : list string) :
  qn_loop linalg_inv linalg_eigh linalg_norm Job job_run job_forces_last
          job_add_positions job_center_coordinates_in_unit_cell
          steps mode ionic_force_tolerance min_displacement qn job
  = (Ok qn', job', w) ->
  symmetry qn' = symmetry qn.
Proof.
  revert qn job. induction steps as [|steps IH]; intros qn job; cbn [qn_loop].
  - intros H; inversion H; reflexivity.
  - destruct (max_norm linalg_norm (job_forces_last job)) as [nf|x]; [|discriminate].
    destruct (Qlt_bool nf ionic_force_tolerance); [intros H; inversion H; reflexivity|].
    destruct (get_dx _ _ _ _ _ qn) as [[d|x] qn1] eqn:E; [|discriminate].
    apply get_dx_symmetry in E.
    destruct (max_norm linalg_norm d) as [nd|x]; [|discriminate].
    destruct (Qlt_bool nd min_displacement).
    + intros H; inversion H; subst. exact E.
    + intros H. apply IH in H. congruence.
Qed.

End DriverFacts.

(** C10: [run_qn] takes [symmetrize] and does not hand it on.  Two runs that
    differ in [symmetrize] alone are the same run, with the same engine or
    exception, the same job and the same warnings; and the engine of a run,
    whatever [symmetrize] says, carries the symmetry of the structure, as
    built with the default [symmetrize=True]. *)
Theorem run_qn_ignores_symmetrize
        (linalg_inv : mat -> option mat) (linalg_eigh : mat -> vec * mat)
        (linalg_norm : vec -> Q)
        (Job : Type) (job_structure : Job -> Structure) (job_run : Job -> Job)
        (job_forces_last : Job -> mat) (job_add_positions : Job -> mat -> Job)
        (job_center_coordinates_in_unit_cell : Job -> Job)
        (job : Job) (mode : string) (ionic_steps : nat)
        (ionic_force_tolerance ionic_energy_tolerance : Q)
        (starting_h : seed) (diffusion_id : option nat) (use_eigenvalues : bool)
        (diffusion_direction : option vec) (regularization min_displacement : Q) :
  run_qn linalg_inv linalg_eigh linalg_norm Job job_structure job_run
         job_forces_last job_add_positions job_center_coordinates_in_unit_cell
         job mode ionic_steps ionic_force_tolerance ionic_energy_tolerance
         starting_h diffusion_id use_eigenvalues diffusion_direction
         regularization true min_displacement
  = run_qn linalg_inv linalg_eigh linalg_norm Job job_structure job_run
           job_forces_last job_add_positions job_center_coordinates_in_unit_cell
           job mode ionic_steps ionic_force_tolerance ionic_energy_tolerance
           starting_h diffusion_id use_eigenvalues diffusion_direction
           regularization false min_displacement
  /\ (forall symmetrize qn job' warnings,
        run_qn linalg_inv linalg_eigh linalg_norm Job job_structure job_run
               job_forces_last job_add_positions job_center_coordinates_in_unit_cell
               job mode ionic_steps ionic_force_tolerance ionic_energy_tolerance
               starting_h diffusion_id use_eigenvalues diffusion_direction
               regularization symmetrize min_displacement
        = (Ok qn, job', warnings) ->
        symmetry qn = Some (get_symmetry (job_structure job))).
Proof.
  split; [reflexivity|].
  intros symmetrize qn job' warnings. unfold run_qn.
  destruct (__init__ _ _ _ _ _ _ _ true) as [qn0|x] eqn:E; [|discriminate].
  apply init_symmetry in E. intros H. apply qn_loop_symmetry in H. congruence.
Qed.

Lemma run_qn_ignores_symmetrize_witness :
  exists qn,
    run_qn inv_unused eigh_diag norm_unused job_at_rest rest_structure rest_run
           rest_forces_last rest_add_positions rest_center
           tt "PSB" 100 (1 # 100) 0 (Scalar 10) None true None (1 # 1000000)
           false (1 # 100000000)
    = (Ok qn, tt, []) /\
    symmetry qn = Some (get_symmetry one_atom).
Proof.
  destruct (run_qn_ignores_symmetrize inv_unused eigh_diag norm_unused job_at_rest
              rest_structure rest_run rest_forces_last rest_add_positions rest_center
              tt "PSB" 100 (1 # 100) 0 (Scalar 10) None true None (1 # 1000000)
              (1 # 100000000)) as [_ H].
  eexists. split; [vm_compute; reflexivity|].
  apply (H false _ tt []). vm_compute. reflexivity.
Defined.

(** ** Forces and the estimate *)

Module HessianFacts.
Import Hessian.

Lemma take_ids_error (a : list mat) (l : list nat) (x : exn) :
  take_ids a l = Raise x -> x = IndexError.
Proof.
  revert x. induction l as [|i l IH]; intros x; cbn; [discriminate|].
  destruct (nth_error a i); destruct (take_ids a l); intros H; inversion H; auto.
Qed.

Lemma _get_equivalent_vector_error (h : t) (v : mat) (l : option (list nat)) (x : exn) :
  _get_equivalent_vector h v l = Raise x -> x = IndexError.
Proof.
  unfold _get_equivalent_vector.
  destruct (take_ids _ _) eqn:E; intros H; inversion H; subst.
  eapply take_ids_error; eauto.
Qed.

Lemma generate_loop_error (h : t) (count : nat) (s : gen_state) (x : exn) :
  generate_loop h count s = Raise x -> x = IndexError.
Proof.
  revert s. induction count as [|c IH]; intros s; cbn; [discriminate|].
  destruct (negb _); [discriminate|].
  unfold _get_next_displacement.
  destruct (where_first _ _) as [[i j]|]; [|intros H; inversion H; auto].
  destruct (_get_equivalent_vector _ _ _) as [[a b]|y] eqn:E.
  - apply IH.
  - intros H; inversion H; subst. eapply _get_equivalent_vector_error; eauto.
Qed.

Lemma displacements_error (h h' : t) (x : exn) :
  displacements h = (Raise x, h') -> x <> not_set.
Proof.
  unfold displacements, _generate_displacements, reshape_rows. run.
  destruct (Nat.eqb _ _); cbn; [|discriminate].
  destruct (generate_loop _ _ _) as [s|y] eqn:E; cbn.
  - destruct (inequivalent s); cbn; intros H; inversion H; discriminate.
  - intros H; inversion H; subst.
    rewrite (generate_loop_error _ _ _ _ E). discriminate.
Qed.

Lemma set_forces_loop_error (pairs : list (mat * list nat)) (h h' : t) (x : exn) :
  set_forces_loop pairs h = (Raise x, h') -> x <> not_set.
Proof.
  revert h. induction pairs as [|[ff ii] rest IH]; intros h; cbn; [discriminate|].
  unfold extend_forces. run.
  destruct (_inequivalent_forces h); cbn.
  - destruct (_get_equivalent_vector _ _ _) eqn:E; cbn.
    + apply IH.
    + intros H; inversion H; subst.
      rewrite (_get_equivalent_vector_error _ _ _ _ E). discriminate.
  - intros H; inversion H; discriminate.
Qed.

Lemma set_forces_error (forces : list mat) (h h' : t) (x : exn) :
  set_forces forces h = (Raise x, h') -> x <> not_set.
Proof.
  unfold set_forces. unfold bind at 1.
  destruct (displacements h) as [[d|y] h1] eqn:E.
  - unfold bind at 1.
    destruct (list_eq_dec _ _ _); cbn.
    + run. destruct (set_forces_loop _ h1) as [[[]|y] h2] eqn:E2.
      * unfold reshape_rows.
        destruct (_inequivalent_forces h2) as [[|a l]|[|a l]]; cbn;
          intros H; inversion H; discriminate.
      * intros H; inversion H; subst. eapply set_forces_loop_error; eauto.
    + intros H; inversion H; discriminate.
  - intros H; inversion H; subst. eapply displacements_error; eauto.
Qed.

(** After a successful [set_forces] there are forces in store. *)
Lemma set_forces_stores (forces : list mat) (h h' : t) :
  set_forces forces h = (Ok tt, h') ->
  exists a rows, _inequivalent_forces h' = NdArray (a :: rows).
Proof.
  unfold set_forces. unfold bind at 1.
  destruct (displacements h) as [[d|y] h1] eqn:E; [|discriminate].
  unfold bind at 1.
  destruct (list_eq_dec _ _ _); cbn; [|discriminate].
  run. destruct (set_forces_loop _ h1) as [[[]|y] h2] eqn:E2; [|discriminate].
  unfold reshape_rows.
  destruct (_inequivalent_forces h2) as [[|a l]|[|a l]] eqn:E3; cbn;
    intros H; inversion H; subst; cbn; eauto.
Qed.

End HessianFacts.

(** ** Sums *)

Lemma sumQ_ext {A : Type} (l : list A) (f g : A -> Q) :
  (forall x, In x l -> f x == g x) -> sumQ (map f l) == sumQ (map g l).
Proof.
  unfold sumQ. induction l as [|a l IH]; intros H; cbn [map fold_right]; [reflexivity|].
  rewrite (H a) by (cbn; auto). rewrite IH by (intros; apply H; cbn; auto).
  reflexivity.
Qed.

Lemma big_ext (n : nat) (f g : nat -> Q) :
  (forall i, (i < n)%nat -> f i == g i) -> big n f == big n g.
Proof.
  intros H. unfold big, vtab. apply sumQ_ext.
  intros i Hi. apply in_seq in Hi. apply H. lia.
Qed.

Lemma sumQ_scale {A : Type} (l : list A) (c : Q) (f : A -> Q) :
  sumQ (map (fun x => c * f x) l) == c * sumQ (map f l).
Proof.
  unfold sumQ. induction l as [|a l IH]; cbn [map fold_right]; [ring|].
  rewrite IH. ring.
Qed.

Lemma big_scale (n : nat) (c : Q) (f : nat -> Q) :
  big n (fun i => c * f i) == c * big n f.
Proof. unfold big, vtab. apply sumQ_scale. Qed.

(** ** The PSB update *)

Lemma mtab_ext (n m : nat) (f g : nat -> nat -> Q) :
  (forall i j, (i < n)%nat -> (j < m)%nat -> f i j = g i j) ->
  mtab n m f = mtab n m g.
Proof.
  intros H. unfold mtab, vtab.
  apply map_ext_in. intros i Hi. apply in_seq in Hi.
  apply map_ext_in. intros j Hj. apply in_seq in Hj.
  apply H; lia.
Qed.

Lemma ncols_mtab_square (n : nat) (f : nat -> nat -> Q) : ncols (mtab n n f) = n.
Proof. rewrite ncols_mtab. destruct n; reflexivity. Qed.

Lemma length_vsub (a b : vec) : length (vsub a b) = length a.
Proof. apply length_vtab. Qed.

Lemma _get_PSB_table (n : nat) (dx dg H_tmp : vec) :
  length dx = n -> length H_tmp = n ->
  _get_PSB dx dg H_tmp
  = mtab n n (fun i j =>
      (vget H_tmp i * vget dx j + vget H_tmp j * vget dx i) / dot dx dx
      - big n (fun k => vget dx k * vget H_tmp k * vget dx i * vget dx j)
        / dot dx dx ^ 2).
Proof.
  intros Hd Hh. unfold _get_PSB, msub, mdiv, madd, transpose, outer, einsum_i_i_j_k.
  rewrite Hd, Hh.
  repeat rewrite ?nrows_mtab, ?ncols_mtab_square.
  apply mtab_ext. intros i j Hi Hj.
  repeat rewrite mget_mtab by assumption.
  reflexivity.
Qed.

Lemma _get_PSB_symmetric (n : nat) (dx dg H_tmp : vec) :
  length dx = n -> length H_tmp = n ->
  square n (_get_PSB dx dg H_tmp) /\ symmetric n (_get_PSB dx dg H_tmp).
Proof.
  intros Hd Hh. rewrite (_get_PSB_table n) by assumption.
  split; [apply square_mtab|].
  intros i j Hi Hj. rewrite !mget_mtab by assumption.
  assert (E : big n (fun k => vget dx k * vget H_tmp k * vget dx i * vget dx j)
              == big n (fun k => vget dx k * vget H_tmp k * vget dx j * vget dx i)).
  { apply big_ext. intros k _. ring. }
  rewrite E. unfold Qdiv. ring.
Qed.

Lemma hessian_setter_table (n : nat) (f : nat -> nat -> Q) (e : QuasiNewtonInteractive) :
  exists h,
    hessian_setter (flatten (mtab n n f)) e = (Ok tt, set_hessian_raw h e) /\
    square n h /\
    forall i j, (i < n)%nat -> (j < n)%nat -> mget h i j = f i j.
Proof.
  destruct (reshape_flatten_mtab n f) as (h & Hr & Hs & Hg).
  exists h. split; [|split; assumption].
  unfold hessian_setter. run.
  rewrite (length_flatten_rows n) by apply rows_mtab.
  fold (nrows (mtab n n f)). rewrite nrows_mtab, Nat.sqrt_square, Hr.
  reflexivity.
Qed.

(** One update in mode [PSB] on a seeded engine. *)
Lemma update_hessian_PSB_symmetric (n : nat) (e : QuasiNewtonInteractive)
      (g go : vec) (d : mat) (threshold : Q) :
  square n (_hessian e) -> symmetric n (_hessian e) ->
  g_old e = Some go -> dx e = Some d ->
  length (flatten d) = n -> length g = n ->
  exists h,
    update_hessian g threshold "PSB" e = (Ok tt, set_g_old g (set_hessian_raw h e)) /\
    square n h /\ symmetric n h.
Proof.
  intros Hsq Hsym Hgo Hdx Hd Hg.
  set (H_tmp := vsub (vsub g go) (matvec (_hessian e) (flatten d))).
  assert (Hh : length H_tmp = n)
    by (unfold H_tmp; rewrite !length_vsub; exact Hg).
  destruct (_get_PSB_symmetric n (flatten d) (vsub g go) H_tmp Hd Hh) as [[Pr Pc] Ps].
  assert (Pn : ncols (_get_PSB (flatten d) (vsub g go) H_tmp) = n)
    by (apply square_ncols; split; assumption).
  destruct (hessian_setter_table n
              (fun i j => mget (_get_PSB (flatten d) (vsub g go) H_tmp) i j
                          + mget (_hessian e) i j) e) as (h & Hset & Hq & Hget).
  exists h. split; [|split; [exact Hq|]].
  - unfold update_hessian, get_dg, hessian. run. rewrite Hgo. cbn. rewrite Hgo, Hdx. cbn.
    fold H_tmp. unfold madd. rewrite Pr, Pn, Hset. reflexivity.
  - intros i j Hi Hj. rewrite !Hget by assumption.
    rewrite (Ps i j Hi Hj), (Hsym i j Hi Hj). reflexivity.
Qed.

(** C5: the increment of [_get_PSB] is a symmetric matrix, and a Hessian that
    is symmetric stays symmetric through any number of successive updates in
    mode [PSB], whatever the gradients and the (nonzero) displacements taken
    in between. *)
Theorem PSB_keeps_hessian_symmetric (n : nat) (e : QuasiNewtonInteractive)
        (steps : list (mat * vec)) :
  square n (_hessian e) -> symmetric n (_hessian e) ->
  (g_old e = None \/
   exists d, dx e = Some d /\ length (flatten d) = n /\
             ~ dot (flatten d) (flatten d) == 0) ->
  (forall d g, In (d, g) steps ->
     length (flatten d) = n /\ length g = n /\ ~ dot (flatten d) (flatten d) == 0) ->
  (forall dx dg H_tmp, length dx = n -> length H_tmp = n -> ~ dot dx dx == 0 ->
     symmetric n (_get_PSB dx dg H_tmp)) /\
  exists e',
    psb_updates steps e = (Ok tt, e') /\
    square n (_hessian e') /\ symmetric n (_hessian e').
Proof.
  intros Hsq Hsym Hstate Hsteps.
  split; [intros dx0 dg H_tmp Hd Hh _; apply (_get_PSB_symmetric n); assumption|].
  revert e Hsq Hsym Hstate.
  induction steps as [|[d g] rest IH]; intros e Hsq Hsym Hstate.
  - exists e. cbn. unfold ret. auto.
  - destruct (Hsteps d g (or_introl eq_refl)) as (Hd & Hg & Hnz).
    assert (Hrest : forall d' g', In (d', g') rest ->
              length (flatten d') = n /\ length g' = n /\
              ~ dot (flatten d') (flatten d') == 0)
      by (intros; apply Hsteps; right; assumption).
    destruct Hstate as [Hnone | (d0 & Hd0 & Hl0 & _)].
    + destruct (IH Hrest (set_dx d (set_g_old g e))) as (e' & He' & Hq' & Hs');
        [exact Hsq | exact Hsym | right; exists d; cbn; auto |].
      exists e'. split; [|split; assumption].
      cbn [psb_updates]. unfold bind at 1.
      rewrite (update_hessian_unseeded e g default_threshold "PSB" Hnone).
      exact He'.
    + destruct (g_old e) as [go|] eqn:Hgo.
      * destruct (update_hessian_PSB_symmetric n e g go d0 default_threshold
                    Hsq Hsym Hgo Hd0 Hl0 Hg) as (h & Hup & Hq & Hs).
        destruct (IH Hrest (set_dx d (set_g_old g (set_hessian_raw h e))))
          as (e' & He' & Hq' & Hs');
          [exact Hq | exact Hs | right; exists d; cbn; auto |].
        exists e'. split; [|split; assumption].
        cbn [psb_updates]. unfold bind at 1. rewrite Hup. exact He'.
      * destruct (IH Hrest (set_dx d (set_g_old g e))) as (e' & He' & Hq' & Hs');
          [exact Hsq | exact Hsym | right; exists d; cbn; auto |].
        exists e'. split; [|split; assumption].
        cbn [psb_updates]. unfold bind at 1.
        rewrite (update_hessian_unseeded e g default_threshold "PSB" Hgo).
        exact He'.
Qed.

Ltac small_index i :=
  destruct i as [|[|[|i]]]; try lia.

Lemma PSB_keeps_hessian_symmetric_witness :
  exists e',
    psb_updates two_steps fresh_engine = (Ok tt, e') /\
    square 3 (_hessian e') /\ symmetric 3 (_hessian e').
Proof.
  apply (PSB_keeps_hessian_symmetric 3 fresh_engine two_steps).
  - split; [reflexivity|].
    intros row [<-|[<-|[<-|[]]]]; reflexivity.
  - intros i j Hi Hj. small_index i; small_index j; reflexivity.
  - left. reflexivity.
  - intros d g [H|[H|[]]]; inversion H; subst;
      (split; [reflexivity | split; [reflexivity | intros E; vm_compute in E; discriminate E]]).
Defined.

(** ** Inversion through the spectrum *)

Lemma big_S (n : nat) (f : nat -> Q) : big (S n) f == big n f + f n.
Proof.
  unfold big, vtab, sumQ. rewrite seq_S, map_app. cbn [Nat.add map].
  induction (map f (seq 0 n)) as [|a l IH]; cbn [app fold_right]; [ring|].
  rewrite IH. ring.
Qed.

Lemma big_zero (n : nat) (f : nat -> Q) :
  (forall i, (i < n)%nat -> f i == 0) -> big n f == 0.
Proof.
  induction n as [|n IH]; intros H; [reflexivity|].
  rewrite big_S, IH, H by auto with arith. ring.
Qed.

(** A sum with one term that counts. *)
Lemma big_single (n i : nat) (f : nat -> Q) :
  (i < n)%nat -> (forall j, (j < n)%nat -> j <> i -> f j == 0) -> big n f == f i.
Proof.
  revert i. induction n as [|n IH]; intros i Hi H; [lia|].
  rewrite big_S. destruct (Nat.eq_dec i n) as [->|Hne].
  - rewrite big_zero; [ring|]. intros j Hj. apply H; lia.
  - rewrite (IH i) by (try lia; intros j Hj Hji; apply H; lia).
    rewrite (H n) by lia. ring.
Qed.

Lemma vget_map (f : Q -> Q) (w : vec) (k : nat) :
  (k < length w)%nat -> vget (map f w) k = f (vget w k).
Proof.
  intros H. unfold vget.
  rewrite (nth_indep _ 0 (f 0)) by (rewrite length_map; exact H).
  apply map_nth.
Qed.

(** What [__init__] leaves in eigen-mode without a diffusion bias: the caches
    empty, no previous gradient, and the square of [regularization]. *)
Lemma init_eigen_fields (linalg_norm : vec -> Q) (s : Structure) (starting_h : seed)
      (r : Q) (symmetrize : bool) (e : QuasiNewtonInteractive) :
  __init__ linalg_norm s starting_h None true None r symmetrize = Ok e ->
  use_eigenvalues e = true /\ regularization e = r ^ 2 /\
  _eigenvalues e = None /\ _eigenvectors e = None /\ g_old e = None.
Proof.
  unfold __init__, _initialize_hessian.
  set (self := {| use_eigenvalues := true; _hessian := [] ; _eigenvalues := None;
                  _eigenvectors := None; g_old := None;
                  symmetry := if symmetrize then Some (get_symmetry s) else None;
                  regularization := 0; dx := None |}).
  unfold bind at 1. unfold bind at 1.
  match goal with
  | |- context [match ?m self with _ => _ end] => destruct (m self) as [[[]|x] e0] eqn:E
  end.
  - assert (exists h, e0 = set_hessian_raw h self) as [h ->].
    { destruct starting_h as [k|data].
      - destruct (Nat.eqb 1 _);
          apply hessian_setter_outcome in E;
          destruct E as [(h & _ & ->)|(x & Hx & _)]; try discriminate; eauto.
      - destruct (Nat.eqb (length data) _).
        + apply hessian_setter_outcome in E;
            destruct E as [(h & _ & ->)|(x & Hx & _)]; try discriminate; eauto.
        + discriminate. }
    run. cbn. destruct (Qeq_bool _ 0); intros H; inversion H; subst.
    cbn. repeat split.
  - discriminate.
Qed.

(** C4, as the code has it: in eigen-mode the constant given to the
    constructor is squared before it is stored, so on a diagonal Hessian with
    entries [lam i], and for whatever eigen-decomposition [eigh] answers
    (orthonormal vectors [V] with [H V = V diag(w)]), [inv_hessian] is the
    diagonal matrix with entries [lam i / (lam i ^ 2 + r ^ 2)]. *)
Theorem inv_hessian_eigen_diagonal
        (linalg_inv : mat -> option mat) (linalg_eigh : mat -> vec * mat)
        (linalg_norm : vec -> Q)
        (s : Structure) (starting_h : seed) (r : Q) (symmetrize : bool)
        (e : QuasiNewtonInteractive) (n : nat) (lam w : vec) (V : mat) :
  0 < r ->
  __init__ linalg_norm s starting_h None true None r symmetrize = Ok e ->
  (forall i j, (i < n)%nat -> (j < n)%nat ->
     mget (_hessian e) i j == if Nat.eqb i j then vget lam i else 0) ->
  linalg_eigh (_hessian e) = (w, V) ->
  length w = n -> nrows V = n ->
  (forall i j, (i < n)%nat -> (j < n)%nat ->
     big n (fun k => mget V i k * mget V j k) == kron i j) ->
  (forall i k, (i < n)%nat -> (k < n)%nat ->
     big n (fun j => mget (_hessian e) i j * mget V j k) == mget V i k * vget w k) ->
  regularization e = r ^ 2 /\
  exists invH e1,
    inv_hessian linalg_inv linalg_eigh e = (Ok invH, e1) /\
    nrows invH = n /\
    forall i j, (i < n)%nat -> (j < n)%nat ->
      mget invH i j
      == if Nat.eqb i j then vget lam i / (vget lam i ^ 2 + r ^ 2) else 0.
Proof.
  intros Hr Hinit Hdiag Heigh Hw HV Horth Heq.
  destruct (init_eigen_fields _ _ _ _ _ _ Hinit) as (Hu & Hreg & Hc1 & Hc2 & _).
  split; [exact Hreg|].
  assert (Hpos : Qlt_bool 0 (regularization e) = true).
  { apply Qlt_bool_iff. rewrite Hreg. cbn. nra. }
  set (f := fun x : Q => x / (x ^ 2 + regularization e)).
  exists (einsum_ik_k_jk V (damped w (regularization e)) V), (set_eig w V e).
  split; [|split].
  - unfold inv_hessian, eigenvectors, eigenvalues, _calc_eig, hessian. run.
    rewrite Hpos, Hu, Hc2. cbn. rewrite Heigh. reflexivity.
  - unfold einsum_ik_k_jk. rewrite nrows_mtab. exact HV.
  - intros i j Hi Hj. unfold einsum_ik_k_jk, damped.
    rewrite HV, length_map, Hw, mget_mtab by assumption.
    (* one mode at a time *)
    assert (Hmode : forall k, (k < n)%nat ->
              mget V i k * f (vget w k) == f (vget lam i) * mget V i k).
    { intros k Hk.
      assert (Hc : vget lam i * mget V i k == mget V i k * vget w k).
      { rewrite <- (Heq i k Hi Hk).
        pose proof (big_single n i (fun j => mget (_hessian e) i j * mget V j k) Hi) as Hs.
        cbv beta in Hs. rewrite Hs.
        - rewrite (Hdiag i i Hi Hi), Nat.eqb_refl. reflexivity.
        - intros j' Hj' Hne. rewrite (Hdiag i j' Hi Hj').
          destruct (Nat.eqb_spec i j'); [congruence | ring]. }
      destruct (Qeq_dec (mget V i k) 0) as [Hz|Hnz].
      - rewrite Hz. ring.
      - assert (Hwk : vget w k == vget lam i).
        { assert (Hm : (vget w k - vget lam i) * mget V i k == 0).
          { setoid_replace ((vget w k - vget lam i) * mget V i k)
              with (mget V i k * vget w k - vget lam i * mget V i k) by ring.
            rewrite Hc. ring. }
          destruct (Qmult_integral _ _ Hm); [lra | contradiction]. }
        unfold f. rewrite Hwk. ring. }
    rewrite (big_ext n _ (fun k => f (vget lam i) * (mget V i k * mget V j k))).
    + rewrite big_scale, (Horth i j Hi Hj). unfold kron, f. rewrite Hreg.
      destruct (Nat.eqb i j); ring.
    + intros k Hk. rewrite vget_map by (rewrite Hw; exact Hk).
      fold (f (vget w k)). rewrite (Hmode k Hk). ring.
Qed.

Lemma inv_hessian_eigen_diagonal_witness :
  exists e invH e1,
    __init__ norm_unused one_atom (Array diag123) None true None 2 true = Ok e /\
    regularization e = 2 ^ 2 /\
    inv_hessian inv_unused eigh_diag e = (Ok invH, e1) /\
    forall i j, (i < 3)%nat -> (j < 3)%nat ->
      mget invH i j
      == if Nat.eqb i j
         then vget [1; 2; 3] i / (vget [1; 2; 3] i ^ 2 + 2 ^ 2) else 0.
Proof.
  pose proof (fun e w V =>
                inv_hessian_eigen_diagonal inv_unused eigh_diag norm_unused
                  one_atom (Array diag123) 2 true e 3 [1; 2; 3] w V eq_refl) as H.
  edestruct H as (Hreg & invH & e1 & Hinv & _ & Hent).
  - vm_compute. reflexivity.
  - intros i j Hi Hj. small_index i; small_index j; reflexivity.
  - vm_compute. reflexivity.
  - reflexivity.
  - reflexivity.
  - intros i j Hi Hj. small_index i; small_index j; reflexivity.
  - intros i k Hi Hk. small_index i; small_index k; reflexivity.
  - eexists; exists invH, e1.
    split; [reflexivity | split; [exact Hreg | split; [exact Hinv | exact Hent]]].
Defined.

(** C4 as stated fails: with [regularization = 2] given to the constructor
    and the Hessian [I], the eigenvalue [1] is inverted to [1/(1 + 4)], not to
    [1/(1 + 2)]. *)
Lemma inv_hessian_eigen_uses_square :
  exists e invH e1,
    __init__ norm_unused one_atom (Scalar 1) None true None 2 true = Ok e /\
    inv_hessian inv_unused eigh_diag e = (Ok invH, e1) /\
    mget invH 0 0 == 1 # 5 /\
    ~ mget invH 0 0 == 1 / (1 ^ 2 + 2).
Proof.
  eexists; eexists; eexists.
  split; [vm_compute; reflexivity|].
  split; [vm_compute; reflexivity|].
  split; [reflexivity|].
  intros H. vm_compute in H. discriminate H.
Qed.

(** ** Displacements under the identity alone *)

Module GenerateFacts.
Import Hessian.

Lemma sort_by_sorted_pairs (a b n : nat) :
  sort_by (fun p q : nat * nat => Nat.leb (fst p) (fst q)) (combine (seq a n) (seq b n))
  = combine (seq a n) (seq b n).
Proof.
  revert a b. induction n as [|n IH]; intros a b; [reflexivity|].
  cbn [seq combine]. unfold sort_by in *. cbn [fold_right]. rewrite IH.
  destruct n as [|n]; [reflexivity|].
  cbn [seq combine insert_by fst].
  replace (Nat.leb a (S a)) with true by (symmetry; apply Nat.leb_le; lia).
  reflexivity.
Qed.

Lemma map_snd_combine_seq (a b n : nat) :
  map snd (combine (seq a n) (seq b n)) = seq b n.
Proof.
  revert a b. induction n as [|n IH]; intros a b; [reflexivity|].
  cbn. rewrite IH. reflexivity.
Qed.

Lemma argsort_seq (n : nat) : argsort (seq 0 n) = seq 0 n.
Proof.
  unfold argsort. rewrite length_seq, sort_by_sorted_pairs.
  apply map_snd_combine_seq.
Qed.

Lemma map_nth_seq {A : Type} (l : list A) (d : A) :
  map (fun i => nth i l d) (seq 0 (length l)) = l.
Proof.
  induction l as [|x l IH]; [reflexivity|].
  cbn [length seq map nth]. f_equal.
  rewrite <- seq_shift, map_map. exact IH.
Qed.

(** Under the identity a field has one image: itself, each vector rotated
    by the unit matrix. *)
Lemma _get_equivalent_vector_identity (h : t) (N : nat) (v : mat) :
  rotations (symmetry h) = [eye 3] ->
  indices h = [seq 0 N] ->
  length v = N ->
  _get_equivalent_vector h v None = Ok ([map (matvec (eye 3)) v], [0%nat]).
Proof.
  intros Hr Hi Hv. unfold _get_equivalent_vector.
  rewrite Hr, Hi. cbn [map combine fst snd].
  rewrite argsort_seq. rewrite <- Hv, map_nth_seq. reflexivity.
Qed.

Lemma matvec_eye3 (r : vec) (c : nat) :
  length r = 3%nat -> (c < 3)%nat ->
  length (matvec (eye 3) r) = 3%nat /\ vget (matvec (eye 3) r) c == vget r c.
Proof.
  intros Hr Hc.
  destruct r as [|x [|y [|z [|]]]]; try discriminate.
  split; [reflexivity|].
  small_index c; unfold matvec, big, vget, mget, sumQ; cbn; ring.
Qed.

Lemma isclose_zero (x : Q) : isclose x 0 = true <-> Qabs x <= atol.
Proof.
  unfold isclose. rewrite Qle_bool_iff.
  assert (E1 : x - 0 == x) by ring.
  assert (E2 : atol + rtol * Qabs 0 == atol) by (cbn; ring).
  rewrite E1, E2. reflexivity.
Qed.

Lemma isclose_zero_eq (x : Q) : x == 0 -> isclose x 0 = true.
Proof.
  intros H. apply isclose_zero. rewrite H. cbn. unfold atol. lra.
Qed.

Lemma isclose_zero_far (x y : Q) : x == Qabs y -> atol < Qabs y -> isclose x 0 = false.
Proof.
  intros H Hy. destruct (isclose x 0) eqn:E; [|reflexivity].
  apply isclose_zero in E. rewrite H, Qabs_pos in E by apply Qabs_nonneg. lra.
Qed.

Lemma find_first (p : nat -> bool) (a n k : nat) :
  (k < n)%nat -> p (a + k)%nat = true ->
  (forall k', (k' < k)%nat -> p (a + k')%nat = false) ->
  find p (seq a n) = Some (a + k)%nat.
Proof.
  revert a k. induction n as [|n IH]; intros a k Hk Hp Hq; [lia|].
  cbn [seq find]. destruct k as [|k].
  - rewrite Nat.add_0_r in *. rewrite Hp. reflexivity.
  - rewrite <- (Nat.add_0_r a) at 1. rewrite (Hq 0%nat) by lia.
    replace (a + S k)%nat with (S a + k)%nat in * by lia.
    apply IH; [lia | exact Hp |].
    intros k' Hk'. replace (S a + k')%nat with (a + S k')%nat by lia.
    apply Hq. lia.
Qed.

Lemma existsb_mtab (p : Q -> bool) (n m a b : nat) (f : nat -> nat -> Q) :
  (a < n)%nat -> (b < m)%nat -> p (f a b) = true ->
  existsb (existsb p) (mtab n m f) = true.
Proof.
  intros Ha Hb Hp. apply existsb_exists.
  exists (vtab m (f a)). split.
  - unfold mtab. apply in_map_iff. exists a. split; [reflexivity|].
    apply in_seq. lia.
  - apply existsb_exists. exists (f a b). split; [|exact Hp].
    unfold vtab. apply in_map_iff. exists b. split; [reflexivity|].
    apply in_seq. lia.
Qed.

Lemma index_split (k a b : nat) :
  (b < 3)%nat -> ((a = k / 3 /\ b = k mod 3) <-> 3 * a + b = k)%nat.
Proof.
  intros Hb. split.
  - intros [-> ->]. symmetry. apply Nat.div_mod_eq.
  - intros <-. split.
    + apply (Nat.div_unique _ 3 a b); lia.
    + apply (Nat.mod_unique _ 3 a b); lia.
Qed.

Lemma index_eqb (k a b : nat) :
  (b < 3)%nat ->
  Nat.eqb a (k / 3) && Nat.eqb b (k mod 3) = Nat.eqb (3 * a + b) k.
Proof.
  intros Hb. pose proof (index_split k a b Hb) as H.
  destruct (Nat.eqb_spec (3 * a + b) k) as [E|E].
  - apply H in E. destruct E as [-> ->]. rewrite !Nat.eqb_refl. reflexivity.
  - destruct (Nat.eqb_spec a (k / 3)); destruct (Nat.eqb_spec b (k mod 3));
      try reflexivity. exfalso. apply E. apply H. auto.
Qed.


Section IdentityOnly.

Variable s : Structure.
Variable N : nat.
Variable dx0 : Q.

Hypothesis only_identity : rotations (get_symmetry s) = [eye 3].
Hypothesis identity_indices : indices (__init__ s dx0) = [seq 0 N].
Hypothesis dx_above_tolerance : atol < Qabs dx0.

Let h : t := __init__ s dx0.

Lemma ncols_mtab3 (F : nat -> nat -> Q) : (0 < N)%nat -> ncols (mtab N 3 F) = 3%nat.
Proof. intros H. rewrite ncols_mtab. destruct N; [lia | reflexivity]. Qed.

Lemma rotated_onehot (k : nat) :
  exists G, map (matvec (eye 3)) (onehot N 3 (k / 3) (k mod 3) dx0) = mtab N 3 G /\
            unit_field N dx0 k G.
Proof.
  set (D := fun r c => if Nat.eqb r (k / 3) && Nat.eqb c (k mod 3) then dx0 else 0).
  exists (fun a b => vget (matvec (eye 3) (vtab 3 (D a))) b). split.
  - unfold onehot, mtab. rewrite map_map. apply map_ext. intros a.
    fold D. unfold matvec at 1. unfold vtab at 1.
    change (nrows (eye 3)) with 3%nat.
    apply map_ext_in. intros b Hb. apply in_seq in Hb.
    unfold matvec. change (nrows (eye 3)) with 3%nat.
    rewrite vget_vtab by lia. reflexivity.
  - intros a b Ha Hb.
    destruct (matvec_eye3 (vtab 3 (D a)) b (length_vtab 3 (D a)) Hb) as [_ ->].
    rewrite vget_vtab by exact Hb. unfold D.
    rewrite index_eqb by exact Hb. reflexivity.
Qed.

Lemma loop_step (c k : nat) (st : gen_state) :
  loop_inv N dx0 k st -> (k < 3 * N)%nat ->
  exists st', generate_loop h (S c) st = generate_loop h c st' /\ loop_inv N dx0 (S k) st'.
Proof.
  intros ((F & Hall & Hcov) & Hraw & Hlen & Hineq & Hids) Hk.
  unfold covered in Hcov.
  assert (HN : (0 < N)%nat) by lia.
  assert (Hq : (k / 3 < N)%nat) by (apply Nat.Div0.div_lt_upper_bound; lia).
  assert (Hm : (k mod 3 < 3)%nat) by (apply Nat.mod_upper_bound; lia).
  assert (Hat : forall k', (k' < 3 * N)%nat ->
            mget (mtab N 3 F) (k' / 3) (k' mod 3)
            == if Nat.ltb k' k then Qabs dx0 else 0).
  { intros k' Hk'.
    assert ((k' / 3 < N)%nat) by (apply Nat.Div0.div_lt_upper_bound; lia).
    assert ((k' mod 3 < 3)%nat) by (apply Nat.mod_upper_bound; lia).
    rewrite mget_mtab, Hcov by assumption.
    rewrite <- (Nat.div_mod_eq k' 3). reflexivity. }
  (* the test of the loop *)
  assert (Hany : existsb (existsb (fun x => isclose x 0)) (all_displacements st) = true).
  { rewrite Hall. apply (existsb_mtab _ N 3 (k / 3) (k mod 3)); try assumption.
    apply isclose_zero_eq. rewrite <- (mget_mtab N 3 (k / 3) (k mod 3) F) by assumption.
    rewrite (Hat k Hk), Nat.ltb_irrefl. reflexivity. }
  (* the next displacement *)
  assert (Hnext : _get_next_displacement h (all_displacements st)
                  = Ok (onehot N 3 (k / 3) (k mod 3) dx0)).
  { unfold _get_next_displacement, where_first. rewrite Hall.
    rewrite nrows_mtab, ncols_mtab3 by exact HN.
    rewrite (find_first _ 0 (N * 3) k).
    2: lia.
    2: { cbn [Nat.add]. apply isclose_zero_eq.
         rewrite (Hat k Hk), Nat.ltb_irrefl. reflexivity. }
    2: { intros k' Hk'. cbn [Nat.add].
         apply (isclose_zero_far _ dx0); [|exact dx_above_tolerance].
         rewrite (Hat k') by lia.
         replace (Nat.ltb k' k) with true by (symmetry; apply Nat.ltb_lt; exact Hk').
         reflexivity. }
    cbn [Nat.add]. f_equal.
    unfold set_entry, zeros_like, onehot.
    repeat rewrite ?nrows_mtab, ?ncols_mtab3 by exact HN.
    apply mtab_ext. intros r c' Hr Hc'.
    rewrite mget_mtab by assumption. reflexivity. }
  destruct (rotated_onehot k) as (G & HG & HGu).
  pose proof HGu as HGu'. unfold unit_field in HGu'.
  set (d := onehot N 3 (k / 3) (k mod 3) dx0) in *.
  exists {| all_displacements := add_abs_sum (all_displacements st) [map (matvec (eye 3)) d];
            raw := raw st ++ [d];
            inequivalent := inequivalent st ++ [map (matvec (eye 3)) d];
            ids := ids st ++ [[0%nat]] |}.
  split.
  - cbn [generate_loop]. rewrite Hany. cbn [negb]. rewrite Hnext.
    rewrite (_get_equivalent_vector_identity h N)
      by (try exact only_identity; try exact identity_indices;
          apply nrows_mtab).
    reflexivity.
  - unfold loop_inv. cbn [all_displacements raw inequivalent ids].
    split; [|split; [|split; [|split]]].
    + eexists. split.
      * unfold add_abs_sum. rewrite Hall, nrows_mtab, ncols_mtab3 by exact HN.
        reflexivity.
      * intros a b Ha Hb. cbn [map sumQ fold_right].
        rewrite HG, !mget_mtab, (Hcov a b Ha Hb), (HGu' a b Ha Hb) by assumption.
        destruct (Nat.eqb_spec (3 * a + b) k) as [E|E].
        -- replace (Nat.ltb (3 * a + b) k) with false
             by (symmetry; apply Nat.ltb_ge; lia).
           replace (Nat.ltb (3 * a + b) (S k)) with true
             by (symmetry; apply Nat.ltb_lt; lia).
           ring.
        -- destruct (Nat.ltb_spec (3 * a + b) k) as [L|L].
           ++ replace (Nat.ltb (3 * a + b) (S k)) with true
                by (symmetry; apply Nat.ltb_lt; lia).
              cbn. ring.
           ++ replace (Nat.ltb (3 * a + b) (S k)) with false
                by (symmetry; apply Nat.ltb_ge; lia).
              cbn. ring.
    + rewrite Hraw, seq_S, map_app. reflexivity.
    + rewrite length_app, Hlen. cbn. lia.
    + intros m Hm'. destruct (Nat.eq_dec m k) as [->|Hne].
      * rewrite app_nth2 by lia. rewrite Hlen, Nat.sub_diag. cbn [nth].
        exists G. split; assumption.
      * rewrite app_nth1 by lia. apply Hineq. lia.
    + rewrite Hids. symmetry. apply (repeat_cons k [0%nat]).
Qed.

Lemma loop_runs (c k : nat) (st : gen_state) :
  loop_inv N dx0 k st -> (k + c = 3 * N)%nat ->
  exists st', generate_loop h c st = Ok st' /\ loop_inv N dx0 (3 * N) st'.
Proof.
  revert k st. induction c as [|c IH]; intros k st Hinv Hk.
  - exists st. split; [reflexivity|].
    replace (3 * N)%nat with k by lia. exact Hinv.
  - destruct (loop_step c k st Hinv) as (st1 & Hstep & Hinv1); [lia|].
    destruct (IH (S k) st1 Hinv1) as (st' & Hrun & Hinv'); [lia|].
    exists st'. split; [rewrite Hstep; exact Hrun | exact Hinv'].
Qed.

End IdentityOnly.

End GenerateFacts.

(** C8, as the code has it: when the identity is the only symmetry operation
    and the step [dx] exceeds in absolute value the tolerance [1e-8] under
    which [np.isclose] takes an entry for zero, a structure of [N >= 1] atoms
    gets exactly [3N] probes, one per atom-direction, atoms in order and then
    x, y, z; probe [k] is [dx] at entry [k] (row-major) and zero elsewhere,
    and so is, entry by entry, its row among the independent displacements. *)
Theorem generate_displacements_identity (s : Structure) (N : nat) (dx0 : Q) :
  (0 < N)%nat ->
  nrows (positions s) = N ->
  (forall row, In row (positions s) -> length row = 3%nat) ->
  rotations (get_symmetry s) = [eye 3] ->
  indices (get_symmetry s) = [seq 0 N] ->
  Hessian.atol < Qabs dx0 ->
  exists h',
    Hessian.displacements (Hessian.__init__ s dx0) = (Ok (probes N dx0), h') /\
    Hessian._displacements h' = probes N dx0 /\
    length (probes N dx0) = (3 * N)%nat /\
    (forall k a b, (k < 3 * N)%nat -> (a < N)%nat -> (b < 3)%nat ->
       mget (nth k (probes N dx0) []) a b
       = if Nat.eqb (3 * a + b) k then dx0 else 0) /\
    length (Hessian._inequivalent_displacements h') = (3 * N)%nat /\
    (forall k c, (k < 3 * N)%nat -> (c < 3 * N)%nat ->
       vget (nth k (Hessian._inequivalent_displacements h') []) c
       == if Nat.eqb c k then dx0 else 0) /\
    Hessian._inequivalent_ids h' = repeat [0%nat] (3 * N).
Proof.
  intros HN Hrows Hcols Hrot Hind Hdx.
  assert (Hnc : ncols (positions s) = 3%nat).
  { unfold ncols, nrows in *. destruct (positions s) as [|r p]; [cbn in Hrows; lia|].
    apply Hcols. left. reflexivity. }
  set (init := {| Hessian.all_displacements := zeros_like (positions s);
                  Hessian.raw := []; Hessian.inequivalent := []; Hessian.ids := [] |}).
  assert (Hinit : loop_inv N dx0 0 init).
  { unfold loop_inv, init. cbn.
    split; [|repeat split; intros; lia].
    exists (fun _ _ => 0). split.
    - unfold zeros_like. rewrite Hrows, Hnc. reflexivity.
    - intros a b _ _. reflexivity. }
  destruct (GenerateFacts.loop_runs s N dx0 Hrot Hind Hdx (3 * N) 0 init Hinit)
    as (st & Hrun & (_ & Hraw & Hlen & Hineq & Hids)); [lia|].
  assert (Hcount : length (flatten (zeros_like (positions s))) = (3 * N)%nat).
  { unfold zeros_like. rewrite Hrows, Hnc.
    rewrite (length_flatten_rows 3) by apply rows_mtab.
    fold (nrows (mtab N 3 (fun _ _ => 0))).
    rewrite nrows_mtab. lia. }
  destruct (Hessian.inequivalent st) as [|f0 rest] eqn:Est; [cbn in Hlen; lia|].
  exists (Hessian.set_generated st (map flatten (f0 :: rest)) (Hessian.__init__ s dx0)).
  split; [|split; [|split; [|split; [|split; [|split]]]]].
  - unfold Hessian.displacements, Hessian._generate_displacements. run. cbn.
    fold init. rewrite Hcount, Hrun. cbn. rewrite Est. cbn. rewrite Hraw. reflexivity.
  - cbn. exact Hraw.
  - unfold probes. rewrite length_map, length_seq. reflexivity.
  - intros k a b Hk Ha Hb. unfold probes.
    rewrite (nth_tab (3 * N) k (fun m => onehot N 3 (m / 3) (m mod 3) dx0) ([] : mat))
      by exact Hk.
    unfold onehot. rewrite mget_mtab by assumption.
    rewrite GenerateFacts.index_eqb by exact Hb. reflexivity.
  - cbn [Hessian._inequivalent_displacements Hessian.set_generated].
    rewrite length_map. exact Hlen.
  - intros k c Hk Hc.
    cbn [Hessian._inequivalent_displacements Hessian.set_generated].
    change [] with (flatten []) at 1. rewrite map_nth.
    destruct (Hineq k Hk) as (G & -> & HG).
    assert (Hq : (c / 3 < N)%nat) by (apply Nat.Div0.div_lt_upper_bound; lia).
    assert (Hm : (c mod 3 < 3)%nat) by (apply Nat.mod_upper_bound; lia).
    unfold vget. rewrite (Nat.div_mod_eq c 3) at 1.
    rewrite (Nat.mul_comm 3 (c / 3)).
    rewrite (nth_flatten_rows 3) by
      (try apply rows_mtab; try exact Hm;
       fold (nrows (mtab N 3 G)); rewrite nrows_mtab; exact Hq).
    fold (mget (mtab N 3 G) (c / 3) (c mod 3)).
    rewrite mget_mtab, (HG _ _ Hq Hm) by assumption.
    rewrite <- (Nat.div_mod_eq c 3). reflexivity.
  - cbn. exact Hids.
Qed.

Lemma generate_displacements_identity_witness :
  exists h',
    Hessian.displacements (Hessian.__init__ two_atoms (1 # 100))
    = (Ok (probes 2 (1 # 100)), h') /\
    Hessian._displacements h' = probes 2 (1 # 100) /\
    length (probes 2 (1 # 100)) = (3 * 2)%nat /\
    (forall k a b, (k < 3 * 2)%nat -> (a < 2)%nat -> (b < 3)%nat ->
       mget (nth k (probes 2 (1 # 100)) []) a b
       = if Nat.eqb (3 * a + b) k then 1 # 100 else 0) /\
    length (Hessian._inequivalent_displacements h') = (3 * 2)%nat /\
    (forall k c, (k < 3 * 2)%nat -> (c < 3 * 2)%nat ->
       vget (nth k (Hessian._inequivalent_displacements h') []) c
       == if Nat.eqb c k then 1 # 100 else 0) /\
    Hessian._inequivalent_ids h' = repeat [0%nat] (3 * 2).
Proof.
  apply (generate_displacements_identity two_atoms 2 (1 # 100)).
  - lia.
  - reflexivity.
  - intros row [<-|[<-|[]]]; reflexivity.
  - reflexivity.
  - reflexivity.
  - reflexivity.
Defined.

(** C8 as stated fails for a step within the tolerance of [np.isclose]: with
    [dx = 1e-9] and one atom, the entry just probed still counts as zero, so
    the three probes are all along x; y and z are never probed. *)
Lemma generate_displacements_small_step :
  fst (Hessian.displacements (Hessian.__init__ one_atom (1 # 1000000000)))
  = Ok [[[1 # 1000000000; 0; 0]]; [[1 # 1000000000; 0; 0]]; [[1 # 1000000000; 0; 0]]] /\
  fst (Hessian.displacements (Hessian.__init__ one_atom (1 # 1000000000)))
  <> Ok (probes 1 (1 # 1000000000)).
Proof.
  split; [vm_compute; reflexivity|].
  intros H. vm_compute in H. discriminate H.
Qed.

(** * Further properties *)

(** ** The three updates and the secant equation *)

Lemma big_add (n : nat) (f g : nat -> Q) :
  big n (fun i => f i + g i) == big n f + big n g.
Proof.
  induction n as [|n IH]; [reflexivity|].
  rewrite !big_S, IH. ring.
Qed.

Lemma vget_matvec (A : mat) (x : vec) (i : nat) :
  (i < nrows A)%nat ->
  vget (matvec A x) i = big (length x) (fun j => mget A i j * vget x j).
Proof. intros H. unfold matvec. apply vget_vtab. exact H. Qed.

Lemma vget_vsub (a b : vec) (i : nat) :
  (i < length a)%nat -> vget (vsub a b) i = vget a i - vget b i.
Proof. intros H. unfold vsub. apply vget_vtab. exact H. Qed.

Lemma _get_SR_table (n : nat) (dx dg H_tmp : vec) (threshold : Q) :
  length H_tmp = n ->
  _get_SR dx dg H_tmp threshold
  = mtab n n (fun i j => vget H_tmp i * vget H_tmp j / SR_denominator dx H_tmp threshold).
Proof.
  intros Hh. unfold _get_SR, mdiv, outer. rewrite Hh.
  rewrite nrows_mtab, ncols_mtab_square.
  apply mtab_ext. intros i j Hi Hj. rewrite mget_mtab by assumption. reflexivity.
Qed.

Lemma _get_BFGS_table (n : nat) (dx dg H_tmp : vec) :
  length dg = n -> length H_tmp = n ->
  _get_BFGS dx dg H_tmp
  = mtab n n (fun i j => vget dg i * vget dg j / dot dg dx
                         - vget H_tmp i * vget H_tmp j / dot dx H_tmp).
Proof.
  intros Hg Hh. unfold _get_BFGS, msub, mdiv, outer. rewrite Hg, Hh.
  repeat rewrite ?nrows_mtab, ?ncols_mtab_square.
  apply mtab_ext. intros i j Hi Hj.
  repeat rewrite mget_mtab by assumption. reflexivity.
Qed.

(** A seeded engine takes the update of each known mode: the new Hessian is
    the increment plus the old one, entry by entry, and [g_old] moves on. *)
Lemma update_hessian_seeded (n : nat) (e : QuasiNewtonInteractive)
      (g go : vec) (d : mat) (threshold : Q) (mode : string) (inc : mat) :
  g_old e = Some go -> dx e = Some d ->
  length (flatten d) = n -> length g = n ->
  (mode = "SR"%string /\
   inc = _get_SR (flatten d) (vsub g go) (residual e g go d) default_threshold \/
   mode = "PSB"%string /\
   inc = _get_PSB (flatten d) (vsub g go) (residual e g go d) \/
   mode = "BFGS"%string /\
   inc = _get_BFGS (flatten d) (vsub g go) (residual e g go d)) ->
  exists h,
    update_hessian g threshold mode e = (Ok tt, set_g_old g (set_hessian_raw h e)) /\
    square n h /\
    forall i j, (i < n)%nat -> (j < n)%nat ->
      mget h i j = mget inc i j + mget (_hessian e) i j.
Proof.
  intros Hgo Hdx Hd Hg Hmode.
  assert (Hh : length (residual e g go d) = n)
    by (unfold residual; rewrite !length_vsub; exact Hg).
  assert (Hdg : length (vsub g go) = n) by (rewrite length_vsub; exact Hg).
  assert (Hshape : nrows inc = n /\ ncols inc = n).
  { destruct Hmode as [[_ ->]|[[_ ->]|[_ ->]]].
    - rewrite (_get_SR_table n) by assumption.
      split; [apply nrows_mtab | apply ncols_mtab_square].
    - rewrite (_get_PSB_table n) by assumption.
      split; [apply nrows_mtab | apply ncols_mtab_square].
    - rewrite (_get_BFGS_table n) by assumption.
      split; [apply nrows_mtab | apply ncols_mtab_square]. }
  destruct Hshape as [Hr Hc].
  destruct (hessian_setter_table n
              (fun i j => mget inc i j + mget (_hessian e) i j) e) as (h & Hset & Hq & Hget).
  exists h. split; [|split; assumption].
  unfold update_hessian, get_dg, hessian. run. rewrite Hgo. cbn. rewrite Hgo, Hdx. cbn.
  fold (residual e g go d).
  destruct Hmode as [[-> ->]|[[-> ->]|[-> ->]]]; cbn;
    unfold madd; rewrite Hr, Hc, Hset; reflexivity.
Qed.

(** The new Hessian applied to the last displacement: what the increment
    gives plus what the old Hessian gave. *)
Lemma updated_matvec (n : nat) (H h inc : mat) (x : vec) (i : nat) :
  nrows h = n -> length x = n -> (i < n)%nat ->
  (forall j, (j < n)%nat -> mget h i j = mget inc i j + mget H i j) ->
  vget (matvec h x) i
  == big n (fun j => mget inc i j * vget x j) + big n (fun j => mget H i j * vget x j).
Proof.
  intros Hn Hx Hi Hent.
  rewrite vget_matvec by (rewrite Hn; exact Hi). rewrite Hx.
  rewrite <- big_add. apply big_ext. intros j Hj. rewrite (Hent j Hj). ring.
Qed.

(** X1: In mode [PSB] the updated Hessian satisfies the secant equation: applied
    to the displacement just taken it gives the change of the gradient. *)
Theorem PSB_secant (n : nat) (e : QuasiNewtonInteractive) (g go : vec) (d : mat)
        (threshold : Q) :
  nrows (_hessian e) = n ->
  g_old e = Some go -> dx e = Some d ->
  length (flatten d) = n -> length g = n ->
  ~ dot (flatten d) (flatten d) == 0 ->
  exists h,
    update_hessian g threshold "PSB" e = (Ok tt, set_g_old g (set_hessian_raw h e)) /\
    forall i, (i < n)%nat ->
      vget (matvec h (flatten d)) i == vget g i - vget go i.
Proof.
  intros HH Hgo Hdx Hd Hg Hnz.
  destruct (update_hessian_seeded n e g go d threshold "PSB" _ Hgo Hdx Hd Hg
              (or_intror (or_introl (conj eq_refl eq_refl)))) as (h & Hup & [Hr _] & Hent).
  exists h. split; [exact Hup|]. intros i Hi.
  set (x := flatten d) in *. set (R := residual e g go d) in *.
  assert (HR : length R = n) by (unfold R, residual; rewrite !length_vsub; exact Hg).
  rewrite (updated_matvec n (_hessian e) h _ x i Hr Hd Hi (fun j Hj => Hent i j Hi Hj)).
  assert (HRi : vget R i == vget g i - vget go i
                            - big n (fun j => mget (_hessian e) i j * vget x j)).
  { unfold R, residual. rewrite !vget_vsub by (rewrite ?length_vsub; lia).
    rewrite vget_matvec by lia. fold x. rewrite Hd. reflexivity. }
  assert (Hinc : big n (fun j => mget (_get_PSB x (vsub g go) R) i j * vget x j) == vget R i).
  { rewrite (_get_PSB_table n) by assumption.
    set (c := dot x x) in *. set (T := big n (fun k => vget x k * vget R k)).
    rewrite (big_ext n _ (fun j =>
               (vget R i / c) * (vget x j * vget x j)
               + ((vget x i / c) * (vget x j * vget R j)
                  + (- (T * vget x i / c ^ 2)) * (vget x j * vget x j)))).
    - rewrite !big_add, !big_scale. fold T.
      assert (Hc : big n (fun j => vget x j * vget x j) == c)
        by (unfold c, dot; rewrite Hd; reflexivity).
      rewrite Hc. field. exact Hnz.
    - intros j Hj. rewrite mget_mtab by assumption.
      assert (E : big n (fun k => vget x k * vget R k * vget x i * vget x j)
                  == T * vget x i * vget x j).
      { rewrite (big_ext n (fun k => vget x k * vget R k * vget x i * vget x j)
                           (fun k => (vget x i * vget x j) * (vget x k * vget R k)))
          by (intros; ring).
        rewrite big_scale. fold T. ring. }
      rewrite E. field. exact Hnz. }
  rewrite Hinc, HRi. ring.
Qed.

Lemma PSB_secant_witness :
  exists h,
    update_hessian [2; 1; 0] default_threshold "PSB" seeded_engine
    = (Ok tt, set_g_old [2; 1; 0] (set_hessian_raw h seeded_engine)) /\
    forall i, (i < 3)%nat ->
      vget (matvec h (flatten [[-(1 # 2); 0; 0]])) i
      == vget [2; 1; 0] i - vget [1; 0; 0] i.
Proof.
  apply (PSB_secant 3 seeded_engine [2; 1; 0] [1; 0; 0] [[-(1 # 2); 0; 0]]
                    default_threshold);
    try reflexivity.
  intros E. vm_compute in E. discriminate E.
Defined.

Lemma dot_comm (a b : vec) : length a = length b -> dot a b == dot b a.
Proof.
  intros H. unfold dot. rewrite H. apply big_ext. intros; ring.
Qed.

(** X2: In mode [SR] the updated Hessian satisfies the secant equation whenever
    the denominator is not nudged, that is when [|H_tmp . dx|] is at least the
    default threshold [1e-4]; the [threshold] handed to [update_hessian] plays
    no part. *)
Theorem SR_secant (n : nat) (e : QuasiNewtonInteractive) (g go : vec) (d : mat)
        (threshold : Q) :
  nrows (_hessian e) = n ->
  g_old e = Some go -> dx e = Some d ->
  length (flatten d) = n -> length g = n ->
  default_threshold <= Qabs (dot (residual e g go d) (flatten d)) ->
  exists h,
    update_hessian g threshold "SR" e = (Ok tt, set_g_old g (set_hessian_raw h e)) /\
    forall i, (i < n)%nat ->
      vget (matvec h (flatten d)) i == vget g i - vget go i.
Proof.
  intros HH Hgo Hdx Hd Hg Hbig.
  destruct (update_hessian_seeded n e g go d threshold "SR" _ Hgo Hdx Hd Hg
              (or_introl (conj eq_refl eq_refl))) as (h & Hup & [Hr _] & Hent).
  exists h. split; [exact Hup|]. intros i Hi.
  set (x := flatten d) in *. set (R := residual e g go d) in *.
  assert (HR : length R = n) by (unfold R, residual; rewrite !length_vsub; exact Hg).
  rewrite (updated_matvec n (_hessian e) h _ x i Hr Hd Hi (fun j Hj => Hent i j Hi Hj)).
  assert (HRi : vget R i == vget g i - vget go i
                            - big n (fun j => mget (_hessian e) i j * vget x j)).
  { unfold R, residual. rewrite !vget_vsub by (rewrite ?length_vsub; lia).
    rewrite vget_matvec by lia. fold x. rewrite Hd. reflexivity. }
  assert (Hden : SR_denominator x R default_threshold = dot R x).
  { unfold SR_denominator.
    destruct (Qlt_bool (Qabs (dot R x)) default_threshold) eqn:E; [|reflexivity].
    apply Qlt_bool_iff in E. lra. }
  assert (Hnz : ~ dot R x == 0).
  { intros Hz. rewrite Hz in Hbig. cbn in Hbig. unfold default_threshold in Hbig. lra. }
  assert (Hinc : big n (fun j => mget (_get_SR x (vsub g go) R default_threshold) i j
                                 * vget x j) == vget R i).
  { rewrite (_get_SR_table n) by assumption. rewrite Hden.
    rewrite (big_ext n _ (fun j => (vget R i / dot R x) * (vget R j * vget x j))).
    - rewrite big_scale.
      assert (Hc : big n (fun j => vget R j * vget x j) == dot R x)
        by (unfold dot; rewrite HR; reflexivity).
      rewrite Hc. field. exact Hnz.
    - intros j Hj. rewrite mget_mtab by assumption. field. exact Hnz. }
  rewrite Hinc, HRi. ring.
Qed.

Lemma SR_secant_witness :
  exists h,
    update_hessian [2; 1; 0] 5 "SR" seeded_engine
    = (Ok tt, set_g_old [2; 1; 0] (set_hessian_raw h seeded_engine)) /\
    forall i, (i < 3)%nat ->
      vget (matvec h (flatten [[-(1 # 2); 0; 0]])) i
      == vget [2; 1; 0] i - vget [1; 0; 0] i.
Proof.
  apply (SR_secant 3 seeded_engine [2; 1; 0] [1; 0; 0] [[-(1 # 2); 0; 0]] 5);
    try reflexivity.
  vm_compute. discriminate.
Defined.

(** X3: In mode [BFGS], as written (the second term is built from the residual
    [H_tmp], not from [H . dx]), the increment sends the last displacement to
    [H . dx]: the updated Hessian applied to it gives twice what the old one
    gave, whatever the change of the gradient. *)
Theorem BFGS_doubles_on_displacement (n : nat) (e : QuasiNewtonInteractive)
        (g go : vec) (d : mat) (threshold : Q) :
  nrows (_hessian e) = n ->
  g_old e = Some go -> dx e = Some d ->
  length (flatten d) = n -> length g = n ->
  ~ dot (vsub g go) (flatten d) == 0 ->
  ~ dot (flatten d) (residual e g go d) == 0 ->
  exists h,
    update_hessian g threshold "BFGS" e = (Ok tt, set_g_old g (set_hessian_raw h e)) /\
    forall i, (i < n)%nat ->
      vget (matvec h (flatten d)) i == 2 * vget (matvec (_hessian e) (flatten d)) i.
Proof.
  intros HH Hgo Hdx Hd Hg Hnz1 Hnz2.
  destruct (update_hessian_seeded n e g go d threshold "BFGS" _ Hgo Hdx Hd Hg
              (or_intror (or_intror (conj eq_refl eq_refl)))) as (h & Hup & [Hr _] & Hent).
  exists h. split; [exact Hup|]. intros i Hi.
  set (x := flatten d) in *. set (R := residual e g go d) in *.
  set (dg := vsub g go) in *.
  assert (HR : length R = n) by (unfold R, residual; rewrite !length_vsub; exact Hg).
  assert (Hdg : length dg = n) by (unfold dg; rewrite length_vsub; exact Hg).
  rewrite (updated_matvec n (_hessian e) h _ x i Hr Hd Hi (fun j Hj => Hent i j Hi Hj)).
  rewrite (vget_matvec (_hessian e)) by lia. rewrite Hd.
  assert (HRi : vget R i == vget dg i
                            - big n (fun j => mget (_hessian e) i j * vget x j)).
  { unfold R, residual. fold dg. rewrite vget_vsub by lia.
    rewrite vget_matvec by lia. fold x. rewrite Hd. reflexivity. }
  assert (Hinc : big n (fun j => mget (_get_BFGS x dg R) i j * vget x j)
                 == vget dg i - vget R i).
  { rewrite (_get_BFGS_table n) by assumption.
    rewrite (big_ext n _ (fun j =>
               (vget dg i / dot dg x) * (vget dg j * vget x j)
               + (- (vget R i / dot x R)) * (vget x j * vget R j))).
    - rewrite big_add, !big_scale.
      assert (Ha : big n (fun j => vget dg j * vget x j) == dot dg x)
        by (unfold dot; rewrite Hdg; reflexivity).
      assert (Hb : big n (fun j => vget x j * vget R j) == dot x R)
        by (unfold dot; rewrite Hd; reflexivity).
      rewrite Ha, Hb. field. split; assumption.
    - intros j Hj. rewrite mget_mtab by assumption. field. split; assumption. }
  rewrite Hinc, HRi. ring.
Qed.

Lemma BFGS_doubles_on_displacement_witness :
  exists h,
    update_hessian [2; 1; 0] default_threshold "BFGS" seeded_engine
    = (Ok tt, set_g_old [2; 1; 0] (set_hessian_raw h seeded_engine)) /\
    forall i, (i < 3)%nat ->
      vget (matvec h (flatten [[-(1 # 2); 0; 0]])) i
      == 2 * vget (matvec (_hessian seeded_engine) (flatten [[-(1 # 2); 0; 0]])) i.
Proof.
  apply (BFGS_doubles_on_displacement 3 seeded_engine [2; 1; 0] [1; 0; 0]
           [[-(1 # 2); 0; 0]] default_threshold);
    try reflexivity; intros E; vm_compute in E; discriminate E.
Defined.

(** The denominator of [SR] is never zero: the nudge applies where it is
    less than the threshold in absolute value, and then makes it positive. *)
Lemma SR_denominator_nonzero (dx H_tmp : vec) (threshold : Q) :
  0 < threshold -> ~ SR_denominator dx H_tmp threshold == 0.
Proof.
  intros Ht. unfold SR_denominator, Qlt_bool.
  destruct (Qle_bool threshold (Qabs (dot H_tmp dx))) eqn:E; cbn [negb].
  - apply Qle_bool_iff in E. intros Z. rewrite Z in E. cbn in E.
    apply (Qlt_irrefl 0). apply (Qlt_le_trans _ threshold); assumption.
  - assert (L : Qabs (dot H_tmp dx) < threshold).
    { apply Qnot_le_lt. intros C. apply Qle_bool_iff in C. congruence. }
    apply Qabs_Qlt_condition in L. destruct L as [L _].
    intros Z. apply (Qlt_irrefl 0). rewrite <- Z at 2.
    apply (Qplus_lt_l _ _ threshold) in L. ring_simplify in L.
    rewrite Qplus_comm. exact L.
Qed.

(** X4: The increments of [SR] and of [BFGS] are symmetric matrices too, so that
    one update in either mode keeps a symmetric Hessian symmetric; in mode
    [BFGS] where the two numbers it divides by, [dg . dx] and [dx . H_tmp],
    are not zero (the denominator of [SR] never is). *)
Theorem SR_BFGS_keep_hessian_symmetric (n : nat) (e : QuasiNewtonInteractive)
        (g go : vec) (d : mat) (threshold : Q) (mode : string) :
  square n (_hessian e) -> symmetric n (_hessian e) ->
  g_old e = Some go -> dx e = Some d ->
  length (flatten d) = n -> length g = n ->
  mode = "SR"%string \/
  (mode = "BFGS"%string /\
   ~ dot (vsub g go) (flatten d) == 0 /\
   ~ dot (flatten d) (residual e g go d) == 0) ->
  exists h,
    update_hessian g threshold mode e = (Ok tt, set_g_old g (set_hessian_raw h e)) /\
    square n h /\ symmetric n h.
Proof.
  intros Hsq Hsym Hgo Hdx Hd Hg Hmode.
  set (R := residual e g go d).
  assert (HR : length R = n) by (unfold R, residual; rewrite !length_vsub; exact Hg).
  assert (Hdg : length (vsub g go) = n) by (rewrite length_vsub; exact Hg).
  destruct Hmode as [-> | (-> & Hnz1 & Hnz2)].
  - destruct (update_hessian_seeded n e g go d threshold "SR" _ Hgo Hdx Hd Hg
                (or_introl (conj eq_refl eq_refl))) as (h & Hup & Hq & Hent).
    exists h. split; [exact Hup|]. split; [exact Hq|].
    intros i j Hi Hj. rewrite !Hent by assumption. fold R.
    rewrite (_get_SR_table n) by assumption. rewrite !mget_mtab by assumption.
    rewrite (Hsym i j Hi Hj). unfold Qdiv. ring.
  - destruct (update_hessian_seeded n e g go d threshold "BFGS" _ Hgo Hdx Hd Hg
                (or_intror (or_intror (conj eq_refl eq_refl)))) as (h & Hup & Hq & Hent).
    exists h. split; [exact Hup|]. split; [exact Hq|].
    intros i j Hi Hj. rewrite !Hent by assumption. fold R.
    rewrite (_get_BFGS_table n) by assumption. rewrite !mget_mtab by assumption.
    rewrite (Hsym i j Hi Hj). field. split; assumption.
Qed.

Lemma SR_BFGS_keep_hessian_symmetric_witness :
  exists h,
    update_hessian [2; 1; 0] default_threshold "BFGS" seeded_engine
    = (Ok tt, set_g_old [2; 1; 0] (set_hessian_raw h seeded_engine)) /\
    square 3 h /\ symmetric 3 h.
Proof.
  apply (SR_BFGS_keep_hessian_symmetric 3 seeded_engine [2; 1; 0] [1; 0; 0]
           [[-(1 # 2); 0; 0]] default_threshold "BFGS"); try reflexivity.
  - split; [reflexivity|]. intros row [<-|[<-|[<-|[]]]]; reflexivity.
  - intros i j Hi Hj. small_index i; small_index j; reflexivity.
  - right. split; [reflexivity|].
    split; intros E; vm_compute in E; discriminate E.
Defined.

(** ** The cached eigenpairs *)

Section CacheFacts.

Variable linalg_inv : mat -> option mat.
Variable linalg_eigh : mat -> vec * mat.

Lemma update_hessian_coherent (g : vec) (threshold : Q) (mode : string)
      (e e' : QuasiNewtonInteractive) :
  coherent linalg_eigh e -> update_hessian g threshold mode e = (Ok tt, e') ->
  coherent linalg_eigh e'.
Proof.
  intros Hc H. apply update_hessian_cases in H.
  destruct H as [(_ & -> & _)|[(_ & x & Hx)|(h & _ & ->)]].
  - exact Hc.
  - discriminate Hx.
  - left. split; reflexivity.
Qed.

Lemma inv_hessian_coherent (e e' : QuasiNewtonInteractive) (r : result mat) :
  coherent linalg_eigh e -> inv_hessian linalg_inv linalg_eigh e = (r, e') ->
  coherent linalg_eigh e'.
Proof.
  intros Hc. unfold inv_hessian, eigenvectors, eigenvalues, _calc_eig, hessian. run.
  destruct (Qlt_bool 0 (regularization e)); [|intros H; inversion H; subst; exact Hc].
  destruct (use_eigenvalues e).
  - destruct Hc as [[E1 E2]|[E1 E2]]; rewrite E2; cbn.
    + intros H; inversion H; subst. right. split; reflexivity.
    + rewrite E1. cbn. rewrite E2. intros H; inversion H; subst. right. split; assumption.
  - unfold inv. destruct (linalg_inv _); intros H; inversion H; subst; exact Hc.
Qed.

Lemma read_coherent (e : QuasiNewtonInteractive) :
  coherent linalg_eigh e ->
  fst (eigenvalues linalg_eigh e) = Ok (fst (linalg_eigh (_hessian e))) /\
  fst (eigenvectors linalg_eigh e) = Ok (snd (linalg_eigh (_hessian e))).
Proof.
  unfold eigenvalues, eigenvectors, _calc_eig, hessian. run.
  intros [[E1 E2]|[E1 E2]]; rewrite E1, E2; split; reflexivity.
Qed.

End CacheFacts.

(** X5: No stale eigenpairs: when the cached eigenpairs agree with the Hessian
    (as they do on a new engine, which has none), they still do after a
    successful [get_dx] in any mode, and the next read of [eigenvalues] and
    [eigenvectors] is what [eigh] answers on the Hessian stored then. *)
Theorem get_dx_keeps_cache_coherent
        (linalg_inv : mat -> option mat) (linalg_eigh : mat -> vec * mat)
        (e e' : QuasiNewtonInteractive) (g : vec) (threshold : Q) (mode : string)
        (d : mat) :
  coherent linalg_eigh e ->
  get_dx linalg_inv linalg_eigh g threshold mode e = (Ok d, e') ->
  coherent linalg_eigh e' /\
  fst (eigenvalues linalg_eigh e') = Ok (fst (linalg_eigh (_hessian e'))) /\
  fst (eigenvectors linalg_eigh e') = Ok (snd (linalg_eigh (_hessian e'))).
Proof.
  intros Hc Hdx.
  assert (Hc' : coherent linalg_eigh e').
  { revert Hdx. unfold get_dx. unfold bind at 1.
    destruct (update_hessian g threshold mode e) as [[[]|x] e1] eqn:E1; [|discriminate].
    apply (update_hessian_coherent linalg_eigh) in E1; [|exact Hc].
    unfold bind at 1.
    destruct (inv_hessian linalg_inv linalg_eigh e1) as [[invH|x] e2] eqn:E2; [|discriminate].
    apply (inv_hessian_coherent linalg_inv linalg_eigh) in E2; [|exact E1].
    run. destruct (reshape_m1_3 _) as [d0|x]; cbn; [|discriminate].
    destruct (symmetry e2); cbn; intros H; inversion H; subst; exact E2. }
  split; [exact Hc'|]. apply read_coherent. exact Hc'.
Qed.

Lemma get_dx_keeps_cache_coherent_witness :
  exists d e',
    get_dx inv_unused eigh_diag [1; 0; 0] default_threshold "PSB" fresh_engine
    = (Ok d, e') /\
    coherent eigh_diag e' /\
    fst (eigenvalues eigh_diag e') = Ok (fst (eigh_diag (_hessian e'))).
Proof.
  pose proof (fun e' d =>
                get_dx_keeps_cache_coherent inv_unused eigh_diag fresh_engine e'
                  [1; 0; 0] default_threshold "PSB" d
                  (or_introl (conj eq_refl eq_refl))) as H.
  edestruct H as (H1 & H2 & _); [vm_compute; reflexivity|].
  eexists; eexists. split; [vm_compute; reflexivity|]. split; [exact H1 | exact H2].
Defined.

(** ** Construction *)

Lemma Qsquare_zero (r : Q) : Qeq_bool (r ^ 2) 0 = true <-> r == 0.
Proof.
  rewrite Qeq_bool_iff. split; intros H.
  - assert (E : r * r == 0) by (rewrite <- H; cbn; ring).
    destruct (Qmult_integral _ _ E); assumption.
  - rewrite H. reflexivity.
Qed.

Lemma scalar_seed_set (k : Q) (n : nat) (e : QuasiNewtonInteractive) :
  exists h,
    (if Nat.eqb 1 (n ^ 2) then hessian_setter [k]
     else hessian_setter (flatten (mscale k (eye n)))) e
    = (Ok tt, set_hessian_raw h e) /\
    square n h /\
    forall i j, (i < n)%nat -> (j < n)%nat -> mget h i j == k * kron i j.
Proof.
  destruct (Nat.eqb_spec 1 (n ^ 2)) as [E|E].
  - assert (n = 1%nat) as -> by (destruct n as [|[|n]]; cbn in E; try lia; nia).
    exists [[k]]. split; [reflexivity|]. split.
    + split; [reflexivity|]. intros row [<-|[]]. reflexivity.
    + intros i j Hi Hj. assert (i = 0%nat) as -> by lia. assert (j = 0%nat) as -> by lia.
      cbn. ring.
  - unfold mscale, eye. rewrite nrows_mtab, ncols_mtab_square.
    destruct (hessian_setter_table n (fun i j => k * mget (mtab n n kron) i j) e)
      as (h & Hset & Hq & Hget).
    exists h. split; [exact Hset|]. split; [exact Hq|].
    intros i j Hi Hj. rewrite Hget, mget_mtab by assumption. reflexivity.
Qed.

(** X6: With a number as seed and no diffusion bias: construction fails when
    eigen-mode is on and the regularization is zero; it succeeds when
    eigen-mode is off, and in eigen-mode when the regularization is of a
    size whose square is a float like any other ([1e-150 <= |r| <= 1e150]);
    and every engine it builds starts with the Hessian [k.I] of side the
    number of coordinates, no previous gradient, no displacement, and the
    regularization as given, squared in eigen-mode.  Nothing is said of
    eigen-mode with a regularization outside that range, where the float
    square is zero or out of range. *)
Theorem init_scalar_seed (linalg_norm : vec -> Q) (s : Structure) (k r : Q)
        (use_eigenvalues0 symmetrize : bool) :
  let n := length (flatten (positions s)) in
  (use_eigenvalues0 = true /\ r == 0 ->
   __init__ linalg_norm s (Scalar k) None use_eigenvalues0 None r symmetrize
   = Raise (ValueError "Regularization must be larger than 0 when eigenvalues are used")) /\
  (use_eigenvalues0 = false \/ square_in_range r ->
   exists e,
     __init__ linalg_norm s (Scalar k) None use_eigenvalues0 None r symmetrize = Ok e) /\
  (forall e,
     __init__ linalg_norm s (Scalar k) None use_eigenvalues0 None r symmetrize = Ok e ->
     ~ (use_eigenvalues0 = true /\ r == 0) /\
     square n (_hessian e) /\
     (forall i j, (i < n)%nat -> (j < n)%nat -> mget (_hessian e) i j == k * kron i j) /\
     use_eigenvalues e = use_eigenvalues0 /\
     regularization e = (if use_eigenvalues0 then r ^ 2 else r) /\
     g_old e = None /\ dx e = None /\
     _eigenvalues e = None /\ _eigenvectors e = None).
Proof.
  intros n.
  set (self := {| use_eigenvalues := use_eigenvalues0; _hessian := [] ; _eigenvalues := None;
                  _eigenvectors := None; g_old := None;
                  symmetry := if symmetrize then Some (get_symmetry s) else None;
                  regularization := 0; dx := None |}).
  destruct (scalar_seed_set k n self) as (h & Hset & Hq & Hent).
  assert (Hrun : forall b,
            Qeq_bool (if use_eigenvalues0 then r ^ 2 else r) 0 = b ->
            __init__ linalg_norm s (Scalar k) None use_eigenvalues0 None r symmetrize
            = if use_eigenvalues0 && b
              then Raise (ValueError "Regularization must be larger than 0 when eigenvalues are used")
              else Ok (set_regularization (if use_eigenvalues0 then r ^ 2 else r)
                         (set_hessian_raw h self))).
  { intros b Hb. unfold __init__, _initialize_hessian. fold self. fold n.
    unfold bind at 1. unfold bind at 1. rewrite Hset. run. cbn.
    destruct use_eigenvalues0; cbn in *; [|reflexivity].
    rewrite Hb. destruct b; reflexivity. }
  split; [|split].
  - intros [-> Hr]. rewrite (Hrun true); [reflexivity|].
    apply Qsquare_zero. exact Hr.
  - intros Hok.
    exists (set_regularization (if use_eigenvalues0 then r ^ 2 else r) (set_hessian_raw h self)).
    destruct use_eigenvalues0.
    + rewrite (Hrun false); [reflexivity|].
      destruct (Qeq_bool (r ^ 2) 0) eqn:E; [|reflexivity].
      exfalso. apply Qsquare_zero in E.
      destruct Hok as [Hf|[Hlow _]]; [discriminate|].
      rewrite E in Hlow. vm_compute in Hlow. apply Hlow. reflexivity.
    + rewrite (Hrun (Qeq_bool r 0)); reflexivity.
  - intros e He.
    rewrite (Hrun _ eq_refl) in He.
    destruct (use_eigenvalues0 && Qeq_bool (if use_eigenvalues0 then r ^ 2 else r) 0)
      eqn:Eb; [discriminate|].
    inversion He; subst e. clear He.
    split.
    + intros [-> Hr]. apply Qsquare_zero in Hr.
      change (Qeq_bool (r ^ 2) 0 = false) in Eb. rewrite Hr in Eb. discriminate.
    + cbn. repeat split; try assumption; apply Hq.
Qed.

Lemma init_scalar_seed_witness :
  (__init__ norm_unused one_atom (Scalar 10) None true None 0 true
   = Raise (ValueError "Regularization must be larger than 0 when eigenvalues are used")) /\
  (exists e, __init__ norm_unused one_atom (Scalar 10) None false None 0 true = Ok e) /\
  (exists e, __init__ norm_unused one_atom (Scalar 10) None true None (1 # 1000000) true = Ok e).
Proof.
  split; [|split].
  - apply (init_scalar_seed norm_unused one_atom 10 0 true true).
    split; reflexivity.
  - apply (init_scalar_seed norm_unused one_atom 10 0 false true).
    left. reflexivity.
  - apply (init_scalar_seed norm_unused one_atom 10 (1 # 1000000) true true).
    right. split; vm_compute; discriminate.
Defined.

Section DiffusionFacts.

Variable linalg_norm : vec -> Q.

Lemma _initialize_hessian_diffusion (s : Structure) (starting_h : seed)
      (id : nat) (direction : vec) (e e1 : QuasiNewtonInteractive) :
  _initialize_hessian linalg_norm s starting_h (Some id) (Some direction) e = (Ok tt, e1) ->
  use_eigenvalues e1 = true.
Proof.
  unfold _initialize_hessian. unfold bind at 1.
  match goal with
  | |- context [match ?m e with _ => _ end] => destruct (m e) as [[[]|x] e0]
  end; [|discriminate].
  unfold hessian. run.
  destruct (set_row _ _ _) as [v|x]; cbn; [|discriminate].
  destruct (seed_plus_one_times _ _ _) as [D|x]; cbn; [|discriminate].
  match goal with
  | |- context [hessian_setter ?v e0] =>
      destruct (hessian_setter v e0) as [[[]|x] e2]
  end; [|discriminate].
  intros H; inversion H; subst. reflexivity.
Qed.

End DiffusionFacts.

(** X7: A diffusion bias needs both its arguments, and it turns eigen-mode on:
    with a number as seed, an atom index without a direction, or a direction
    without an index, raises [ValueError]; and an engine built with both
    is in eigen-mode whatever [use_eigenvalues] said, so that its
    regularization is the square of the one given, which cannot be zero. *)
Theorem init_diffusion (linalg_norm : vec -> Q) (s : Structure) (k r : Q)
        (id : nat) (direction : vec) (use_eigenvalues0 symmetrize : bool) :
  __init__ linalg_norm s (Scalar k) (Some id) use_eigenvalues0 None r symmetrize
  = Raise (ValueError "diffusion id or diffusion direction not specified") /\
  __init__ linalg_norm s (Scalar k) None use_eigenvalues0 (Some direction) r symmetrize
  = Raise (ValueError "diffusion id or diffusion direction not specified") /\
  (forall starting_h e,
     __init__ linalg_norm s starting_h (Some id) use_eigenvalues0 (Some direction) r symmetrize
     = Ok e ->
     use_eigenvalues e = true /\ regularization e = r ^ 2 /\ ~ r == 0).
Proof.
  set (self := {| use_eigenvalues := use_eigenvalues0; _hessian := [] ; _eigenvalues := None;
                  _eigenvectors := None; g_old := None;
                  symmetry := if symmetrize then Some (get_symmetry s) else None;
                  regularization := 0; dx := None |}).
  destruct (scalar_seed_set k (length (flatten (positions s))) self) as (h & Hset & _).
  split; [|split].
  - unfold __init__, _initialize_hessian. fold self.
    unfold bind at 1. unfold bind at 1. rewrite Hset. reflexivity.
  - unfold __init__, _initialize_hessian. fold self.
    unfold bind at 1. unfold bind at 1. rewrite Hset. reflexivity.
  - intros starting_h e. unfold __init__. fold self. unfold bind at 1.
    destruct (_initialize_hessian linalg_norm s starting_h (Some id) (Some direction) self)
      as [[[]|x] e1] eqn:E; [|discriminate].
    apply _initialize_hessian_diffusion in E.
    run. rewrite E. cbn. rewrite E. cbn.
    destruct (Qeq_bool (r * r) 0) eqn:Er; [discriminate|].
    intros H; inversion H; subst. cbn.
    split; [exact E|]. split; [reflexivity|].
    intros Hr. change (r * r) with (r ^ 2) in Er.
    apply Qsquare_zero in Hr. congruence.
Qed.

Lemma init_diffusion_witness :
  exists e,
    __init__ norm_axis one_atom (Scalar 10) (Some 0%nat) false (Some [1; 0; 0]) (1 # 10) true
    = Ok e /\
    use_eigenvalues e = true /\ regularization e = (1 # 10) ^ 2.
Proof.
  destruct (init_diffusion norm_axis one_atom 10 (1 # 10) 0 [1; 0; 0] false true)
    as (_ & _ & H).
  eexists. split; [vm_compute; reflexivity|].
  edestruct (H (Scalar 10)) as (H1 & H2 & _); [vm_compute; reflexivity|].
  split; [exact H1 | exact H2].
Defined.

(** ** The diffusion bias *)

Lemma length_set_row (Z : mat) (i : nat) (row : vec) (V : mat) (c : nat) :
  (forall r, In r Z -> length r = c) -> ncols Z = c ->
  set_row Z i row = Ok V ->
  length V = length Z /\ forall r, In r V -> length r = c.
Proof.
  intros Hrows Hc. unfold set_row.
  destruct (Nat.ltb_spec i (length Z)) as [Hi|Hi]; [|discriminate].
  destruct (Nat.eqb_spec (length row) (ncols Z)) as [Hl|Hl]; [|discriminate].
  intros H.
  assert (HV : V = firstn i Z ++ row :: skipn (S i) Z) by congruence.
  subst V. clear H. split.
  - rewrite length_app, length_firstn. cbn [length]. rewrite length_skipn. lia.
  - intros r Hr. apply in_app_or in Hr. destruct Hr as [Hr|[<-|Hr]].
    + apply Hrows. rewrite <- (firstn_skipn i Z). apply in_or_app. left. exact Hr.
    + congruence.
    + apply Hrows. rewrite <- (firstn_skipn (S i) Z). apply in_or_app. right. exact Hr.
Qed.

(** X8: With a number [k] as seed, the Hessian biased along the direction [v]
    (the given direction at the given atom, zero elsewhere) has curvature
    [-1] along [v]: applied to [v] it gives [-v].  [np.linalg.norm] is taken
    to answer the Euclidean norm of [v], which is not zero. *)
Theorem diffusion_curvature (linalg_norm : vec -> Q) (s : Structure) (N : nat) (k r : Q)
        (id : nat) (direction : vec) (use_eigenvalues0 symmetrize : bool)
        (V : mat) (e : QuasiNewtonInteractive) :
  nrows (positions s) = N ->
  (forall row, In row (positions s) -> length row = 3%nat) ->
  set_row (zeros_like (positions s)) id direction = Ok V ->
  linalg_norm (flatten V) ^ 2 == dot (flatten V) (flatten V) ->
  ~ dot (flatten V) (flatten V) == 0 ->
  __init__ linalg_norm s (Scalar k) (Some id) use_eigenvalues0 (Some direction) r symmetrize
  = Ok e ->
  length (flatten V) = (3 * N)%nat /\
  forall i, (i < 3 * N)%nat ->
    vget (matvec (_hessian e) (flatten V)) i == - vget (flatten V) i.
Proof.
  intros HN Hrows HV Hnorm Hnz Hinit.
  set (v := flatten V) in *.
  set (n := length (flatten (positions s))).
  assert (Hn : n = (3 * N)%nat).
  { unfold n. rewrite (length_flatten_rows 3) by exact Hrows. unfold nrows in HN. lia. }
  assert (Hpos : (0 < N)%nat).
  { unfold set_row in HV. destruct (Nat.ltb_spec id (length (zeros_like (positions s)))) as [Hi|Hi];
      [|discriminate].
    unfold zeros_like in Hi. fold (nrows (mtab (nrows (positions s)) (ncols (positions s))
                                                (fun _ _ => 0))) in Hi.
    rewrite nrows_mtab in Hi. lia. }
  assert (Hnc : ncols (positions s) = 3%nat).
  { unfold ncols, nrows in *. destruct (positions s) as [|r0 p]; [cbn in HN; lia|].
    apply Hrows. left. reflexivity. }
  assert (Hv : length v = n).
  { unfold v. destruct (length_set_row (zeros_like (positions s)) id direction V 3) as [HL HR].
    - unfold zeros_like. rewrite Hnc. apply rows_mtab.
    - unfold zeros_like. rewrite Hnc, ncols_mtab, HN. destruct N; [lia | reflexivity].
    - exact HV.
    - rewrite (length_flatten_rows 3) by exact HR. rewrite HL.
      unfold zeros_like. fold (nrows (mtab (nrows (positions s)) (ncols (positions s))
                                           (fun _ _ => 0))).
      rewrite nrows_mtab, HN. lia. }
  split; [rewrite Hv; exact Hn|].
  (* the run of the constructor *)
  set (self := {| use_eigenvalues := use_eigenvalues0; _hessian := [] ; _eigenvalues := None;
                  _eigenvectors := None; g_old := None;
                  symmetry := if symmetrize then Some (get_symmetry s) else None;
                  regularization := 0; dx := None |}) in *.
  destruct (scalar_seed_set k n self) as (h1 & Hset1 & Hq1 & Hent1).
  set (c := linalg_norm v ^ 2) in *.
  destruct (hessian_setter_table n
              (fun i j => mget h1 i j - (k + 1) * (vget v i * vget v j) / c)
              (set_hessian_raw h1 self)) as (h2 & Hset2 & Hq2 & Hent2).
  assert (He : _hessian e = h2).
  { revert Hinit. unfold __init__, _initialize_hessian. fold self. fold n.
    cbv beta iota delta [bind get ret raise modify lift hessian seed_plus_one_times].
    rewrite Hset1. cbv beta iota. rewrite HV. cbv beta iota.
    cbn [_hessian set_hessian_raw]. fold v. fold c.
    assert (Hm : msub h1 (mdiv (mscale (k + 1) (outer v v)) c)
                 = mtab n n (fun i j => mget h1 i j - (k + 1) * (vget v i * vget v j) / c)).
    { unfold msub, mdiv, mscale, outer. rewrite Hv.
      destruct Hq1 as [Hr1 Hc1]. rewrite Hr1.
      rewrite (square_ncols n h1) by (split; assumption).
      repeat rewrite ?nrows_mtab, ?ncols_mtab_square.
      apply mtab_ext. intros i j Hi Hj. repeat rewrite mget_mtab by assumption.
      reflexivity. }
    rewrite Hm, Hset2. cbv beta iota.
    cbn [use_eigenvalues set_use_eigenvalues set_hessian_raw set_regularization
         regularization andb].
    destruct (Qeq_bool (r ^ 2) 0); [discriminate|].
    intros H; inversion H; subst. reflexivity. }
  intros i Hi. rewrite He.
  destruct Hq2 as [Hr2 _].
  rewrite vget_matvec by (rewrite Hr2; lia). rewrite Hv.
  rewrite (big_ext n _ (fun j => k * (kron i j * vget v j)
                                 + (- ((k + 1) * vget v i / c)) * (vget v j * vget v j))).
  - rewrite big_add, !big_scale.
    assert (Hd : big n (fun j => vget v j * vget v j) == dot v v)
      by (unfold dot; rewrite Hv; reflexivity).
    pose proof (big_single n i (fun j => kron i j * vget v j)) as Hs.
    cbv beta in Hs. rewrite Hs, Hd.
    + unfold kron. rewrite Nat.eqb_refl. rewrite Hnorm. field. exact Hnz.
    + lia.
    + intros j Hj Hne. unfold kron.
      destruct (Nat.eqb_spec i j); [congruence | ring].
  - intros j Hj. rewrite Hent2, Hent1 by lia. rewrite Hnorm.
    field. exact Hnz.
Qed.

Lemma diffusion_curvature_witness :
  exists e,
    __init__ norm_axis one_atom (Scalar 10) (Some 0%nat) false (Some [0; 2; 0]) (1 # 10) true
    = Ok e /\
    forall i, (i < 3 * 1)%nat ->
      vget (matvec (_hessian e) (flatten [[0; 2; 0]])) i == - vget (flatten [[0; 2; 0]]) i.
Proof.
  pose proof (fun e =>
                diffusion_curvature norm_axis one_atom 1 10 (1 # 10) 0 [0; 2; 0] false true
                  [[0; 2; 0]] e eq_refl) as H.
  eexists. split; [vm_compute; reflexivity|].
  edestruct H as [_ H2].
  - intros row [<-|[]]. reflexivity.
  - reflexivity.
  - reflexivity.
  - intros E. vm_compute in E. discriminate E.
  - vm_compute. reflexivity.
  - exact H2.
Defined.

(** ** The first step from a scalar seed *)

Lemma init_scalar_engine (linalg_norm : vec -> Q) (s : Structure) (k r : Q)
      (symmetrize : bool) :
  exists e,
    __init__ linalg_norm s (Scalar k) None false None r symmetrize = Ok e /\
    square (length (flatten (positions s))) (_hessian e) /\
    (forall i j, (i < length (flatten (positions s)))%nat ->
                 (j < length (flatten (positions s)))%nat ->
                 mget (_hessian e) i j == k * kron i j) /\
    use_eigenvalues e = false /\
    regularization e = r /\
    g_old e = None /\
    _eigenvalues e = None /\ _eigenvectors e = None /\
    symmetry e = (if symmetrize then Some (get_symmetry s) else None).
Proof.
  set (n := length (flatten (positions s))).
  set (self := {| use_eigenvalues := false; _hessian := [] ; _eigenvalues := None;
                  _eigenvectors := None; g_old := None;
                  symmetry := if symmetrize then Some (get_symmetry s) else None;
                  regularization := 0; dx := None |}).
  destruct (scalar_seed_set k n self) as (h & Hset & Hq & Hent).
  exists (set_regularization r (set_hessian_raw h self)).
  split.
  - unfold __init__, _initialize_hessian. fold self. fold n.
    unfold bind at 1. unfold bind at 1. rewrite Hset. run. cbn. reflexivity.
  - cbn. repeat split; try assumption; apply Hq.
Qed.

(** From an inverse that is [c.I] to the step: [-c.g], atom by atom. *)
Lemma first_step_from_inverse (linalg_inv : mat -> option mat)
      (linalg_eigh : mat -> vec * mat) (N : nat) (c : Q)
      (e e1 : QuasiNewtonInteractive) (g : vec) (threshold : Q) (mode : string)
      (invH : mat) :
  g_old e = None ->
  inv_hessian linalg_inv linalg_eigh (set_g_old g e) = (Ok invH, e1) ->
  nrows invH = (3 * N)%nat -> length g = (3 * N)%nat ->
  (forall i j, (i < 3 * N)%nat -> (j < 3 * N)%nat -> mget invH i j == c * kron i j) ->
  exists d,
    get_dx linalg_inv linalg_eigh g threshold mode e
    = (Ok (match symmetry e with Some sy => symmetrize_vectors sy d | None => d end),
       set_dx (match symmetry e with Some sy => symmetrize_vectors sy d | None => d end) e1) /\
    nrows d = N /\
    forall a b, (a < N)%nat -> (b < 3)%nat ->
      mget d a b == - (c * vget g (3 * a + b)).
Proof.
  intros Hg Hinv Hn Hl Hent.
  set (v := vneg (matvec invH g)).
  assert (Hv : length v = (3 * N)%nat).
  { unfold v, vneg, matvec. rewrite length_map, length_vtab. exact Hn. }
  exists (mtab N 3 (fun i j => vget v (i * 3 + j))).
  pose proof (inv_hessian_frame _ _ _ _ _ Hinv) as (_ & _ & FS & _).
  split; [|split].
  - unfold get_dx. unfold bind at 1.
    rewrite (update_hessian_unseeded e g threshold mode Hg).
    unfold bind at 1. rewrite Hinv.
    unfold bind at 1. unfold lift at 1. fold v.
    unfold reshape_m1_3, reshape. rewrite Hv.
    replace (3 * N)%nat with (N * 3)%nat by lia.
    rewrite Nat.Div0.mod_mul, Nat.div_mul by lia. cbn [Nat.eqb].
    rewrite Nat.eqb_refl.
    run. cbn. rewrite FS. cbn.
    destruct (symmetry e); reflexivity.
  - apply nrows_mtab.
  - intros a b Ha Hb. rewrite mget_mtab by assumption.
    unfold v, vneg. rewrite vget_map by (unfold matvec; rewrite length_vtab; lia).
    rewrite vget_matvec by lia. rewrite Hl.
    pose proof (big_single (3 * N) (a * 3 + b)
                  (fun j => mget invH (a * 3 + b) j * vget g j)) as Hs.
    cbv beta in Hs. rewrite Hs.
    + rewrite Hent by lia. unfold kron. rewrite Nat.eqb_refl.
      replace (a * 3 + b)%nat with (3 * a + b)%nat by lia. ring.
    + lia.
    + intros j Hj Hne. rewrite Hent by lia. unfold kron.
      destruct (Nat.eqb_spec (a * 3 + b) j); [congruence | ring].
Qed.

(** X9: The first step without eigen-mode: with a number [k] as seed and a
    regularization [r > 0], [np.linalg.inv] being given [(k + r).I] and
    answering a right inverse of it, the first [get_dx] returns
    [-g / (k + r)], atom by atom (before the symmetrization, if any). *)
Theorem first_step_direct (linalg_inv : mat -> option mat)
        (linalg_eigh : mat -> vec * mat) (linalg_norm : vec -> Q)
        (s : Structure) (N : nat) (k r : Q) (symmetrize : bool)
        (g : vec) (threshold : Q) (mode : string) :
  nrows (positions s) = N ->
  (forall row, In row (positions s) -> length row = 3%nat) ->
  0 < r -> ~ k + r == 0 -> length g = (3 * N)%nat ->
  (forall A, nrows A = (3 * N)%nat ->
     (forall i j, (i < 3 * N)%nat -> (j < 3 * N)%nat -> mget A i j == (k + r) * kron i j) ->
     exists B, linalg_inv A = Some B /\ nrows B = (3 * N)%nat /\
       forall i j, (i < 3 * N)%nat -> (j < 3 * N)%nat ->
         big (3 * N) (fun m => mget A i m * mget B m j) == kron i j) ->
  exists e d e',
    __init__ linalg_norm s (Scalar k) None false None r symmetrize = Ok e /\
    get_dx linalg_inv linalg_eigh g threshold mode e
    = (Ok (if symmetrize then symmetrize_vectors (get_symmetry s) d else d), e') /\
    nrows d = N /\
    forall a b, (a < N)%nat -> (b < 3)%nat ->
      mget d a b == - (vget g (3 * a + b) / (k + r)).
Proof.
  intros HN Hrows Hr Hkr Hg Hinvspec.
  destruct (init_scalar_engine linalg_norm s k r symmetrize)
    as (e & Hinit & Hsq & Hent & Hue & Hreg & Hgo & _ & _ & Hsym).
  assert (Hn : length (flatten (positions s)) = (3 * N)%nat).
  { rewrite (length_flatten_rows 3) by exact Hrows. unfold nrows in HN. lia. }
  rewrite Hn in *. cbn in Hreg.
  set (A := madd (_hessian e) (mscale r (eye (length (_hessian e))))).
  destruct Hsq as [Hrw Hcl].
  assert (Hlen : length (_hessian e) = (3 * N)%nat) by exact Hrw.
  assert (HA : A = mtab (3 * N) (3 * N)
                     (fun i j => mget (_hessian e) i j
                                 + mget (mscale r (eye (3 * N))) i j)).
  { unfold A, madd. rewrite Hlen, Hrw.
    rewrite (square_ncols (3 * N) (_hessian e)) by (split; assumption). reflexivity. }
  assert (HAent : forall i j, (i < 3 * N)%nat -> (j < 3 * N)%nat ->
                    mget A i j == (k + r) * kron i j).
  { intros i j Hi Hj. rewrite HA, mget_mtab by assumption.
    unfold mscale, eye. rewrite nrows_mtab, ncols_mtab_square.
    rewrite !mget_mtab by assumption. rewrite Hent by assumption. ring. }
  destruct (Hinvspec A) as (B & HB & HBn & HBinv);
    [rewrite HA; apply nrows_mtab | exact HAent |].
  assert (HBent : forall i j, (i < 3 * N)%nat -> (j < 3 * N)%nat ->
                    mget B i j == / (k + r) * kron i j).
  { intros i j Hi Hj.
    pose proof (big_single (3 * N) i (fun m => mget A i m * mget B m j) Hi) as Hs.
    cbv beta in Hs.
    assert (E : mget A i i * mget B i j == kron i j).
    { rewrite <- Hs; [apply HBinv; assumption|].
      intros m Hm Hne. rewrite HAent by assumption. unfold kron.
      destruct (Nat.eqb_spec i m); [congruence | ring]. }
    rewrite HAent in E by assumption. unfold kron in E at 1. rewrite Nat.eqb_refl in E.
    rewrite <- E. field. exact Hkr. }
  assert (Hinv : inv_hessian linalg_inv linalg_eigh (set_g_old g e)
                 = (Ok B, set_g_old g e)).
  { unfold inv_hessian, hessian.
    cbv beta iota delta [bind get ret raise modify lift].
    cbn [regularization use_eigenvalues _hessian set_g_old]. rewrite Hreg, Hue.
    replace (Qlt_bool 0 r) with true by (symmetry; apply Qlt_bool_iff; exact Hr).
    cbv beta iota. cbn [_hessian set_g_old]. fold A. unfold inv. rewrite HB. reflexivity. }
  destruct (first_step_from_inverse linalg_inv linalg_eigh N (/ (k + r)) e (set_g_old g e)
              g threshold mode B Hgo Hinv HBn Hg HBent) as (d & Hdx & Hnd & Hd).
  exists e, d,
    (set_dx (if symmetrize then symmetrize_vectors (get_symmetry s) d else d)
            (set_g_old g e)).
  split; [exact Hinit|]. split; [|split; [exact Hnd|]].
  - rewrite Hdx, Hsym. destruct symmetrize; reflexivity.
  - intros a b Ha Hb. rewrite (Hd a b Ha Hb). field. exact Hkr.
Qed.

Lemma inv_diag_scalar (c : Q) (n : nat) (A : mat) :
  ~ c == 0 -> nrows A = n ->
  (forall i j, (i < n)%nat -> (j < n)%nat -> mget A i j == c * kron i j) ->
  exists B, inv_diag A = Some B /\ nrows B = n /\
    forall i j, (i < n)%nat -> (j < n)%nat ->
      big n (fun m => mget A i m * mget B m j) == kron i j.
Proof.
  intros Hc Hn Hent.
  assert (Hd : forall i, (i < n)%nat -> mget A i i == c).
  { intros i Hi. rewrite (Hent i i Hi Hi). unfold kron. rewrite Nat.eqb_refl. ring. }
  exists (mtab n n (fun i j => kron i j / mget A i i)). split; [|split].
  - unfold inv_diag. rewrite Hn.
    replace (forallb (fun i => negb (Qeq_bool (mget A i i) 0)) (seq 0 n)) with true;
      [reflexivity|].
    symmetry. apply forallb_forall. intros i Hi. apply in_seq in Hi.
    apply negb_true_iff. destruct (Qeq_bool (mget A i i) 0) eqn:E; [|reflexivity].
    apply Qeq_bool_iff in E. rewrite Hd in E by lia. contradiction.
  - apply nrows_mtab.
  - intros i j Hi Hj.
    pose proof (big_single n i
                  (fun m => mget A i m * mget (mtab n n (fun a b => kron a b / mget A a a)) m j)
                  Hi) as Hs.
    cbv beta in Hs. rewrite Hs.
    + rewrite mget_mtab by assumption. rewrite Hd by assumption. field. exact Hc.
    + intros m Hm Hne. rewrite (Hent i m Hi Hm). unfold kron at 1.
      destruct (Nat.eqb_spec i m); [congruence | ring].
Qed.

Lemma first_step_direct_witness :
  exists e d e',
    __init__ norm_unused one_atom (Scalar 10) None false None 1 false = Ok e /\
    get_dx inv_diag eigh_diag [1; 0; 0] default_threshold "PSB" e = (Ok d, e') /\
    nrows d = 1%nat /\
    forall a b, (a < 1)%nat -> (b < 3)%nat ->
      mget d a b == - (vget [1; 0; 0] (3 * a + b) / (10 + 1)).
Proof.
  apply (first_step_direct inv_diag eigh_diag norm_unused one_atom 1 10 1 false
           [1; 0; 0] default_threshold "PSB").
  - reflexivity.
  - intros row [<-|[]]. reflexivity.
  - reflexivity.
  - intros E. vm_compute in E. discriminate E.
  - reflexivity.
  - intros A HA Hent. apply (inv_diag_scalar (10 + 1)); [|exact HA | exact Hent].
    intros E. vm_compute in E. discriminate E.
Defined.

(** ** Displacements under any symmetry *)

Module ProbeFacts.
Import Hessian.

Section AnySymmetry.

Variable h : t.

Let R : nat := nrows (positions (structure h)).
Let C : nat := ncols (positions (structure h)).

Lemma where_first_in_range (p : Q -> bool) (F : nat -> nat -> Q) (i j : nat) :
  where_first p (mtab R C F) = Some (i, j) -> (i < R)%nat /\ (j < C)%nat.
Proof.
  unfold where_first. rewrite nrows_mtab, ncols_mtab.
  destruct (find _ _) as [k|] eqn:E; [|discriminate].
  apply find_some in E. destruct E as [E _]. apply in_seq in E.
  destruct (Nat.eqb_spec R 0) as [H0|H0]; [rewrite H0 in E; lia|].
  intros H. inversion H; subst.
  assert (C <> 0)%nat by (intros ->; lia).
  split.
  - apply Nat.Div0.div_lt_upper_bound. lia.
  - apply Nat.mod_upper_bound. assumption.
Qed.

Lemma next_displacement_onehot (F : nat -> nat -> Q) (d : mat) :
  _get_next_displacement h (mtab R C F) = Ok d ->
  exists i j, (i < R)%nat /\ (j < C)%nat /\ d = onehot R C i j (dx h).
Proof.
  unfold _get_next_displacement.
  destruct (where_first _ _) as [[i j]|] eqn:E; [|discriminate].
  apply where_first_in_range in E. destruct E as [Hi Hj].
  intros H. inversion H; subst. clear H.
  exists i, j. split; [exact Hi|]. split; [exact Hj|].
  assert (HC : ncols (mtab R C F) = C).
  { rewrite ncols_mtab. destruct (Nat.eqb_spec R 0); [lia | reflexivity]. }
  unfold set_entry, zeros_like, onehot.
  rewrite !nrows_mtab, HC.
  assert (HC' : ncols (mtab R C (fun _ _ : nat => 0)) = C).
  { rewrite ncols_mtab. destruct (Nat.eqb_spec R 0); [lia | reflexivity]. }
  rewrite HC'.
  apply mtab_ext. intros r c Hr Hc. rewrite mget_mtab by assumption. reflexivity.
Qed.

Lemma generate_loop_keeps (count : nat) (st st' : gen_state) :
  loop_state R C (dx h) st ->
  generate_loop h count st = Ok st' ->
  loop_state R C (dx h) st' /\
  (length (raw st') <= length (raw st) + count)%nat.
Proof.
  revert st. induction count as [|count IH]; intros st Hst.
  - cbn. intros H. inversion H; subst. split; [exact Hst | lia].
  - cbn [generate_loop].
    destruct (negb _).
    + intros H. inversion H; subst. split; [exact Hst | lia].
    + destruct Hst as ((F & HF) & Hprobes & Hlen & Hne).
      destruct (_get_next_displacement h (all_displacements st)) as [d|x] eqn:Ed;
        [|discriminate].
      rewrite HF in Ed. apply next_displacement_onehot in Ed.
      destruct (_get_equivalent_vector h d None) as [[ineq ids0]|x]; [|discriminate].
      intros Hrun. apply IH in Hrun.
      * destruct Hrun as [Hst' Hle]. split; [exact Hst'|].
        cbn [raw] in Hle. rewrite length_app in Hle. cbn in Hle. lia.
      * unfold loop_state. cbn [all_displacements raw inequivalent ids].
        split; [|split; [|split]].
        -- eexists. unfold add_abs_sum. rewrite HF, nrows_mtab.
           destruct (Nat.eqb_spec R 0) as [H0|H0].
           ++ destruct Ed as (i & j & Hi & _). lia.
           ++ rewrite ncols_mtab.
              replace (Nat.eqb R 0) with false by (symmetry; apply Nat.eqb_neq; exact H0).
              reflexivity.
        -- apply Forall_app. split; [exact Hprobes|].
           constructor; [exact Ed | constructor].
        -- rewrite !length_app, Hlen. reflexivity.
        -- intros _. destruct (raw st); discriminate.
Qed.

End AnySymmetry.

Lemma displacements_generated (s : Structure) (dx0 : Q) (ps : list mat) (h' : t) :
  displacements (__init__ s dx0) = (Ok ps, h') ->
  _displacements h' = ps /\ ps <> [] /\
  structure h' = s /\ dx h' = dx0 /\
  _inequivalent_forces h' = PyList [] /\
  length (_inequivalent_ids h') = length ps /\
  (length ps <= nrows (positions s) * ncols (positions s))%nat /\
  Forall (fun p => exists i j, (i < nrows (positions s))%nat /\
                               (j < ncols (positions s))%nat /\
                               p = onehot (nrows (positions s)) (ncols (positions s)) i j dx0)
         ps.
Proof.
  unfold displacements, _generate_displacements.
  cbv beta iota delta [bind get ret raise modify lift].
  cbn [_displacements __init__ length Nat.eqb structure _inequivalent_ids
       _inequivalent_displacements].
  set (h0 := __init__ s dx0).
  set (init := {| all_displacements := zeros_like (positions s); raw := [];
                  inequivalent := []; ids := [] |}).
  set (count := length (flatten (zeros_like (positions s)))).
  assert (Hcount : count = (nrows (positions s) * ncols (positions s))%nat).
  { unfold count, zeros_like.
    rewrite (length_flatten_rows (ncols (positions s))) by apply rows_mtab.
    fold (nrows (mtab (nrows (positions s)) (ncols (positions s)) (fun _ _ => 0))).
    rewrite nrows_mtab. reflexivity. }
  assert (Hinit : loop_state (nrows (positions s)) (ncols (positions s)) dx0 init).
  { unfold loop_state, init. cbn [all_displacements raw inequivalent ids].
    split; [eexists; reflexivity|]. split; [constructor|]. split; [reflexivity|].
    intros H. contradiction. }
  destruct (generate_loop h0 count init) as [st|x] eqn:Erun; [|discriminate].
  cbv beta iota.
  destruct (generate_loop_keeps h0 count init st Hinit Erun)
    as (((F & HF) & Hprobes & Hlen & Hne) & Hle).
  unfold reshape_rows.
  destruct (inequivalent st) as [|f0 rest] eqn:Ei; [discriminate|].
  cbv beta iota. cbn [_displacements set_generated].
  intros H. inversion H; subst. clear H.
  cbn [_displacements set_generated structure dx _inequivalent_forces _inequivalent_ids
       __init__].
  split; [reflexivity|]. split; [apply Hne; discriminate|].
  repeat split.
  - symmetry. exact Hlen.
  - cbn in Hle. rewrite <- Hcount. exact Hle.
  - exact Hprobes.
Qed.

End ProbeFacts.

(** X10: Whatever the symmetry, the displacements a new [Hessian] object
    generates (when it generates them without error) are unit probes: each
    is [dx] at one atom-direction and zero elsewhere; there is at least one
    of them, and there are at most as many as there are atom-directions
    (an atom-direction can be probed more than once), and one index list is
    recorded per probe.  They are cached: reading [displacements] again
    returns the same list and changes nothing. *)
Theorem displacements_unit_probes (s : Structure) (dx0 : Q) (ps : list mat)
        (h' : Hessian.t) :
  Hessian.displacements (Hessian.__init__ s dx0) = (Ok ps, h') ->
  ps <> [] /\
  (length ps <= nrows (positions s) * ncols (positions s))%nat /\
  Forall (fun p => exists i j, (i < nrows (positions s))%nat /\
                               (j < ncols (positions s))%nat /\
                               p = onehot (nrows (positions s)) (ncols (positions s)) i j dx0)
         ps /\
  length (Hessian._inequivalent_ids h') = length ps /\
  Hessian.displacements h' = (Ok ps, h').
Proof.
  intros H. apply ProbeFacts.displacements_generated in H.
  destruct H as (Hd & Hne & _ & _ & _ & Hids & Hle & Hp).
  split; [exact Hne|]. split; [exact Hle|]. split; [exact Hp|]. split; [exact Hids|].
  unfold Hessian.displacements.
  cbv beta iota delta [bind get ret raise modify lift]. rewrite Hd.
  destruct ps as [|p ps]; [contradiction|].
  cbn [length Nat.eqb]. cbv beta iota. rewrite Hd. reflexivity.
Qed.

Lemma displacements_unit_probes_witness :
  exists ps h',
    Hessian.displacements (Hessian.__init__ two_atoms (1 # 100)) = (Ok ps, h') /\
    length ps = 6%nat /\
    Hessian.displacements h' = (Ok ps, h').
Proof.
  pose proof (fun ps h' =>
                displacements_unit_probes two_atoms (1 # 100) ps h') as H.
  edestruct H as (_ & _ & _ & _ & H5); [vm_compute; reflexivity|].
  eexists; eexists. split; [vm_compute; reflexivity|].
  split; [reflexivity | exact H5].
Defined.

(** ** Forces are taken once *)

Module ForcesFacts.
Import Hessian.

Lemma set_forces_loop_frame (pairs : list (mat * list nat)) (h h' : t) (r : result unit) :
  set_forces_loop pairs h = (r, h') ->
  _displacements h' = _displacements h /\
  _inequivalent_ids h' = _inequivalent_ids h.
Proof.
  revert h. induction pairs as [|[ff ii] rest IH]; intros h.
  - cbn. unfold ret. intros H. inversion H. auto.
  - cbn [set_forces_loop]. unfold bind at 1. unfold extend_forces.
    cbv beta iota delta [bind get ret raise modify lift].
    destruct (_inequivalent_forces h) as [l|rows].
    + destruct (_get_equivalent_vector h ff (Some ii)) as [sel|x].
      * cbv beta iota. intros H. apply IH in H. cbn in H. exact H.
      * cbv beta iota. intros H. inversion H. auto.
    + cbv beta iota. intros H. inversion H. auto.
Qed.

Lemma set_forces_fresh (s : Structure) (dx0 : Q) (forces : list mat) (h1 : t) :
  set_forces forces (__init__ s dx0) = (Ok tt, h1) ->
  _displacements h1 <> [] /\
  length (_inequivalent_ids h1) = length (_displacements h1).
Proof.
  unfold set_forces. unfold bind at 1.
  destruct (displacements (__init__ s dx0)) as [[ps|x] hd] eqn:Ed; [|discriminate].
  apply ProbeFacts.displacements_generated in Ed.
  destruct Ed as (Hd & Hne & _ & _ & _ & Hids & _ & _).
  unfold bind at 1.
  destruct (list_eq_dec Nat.eq_dec (shape3 forces) (shape3 ps)); [|discriminate].
  cbv beta iota delta [ret]. unfold bind at 1. unfold get at 1. unfold bind at 1.
  destruct (set_forces_loop (combine forces (_inequivalent_ids hd)) hd)
    as [[[]|x] h2] eqn:El; [|discriminate].
  apply set_forces_loop_frame in El. destruct El as [F1 F2].
  cbv beta iota delta [bind get ret raise modify lift].
  unfold reshape_rows.
  destruct (_inequivalent_forces h2) as [[|a l]|[|a l]]; try discriminate;
    cbv beta iota; intros H; inversion H; subst;
    cbn [_displacements _inequivalent_ids set_forces_store];
    rewrite F1, F2; split; assumption.
Qed.

End ForcesFacts.

(** X11: On a [Hessian] object that has taken forces once, [set_forces] never
    succeeds again: forces of another shape than the displacements raise the
    assertion error, and forces of their shape raise [AttributeError], the
    store being an array by then, which has no [extend].  The object is left
    as it was, and [get_hessian] with forces at call time fails the same
    way. *)
Theorem set_forces_only_once (linalg_inv : mat -> option mat)
        (s : Structure) (dx0 : Q) (forces forces' : list mat) (h1 : Hessian.t) :
  Hessian.set_forces forces (Hessian.__init__ s dx0) = (Ok tt, h1) ->
  exists x,
    (Hessian.shape3 forces' <> Hessian.shape3 (Hessian._displacements h1) ->
     x = AssertionError "Force shape does not match displacement shape") /\
    (Hessian.shape3 forces' = Hessian.shape3 (Hessian._displacements h1) ->
     x = AttributeError "'numpy.ndarray' object has no attribute 'extend'") /\
    Hessian.set_forces forces' h1 = (Raise x, h1) /\
    Hessian.get_hessian linalg_inv (Some forces') h1 = (Raise x, h1).
Proof.
  intros H.
  destruct (HessianFacts.set_forces_stores _ _ _ H) as (a & rows & Hstore).
  destruct (ForcesFacts.set_forces_fresh _ _ _ _ H) as [Hne Hids].
  assert (Hsecond : exists x,
            (Hessian.shape3 forces' <> Hessian.shape3 (Hessian._displacements h1) ->
             x = AssertionError "Force shape does not match displacement shape") /\
            (Hessian.shape3 forces' = Hessian.shape3 (Hessian._displacements h1) ->
             x = AttributeError "'numpy.ndarray' object has no attribute 'extend'") /\
            Hessian.set_forces forces' h1 = (Raise x, h1)).
  { unfold Hessian.set_forces, Hessian.displacements.
    cbv beta iota delta [bind get ret raise modify lift].
    destruct (Hessian._displacements h1) as [|p ps] eqn:Ed; [contradiction|].
    cbn [length Nat.eqb]. cbv beta iota. rewrite Ed.
    destruct (list_eq_dec Nat.eq_dec (Hessian.shape3 forces') (Hessian.shape3 (p :: ps)))
      as [Hs|Hs].
    - cbv beta iota.
      destruct forces' as [|ff rest]; [discriminate Hs|].
      destruct (Hessian._inequivalent_ids h1) as [|ii ids]; [discriminate Hids|].
      cbn [combine Hessian.set_forces_loop]. unfold Hessian.extend_forces.
      cbv beta iota delta [bind get ret raise modify lift].
      rewrite Hstore. cbv beta iota.
      eexists. split; [intros C; contradiction|]. split; reflexivity.
    - cbv beta iota. eexists. split; [reflexivity|].
      split; [intros C; contradiction | reflexivity]. }
  destruct Hsecond as (x & Hx1 & Hx2 & Hset).
  exists x. split; [exact Hx1|]. split; [exact Hx2|]. split; [exact Hset|].
  unfold Hessian.get_hessian. unfold bind at 1. unfold get at 1.
  unfold bind at 1. rewrite Hset. reflexivity.
Qed.

Lemma set_forces_only_once_witness :
  exists h1,
    Hessian.set_forces [[[1; 0; 0]]; [[0; 1; 0]]; [[0; 0; 1]]]
                       (Hessian.__init__ one_atom (1 # 100)) = (Ok tt, h1) /\
    Hessian.set_forces [[[1; 0; 0]]; [[0; 1; 0]]; [[0; 0; 1]]] h1
    = (Raise (AttributeError "'numpy.ndarray' object has no attribute 'extend'"), h1) /\
    Hessian.set_forces [[[1; 0; 0]]; [[0; 1; 0]]] h1
    = (Raise (AssertionError "Force shape does not match displacement shape"), h1).
Proof.
  pose proof (fun f' h1 =>
                set_forces_only_once inv_unused one_atom (1 # 100)
                  [[[1; 0; 0]]; [[0; 1; 0]]; [[0; 0; 1]]] f' h1) as H.
  edestruct (H [[[1; 0; 0]]; [[0; 1; 0]]; [[0; 0; 1]]]) as (x & _ & Hx & H2 & _);
    [vm_compute; reflexivity|].
  edestruct (H [[[1; 0; 0]]; [[0; 1; 0]]]) as (y & Hy & _ & H3 & _);
    [vm_compute; reflexivity|].
  eexists. split; [vm_compute; reflexivity|]. split.
  - rewrite <- Hx; [exact H2 | vm_compute; reflexivity].
  - rewrite <- Hy; [exact H3 | vm_compute; discriminate].
Defined.

(** ** Forces and the estimate *)

Lemma big_opp (n : nat) (f : nat -> Q) : big n (fun i => - f i) == - big n f.
Proof.
  rewrite (big_ext n _ (fun i => (- (1)) * f i)) by (intros; ring).
  rewrite big_scale. ring.
Qed.

Lemma big_swap (n m : nat) (f : nat -> nat -> Q) :
  big n (fun i => big m (fun j => f i j)) == big m (fun j => big n (fun i => f i j)).
Proof.
  induction n as [|n IH].
  - symmetry. apply big_zero. intros j _. reflexivity.
  - transitivity (big m (fun j => big n (fun i => f i j) + f n j)).
    + rewrite big_S, IH, big_add. reflexivity.
    + apply big_ext. intros j _. symmetry. apply (big_S n (fun i => f i j)).
Qed.

(** A table built like the one [get_hessian] returns solves the normal
    equations, as soon as what [np.linalg.inv] answered is an inverse. *)
Lemma estimate_normal_equations (c r : nat) (B X Y H : mat) :
  inverse_of c B X ->
  (forall n j, (n < r)%nat -> (j < c)%nat ->
     mget H n j = - big c (fun k => mget B k j * mget Y n k)) ->
  forall n m, (n < r)%nat -> (m < c)%nat ->
    big c (fun j => mget H n j * mget X j m) == - mget Y n m.
Proof.
  intros (_ & _ & HB) HH n m Hn Hm.
  rewrite (big_ext c _ (fun j => - big c (fun k => mget Y n k * (mget B k j * mget X j m)))).
  - rewrite big_opp, big_swap.
    rewrite (big_ext c _ (fun k => mget Y n k * kron k m)).
    + pose proof (big_single c m (fun k => mget Y n k * kron k m) Hm) as Hs.
      cbv beta in Hs. rewrite Hs.
      * unfold kron. rewrite Nat.eqb_refl. ring.
      * intros k Hk Hne. unfold kron.
        destruct (Nat.eqb_spec k m); [congruence | ring].
    + intros k Hk. rewrite big_scale, (HB k m Hk Hm). reflexivity.
  - intros j Hj. rewrite (HH n j Hn Hj).
    rewrite (big_ext c (fun k => mget Y n k * (mget B k j * mget X j m))
                       (fun k => mget X j m * (mget B k j * mget Y n k)))
      by (intros; ring).
    rewrite big_scale. ring.
Qed.

(** C9, as the code has it: [get_hessian] ends in the error
    [Forces not set yet] exactly when no forces are passed and none are in
    store; forces passed at call time are first stored by [set_forces], whose
    failure (a shape that does not match, say) is then the failure of
    [get_hessian], and whose success is followed by the very estimate that a
    call without forces computes from the store.  That estimate is there as
    soon as [np.linalg.inv] answers on [D^T D] (its failure is the failure of
    [get_hessian]): one row per force coordinate, the entries
    [- sum_k B[k,j] (F^T D)[n,k]] for the answer [B]; and when [B] is an
    inverse of [D^T D] it solves the normal equations
    [H (D^T D) = - F^T D] of the least-squares problem. *)
Theorem get_hessian_forces_not_set
        (linalg_inv : mat -> option mat) (forces : option (list mat)) (h : Hessian.t) :
  (fst (Hessian.get_hessian linalg_inv forces h)
   = Raise (AssertionError "Forces not set yet")
   <-> forces = None /\ Hessian.store_len (Hessian._inequivalent_forces h) = 0%nat) /\
  (forall f h1 x, forces = Some f ->
     Hessian.set_forces f h = (Raise x, h1) ->
     Hessian.get_hessian linalg_inv forces h = (Raise x, h1)) /\
  (forall f h1, forces = Some f ->
     Hessian.set_forces f h = (Ok tt, h1) ->
     Hessian.get_hessian linalg_inv forces h = Hessian.get_hessian linalg_inv None h1) /\
  (forall f h1, forces = Some f ->
     Hessian.set_forces f h = (Ok tt, h1) ->
     exists F,
       Hessian._inequivalent_forces h1 = Hessian.NdArray F /\
       (linalg_inv (gram (Hessian._inequivalent_displacements h1)) = None ->
        Hessian.get_hessian linalg_inv forces h = (Raise LinAlgError, h1)) /\
       (forall B, linalg_inv (gram (Hessian._inequivalent_displacements h1)) = Some B ->
          exists H,
            Hessian.get_hessian linalg_inv forces h = (Ok H, h1) /\
            nrows H = ncols F /\
            (forall n j, (n < ncols F)%nat -> (j < ncols B)%nat ->
               mget H n j
               = - big (nrows B)
                       (fun k => mget B k j
                                 * mget (cross F (Hessian._inequivalent_displacements h1)) n k)) /\
            (inverse_of (ncols (Hessian._inequivalent_displacements h1)) B
                        (gram (Hessian._inequivalent_displacements h1)) ->
             forall n m, (n < ncols F)%nat ->
               (m < ncols (Hessian._inequivalent_displacements h1))%nat ->
               big (ncols (Hessian._inequivalent_displacements h1))
                   (fun j => mget H n j
                             * mget (gram (Hessian._inequivalent_displacements h1)) j m)
               == - mget (cross F (Hessian._inequivalent_displacements h1)) n m))).
Proof.
  split; [|split; [|split]].
  - split.
    + destruct forces as [f|].
      * unfold Hessian.get_hessian. unfold bind at 1. unfold get at 1.
        unfold bind at 1.
        destruct (Hessian.set_forces f h) as [[[]|y] h1] eqn:E.
        -- destruct (HessianFacts.set_forces_stores _ _ _ E) as (a & rows & Hs).
           run. rewrite Hs. cbn. unfold inv.
           destruct (linalg_inv _); cbn; discriminate.
        -- cbn. intros H; inversion H; subst.
           exfalso. eapply HessianFacts.set_forces_error; eauto.
      * intros H. split; [reflexivity|].
        revert H. unfold Hessian.get_hessian. run.
        destruct (Nat.eqb _ 0) eqn:E; [intros _; apply Nat.eqb_eq; exact E|].
        cbn. destruct (Hessian._inequivalent_forces h); cbn; [discriminate|].
        unfold inv. destruct (linalg_inv _); cbn; discriminate.
    + intros [-> H]. unfold Hessian.get_hessian. run. rewrite H. reflexivity.
  - intros f h1 x -> E. unfold Hessian.get_hessian. run. rewrite E. reflexivity.
  - intros f h1 -> E.
    destruct (HessianFacts.set_forces_stores _ _ _ E) as (a & rows & Hs).
    unfold Hessian.get_hessian. run. rewrite E, Hs. cbn. rewrite Hs. reflexivity.
  - intros f h1 -> E.
    destruct (HessianFacts.set_forces_stores _ _ _ E) as (a & rows & Hs).
    exists (a :: rows). split; [exact Hs|].
    set (D := Hessian._inequivalent_displacements h1).
    set (F := a :: rows) in *.
    assert (Hrun : Hessian.get_hessian linalg_inv (Some f) h
                   = match linalg_inv (gram D) with
                     | Some B =>
                         (Ok (mtab (nrows (cross F D)) (ncols B)
                                (fun n j => - big (nrows B)
                                              (fun k => mget B k j * mget (cross F D) n k))),
                          h1)
                     | None => (Raise LinAlgError, h1)
                     end).
    { unfold Hessian.get_hessian. unfold bind at 1. unfold get at 1.
      unfold bind at 1. rewrite E.
      cbv beta iota delta [bind get ret raise modify lift].
      rewrite Hs. cbv beta iota zeta. fold D. fold (gram D). fold (cross F D).
      unfold inv. destruct (linalg_inv (gram D)); reflexivity. }
    split.
    + intros HN. rewrite Hrun, HN. reflexivity.
    + intros B HB. rewrite Hrun, HB. eexists. split; [reflexivity|].
      assert (Hr : nrows (cross F D) = ncols F) by (unfold cross; apply nrows_mtab).
      rewrite Hr.
      split; [apply nrows_mtab|]. split.
      * intros n j Hn Hj. apply mget_mtab; assumption.
      * intros Hinv n m Hn Hm.
        apply (estimate_normal_equations (ncols D) (ncols F) B (gram D) (cross F D));
          try assumption.
        intros n' j' Hn' Hj'. destruct Hinv as (HBr & HBc & _).
        rewrite mget_mtab by (try assumption; rewrite HBc; assumption).
        rewrite HBr. reflexivity.
Qed.

Lemma get_hessian_forces_not_set_witness :
  exists h1 H,
    Hessian.set_forces [[[-(2 # 100); 0; 0]]; [[0; -(3 # 100); 0]]; [[0; 0; -(4 # 100)]]]
                       (Hessian.__init__ one_atom (1 # 100)) = (Ok tt, h1) /\
    Hessian.get_hessian inv_diag
      (Some [[[-(2 # 100); 0; 0]]; [[0; -(3 # 100); 0]]; [[0; 0; -(4 # 100)]]])
      (Hessian.__init__ one_atom (1 # 100)) = (Ok H, h1) /\
    nrows H = 3%nat.
Proof.
  destruct (get_hessian_forces_not_set inv_diag
              (Some [[[-(2 # 100); 0; 0]]; [[0; -(3 # 100); 0]]; [[0; 0; -(4 # 100)]]])
              (Hessian.__init__ one_atom (1 # 100))) as (_ & _ & _ & H4).
  edestruct (H4 [[[-(2 # 100); 0; 0]]; [[0; -(3 # 100); 0]]; [[0; 0; -(4 # 100)]]])
    as (F & HF & _ & HB); [reflexivity | vm_compute; reflexivity |].
  edestruct HB as (H & Hrun & Hn & _); [vm_compute; reflexivity|].
  eexists. exists H. split; [vm_compute; reflexivity|].
  split; [exact Hrun|].
  rewrite Hn. vm_compute in HF. inversion HF. reflexivity.
Defined.

(** C9 as stated fails: with forces passed at call time, two fields where
    the three displacements of one atom ask for three, [get_hessian] raises,
    from [set_forces]. *)
Lemma get_hessian_raises_with_forces :
  fst (Hessian.get_hessian inv_unused (Some [[[1; 0; 0]]; [[0; 1; 0]]])
                           (Hessian.__init__ one_atom (1 # 100)))
  = Raise (AssertionError "Force shape does not match displacement shape").
Proof. vm_compute. reflexivity. Qed.

(** ** The estimate under the identity alone *)

Module EstimateFacts.
Import Hessian.

Lemma _get_equivalent_vector_selected (h : t) (N : nat) (v : mat) :
  rotations (symmetry h) = [eye 3] ->
  indices h = [seq 0 N] ->
  length v = N ->
  _get_equivalent_vector h v (Some [0%nat]) = Ok ([map (matvec (eye 3)) v], [0%nat]).
Proof.
  intros Hr Hi Hv. unfold _get_equivalent_vector.
  rewrite Hr, Hi. cbn [map combine fst snd].
  rewrite GenerateFacts.argsort_seq. rewrite <- Hv, GenerateFacts.map_nth_seq. reflexivity.
Qed.

(** The loop of [set_forces] under the identity: each field is stored,
    every vector of it rotated by the unit matrix. *)
Lemma set_forces_loop_identity (N : nat) (forces : list mat) (l : list mat) (h : t) :
  rotations (symmetry h) = [eye 3] ->
  indices h = [seq 0 N] ->
  _inequivalent_forces h = PyList l ->
  (forall ff, In ff forces -> length ff = N) ->
  set_forces_loop (combine forces (repeat [0%nat] (length forces))) h
  = (Ok tt, set_forces_store (PyList (l ++ map (map (matvec (eye 3))) forces)) h).
Proof.
  revert l h. induction forces as [|ff rest IH]; intros l h Hr Hi Hs Hlen.
  - cbn. unfold ret. rewrite app_nil_r. destruct h. cbn in *. subst. reflexivity.
  - cbn [length repeat combine set_forces_loop].
    unfold bind at 1. unfold extend_forces.
    cbv beta iota delta [bind get ret raise modify lift].
    rewrite Hs. cbv beta iota.
    rewrite (_get_equivalent_vector_selected h N ff Hr Hi) by (apply Hlen; left; reflexivity).
    cbv beta iota. cbn [fst].
    rewrite (IH (l ++ [map (matvec (eye 3)) ff])
                (set_forces_store (PyList (l ++ [map (matvec (eye 3)) ff])) h)).
    + cbn [map]. rewrite <- app_assoc. reflexivity.
    + exact Hr.
    + exact Hi.
    + reflexivity.
    + intros f Hf. apply Hlen. right. exact Hf.
Qed.

Section IdentityOnly.

Variable s : Structure.
Variable N : nat.
Variable dx0 : Q.

Hypothesis atoms : (0 < N)%nat.
Hypothesis positions_rows : nrows (positions s) = N.
Hypothesis positions_cols : forall row, In row (positions s) -> length row = 3%nat.
Hypothesis only_identity : rotations (get_symmetry s) = [eye 3].
Hypothesis identity_indices : indices (__init__ s dx0) = [seq 0 N].
Hypothesis dx_above_tolerance : atol < Qabs dx0.

(** What [_generate_displacements] leaves, under the identity. *)
Lemma identity_generated :
  exists st,
    displacements (__init__ s dx0)
    = (Ok (probes N dx0),
       set_generated st (map flatten (inequivalent st)) (__init__ s dx0)) /\
    loop_inv N dx0 (3 * N) st.
Proof.
  assert (Hnc : ncols (positions s) = 3%nat).
  { unfold ncols, nrows in *. destruct (positions s) as [|r p]; [cbn in positions_rows; lia|].
    apply positions_cols. left. reflexivity. }
  set (init := {| all_displacements := zeros_like (positions s);
                  raw := []; inequivalent := []; ids := [] |}).
  assert (Hinit : loop_inv N dx0 0 init).
  { unfold loop_inv, init. cbn.
    split; [|repeat split; intros; lia].
    exists (fun _ _ => 0). split.
    - unfold zeros_like. rewrite positions_rows, Hnc. reflexivity.
    - intros a b _ _. reflexivity. }
  destruct (GenerateFacts.loop_runs s N dx0 only_identity identity_indices
              dx_above_tolerance (3 * N) 0 init Hinit)
    as (st & Hrun & Hinv); [lia|].
  exists st. split; [|exact Hinv].
  destruct Hinv as (_ & Hraw & Hlen & _ & _).
  assert (Hcount : length (flatten (zeros_like (positions s))) = (3 * N)%nat).
  { unfold zeros_like. rewrite positions_rows, Hnc.
    rewrite (length_flatten_rows 3) by apply rows_mtab.
    fold (nrows (mtab N 3 (fun _ _ => 0))).
    rewrite nrows_mtab. lia. }
  unfold displacements, _generate_displacements.
  cbv beta iota delta [bind get ret raise modify lift].
  cbn [_displacements __init__ length Nat.eqb structure _inequivalent_ids
       _inequivalent_displacements].
  fold init. rewrite Hcount, Hrun. cbv beta iota.
  unfold reshape_rows.
  destruct (inequivalent st) as [|f0 rest] eqn:Est; [cbn in Hlen; lia|].
  cbv beta iota. cbn [_displacements set_generated]. rewrite Hraw. reflexivity.
Qed.

End IdentityOnly.

(** The rows of the independent displacements: row [i] is [dx0] at entry
    [i] and zero elsewhere. *)
Lemma unit_rows (N : nat) (dx0 : Q) (st : gen_state) :
  (0 < N)%nat ->
  loop_inv N dx0 (3 * N) st ->
  nrows (map flatten (inequivalent st)) = (3 * N)%nat /\
  ncols (map flatten (inequivalent st)) = (3 * N)%nat /\
  forall i k, (i < 3 * N)%nat -> (k < 3 * N)%nat ->
    mget (map flatten (inequivalent st)) i k == if Nat.eqb k i then dx0 else 0.
Proof.
  intros atoms (_ & _ & Hlen & Hineq & _).
  split; [|split].
  - unfold nrows. rewrite length_map. exact Hlen.
  - unfold ncols.
    destruct (Hineq 0%nat) as (G & HG & _); [lia|].
    destruct (inequivalent st) as [|f0 rest]; [cbn in Hlen; lia|].
    cbn [map hd]. cbn [nth] in HG. rewrite HG.
    rewrite (length_flatten_rows 3) by apply rows_mtab.
    fold (nrows (mtab N 3 G)). rewrite nrows_mtab. lia.
  - intros i k Hi Hk. unfold mget.
    change ([] : vec) with (flatten []) at 1. rewrite map_nth.
    destruct (Hineq i Hi) as (G & -> & HG).
    assert (Hq : (k / 3 < N)%nat) by (apply Nat.Div0.div_lt_upper_bound; lia).
    assert (Hm : (k mod 3 < 3)%nat) by (apply Nat.mod_upper_bound; lia).
    rewrite (Nat.div_mod_eq k 3) at 1.
    rewrite (Nat.mul_comm 3 (k / 3)).
    rewrite (nth_flatten_rows 3) by
      (try apply rows_mtab; try exact Hm;
       fold (nrows (mtab N 3 G)); rewrite nrows_mtab; exact Hq).
    fold (mget (mtab N 3 G) (k / 3) (k mod 3)).
    rewrite mget_mtab, (HG _ _ Hq Hm) by assumption.
    rewrite <- (Nat.div_mod_eq k 3). reflexivity.
Qed.

(** A field of [N] vectors, each rotated by the unit matrix and the whole
    flattened, is entry by entry the field flattened. *)
Lemma rotated_flatten (N : nat) (ff : mat) :
  length ff = N ->
  (forall row, In row ff -> length row = 3%nat) ->
  length (flatten (map (matvec (eye 3)) ff)) = (3 * N)%nat /\
  forall n, (n < 3 * N)%nat ->
    vget (flatten (map (matvec (eye 3)) ff)) n == vget (flatten ff) n.
Proof.
  intros Hlen Hrows.
  assert (Hrot : forall row, In row (map (matvec (eye 3)) ff) -> length row = 3%nat).
  { intros row Hin. apply in_map_iff in Hin. destruct Hin as (r & <- & _).
    unfold matvec. apply length_vtab. }
  split.
  - rewrite (length_flatten_rows 3) by exact Hrot. rewrite length_map. unfold vec. rewrite Hlen. lia.
  - intros n Hn.
    assert (Hq : (n / 3 < N)%nat) by (apply Nat.Div0.div_lt_upper_bound; lia).
    assert (Hm : (n mod 3 < 3)%nat) by (apply Nat.mod_upper_bound; lia).
    unfold vget. rewrite (Nat.div_mod_eq n 3) at 1 2.
    rewrite (Nat.mul_comm 3 (n / 3)).
    rewrite !(nth_flatten_rows 3)
      by (try exact Hrot; try exact Hrows; try exact Hm;
          try rewrite length_map; unfold vec in *; lia).
    rewrite (nth_indep _ [] (matvec (eye 3) []))
      by (rewrite length_map; unfold vec in *; lia).
    rewrite map_nth.
    apply (GenerateFacts.matvec_eye3 (nth (n / 3) ff []) (n mod 3)); [|exact Hm].
    apply Hrows. apply nth_In. unfold vec in *. lia.
Qed.

Lemma shape3_probes (N : nat) (dx0 : Q) :
  (0 < N)%nat -> shape3 (probes N dx0) = [(3 * N)%nat; N; 3%nat].
Proof.
  intros HN. unfold probes. destruct N as [|n]; [lia|].
  replace (3 * S n)%nat with (S (3 * n + 2)) by lia.
  cbn [seq map shape3 length]. rewrite length_map, length_seq.
  unfold onehot. rewrite nrows_mtab, ncols_mtab. reflexivity.
Qed.

Lemma shape3_fields (N : nat) (forces : list mat) :
  (0 < N)%nat -> length forces = (3 * N)%nat ->
  (forall ff, In ff forces ->
     length ff = N /\ forall row, In row ff -> length row = 3%nat) ->
  shape3 forces = [(3 * N)%nat; N; 3%nat].
Proof.
  intros HN Hl Hf. destruct forces as [|f0 rest]; [cbn in Hl; lia|].
  unfold shape3. rewrite Hl.
  destruct (Hf f0 (or_introl eq_refl)) as [H1 H2].
  unfold nrows, ncols. unfold vec in *. rewrite H1.
  destruct f0 as [|r0 f0]; [cbn in H1; lia|].
  cbn [hd]. rewrite (H2 r0 (or_introl eq_refl)). reflexivity.
Qed.

(** [set_forces] under the identity: the displacements are generated, and
    the forces are stored field by field, flattened. *)
Lemma set_forces_identity (s : Structure) (N : nat) (dx0 : Q) (forces : list mat) :
  (0 < N)%nat ->
  nrows (positions s) = N ->
  (forall row, In row (positions s) -> length row = 3%nat) ->
  rotations (get_symmetry s) = [eye 3] ->
  indices (__init__ s dx0) = [seq 0 N] ->
  atol < Qabs dx0 ->
  length forces = (3 * N)%nat ->
  (forall ff, In ff forces ->
     length ff = N /\ forall row, In row ff -> length row = 3%nat) ->
  exists st h',
    loop_inv N dx0 (3 * N) st /\
    set_forces forces (__init__ s dx0) = (Ok tt, h') /\
    _inequivalent_displacements h' = map flatten (inequivalent st) /\
    _inequivalent_forces h'
    = NdArray (map flatten (map (map (matvec (eye 3))) forces)).
Proof.
  intros HN Hrows Hcols Hrot Hind Hdx Hl Hf.
  destruct (identity_generated s N dx0 HN Hrows Hcols Hrot Hind Hdx)
    as (st & Hdisp & Hinv).
  exists st. eexists. split; [exact Hinv|].
  destruct Hinv as (_ & _ & _ & _ & Hids).
  split; [|split].
  - unfold set_forces. unfold bind at 1. rewrite Hdisp. cbv beta iota.
    unfold bind at 1.
    destruct (list_eq_dec Nat.eq_dec (shape3 forces) (shape3 (probes N dx0)))
      as [_|Hs];
      [|exfalso; apply Hs;
        rewrite (shape3_fields N forces HN Hl Hf), (shape3_probes N dx0 HN);
        reflexivity].
    cbv beta iota delta [ret]. unfold bind at 1. unfold get at 1. unfold bind at 1.
    cbn [_inequivalent_ids set_generated]. rewrite Hids, <- Hl.
    rewrite (set_forces_loop_identity N forces []);
      [|exact Hrot | exact Hind | reflexivity | intros ff Hff; apply (Hf ff Hff)].
    cbv beta iota delta [bind get ret raise modify lift].
    cbn [_inequivalent_forces set_forces_store app].
    assert (Hre : reshape_rows (map (map (matvec (eye 3))) forces)
                  = Ok (map flatten (map (map (matvec (eye 3))) forces)))
      by (destruct forces; [cbn in Hl; lia | reflexivity]).
    rewrite Hre. cbv beta iota. reflexivity.
  - reflexivity.
  - reflexivity.
Qed.

End EstimateFacts.

Lemma inv_diag_ncols (A B : mat) : inv_diag A = Some B -> ncols B = nrows A.
Proof.
  unfold inv_diag. destruct (forallb _ _); [|discriminate].
  intros E. inversion E. apply ncols_mtab_square.
Qed.

(** X12: Under the identity alone, on [N >= 1] atoms with a step above the
    tolerance, [get_hessian] given one force field per probe (each of [N]
    vectors) reads the Hessian off by finite differences: it is a
    [3N x 3N] table whose column [j] is minus the forces answering probe
    [j], divided by the step; so forces that are linear in the displacement,
    [F = -K.u], give back [K].  [np.linalg.inv] is given [dx^2.I] and
    answers a square right inverse of it. *)
Theorem get_hessian_finite_difference (linalg_inv : mat -> option mat)
        (s : Structure) (N : nat) (dx0 : Q) (forces : list mat) :
  (0 < N)%nat ->
  nrows (positions s) = N ->
  (forall row, In row (positions s) -> length row = 3%nat) ->
  rotations (get_symmetry s) = [eye 3] ->
  indices (get_symmetry s) = [seq 0 N] ->
  Hessian.atol < Qabs dx0 ->
  length forces = (3 * N)%nat ->
  (forall ff, In ff forces ->
     length ff = N /\ forall row, In row ff -> length row = 3%nat) ->
  (forall A, nrows A = (3 * N)%nat ->
     (forall i j, (i < 3 * N)%nat -> (j < 3 * N)%nat ->
        mget A i j == (dx0 * dx0) * kron i j) ->
     exists B, linalg_inv A = Some B /\ nrows B = (3 * N)%nat /\
       ncols B = (3 * N)%nat /\
       forall i j, (i < 3 * N)%nat -> (j < 3 * N)%nat ->
         big (3 * N) (fun m => mget A i m * mget B m j) == kron i j) ->
  exists H h',
    Hessian.get_hessian linalg_inv (Some forces) (Hessian.__init__ s dx0) = (Ok H, h') /\
    nrows H = (3 * N)%nat /\
    (forall row, In row H -> length row = (3 * N)%nat) /\
    (forall n j, (n < 3 * N)%nat -> (j < 3 * N)%nat ->
       mget H n j == - (vget (flatten (nth j forces [])) n / dx0)) /\
    (forall K : mat,
       (forall n j, (n < 3 * N)%nat -> (j < 3 * N)%nat ->
          vget (flatten (nth j forces [])) n == - (mget K n j * dx0)) ->
       forall n j, (n < 3 * N)%nat -> (j < 3 * N)%nat -> mget H n j == mget K n j).
Proof.
  intros HN Hrows Hcols Hrot Hind Hdx Hl Hf Hinvspec.
  assert (Hdx0 : ~ dx0 == 0).
  { intros E. rewrite E in Hdx. vm_compute in Hdx. discriminate Hdx. }
  destruct (EstimateFacts.set_forces_identity s N dx0 forces HN Hrows Hcols Hrot Hind
              Hdx Hl Hf) as (st & h1 & Hinv & Hset & HD & HF).
  destruct (EstimateFacts.unit_rows N dx0 st HN Hinv) as (HDr & HDc & HDe).
  set (D := map flatten (Hessian.inequivalent st)) in *.
  set (Fr := map flatten (map (map (matvec (eye 3))) forces)) in *.
  assert (HFr : nrows Fr = (3 * N)%nat).
  { unfold Fr, nrows. rewrite !length_map. unfold mat, vec in *. lia. }
  assert (HFe : forall i n, (i < 3 * N)%nat -> (n < 3 * N)%nat ->
                  length (nth i Fr []) = (3 * N)%nat /\
                  mget Fr i n == vget (flatten (nth i forces [])) n).
  { intros i n Hi Hn.
    assert (Hrow : nth i Fr [] = flatten (map (matvec (eye 3)) (nth i forces []))).
    { unfold Fr.
      rewrite (nth_indep _ [] (flatten (map (matvec (eye 3)) [])))
        by (rewrite !length_map; unfold mat, vec in *; lia).
      rewrite (map_nth flatten), (map_nth (map (matvec (eye 3)))). reflexivity. }
    assert (Hin : In (nth i forces []) forces)
      by (apply nth_In; unfold mat, vec in *; lia).
    destruct (Hf _ Hin) as [H1 H2].
    destruct (EstimateFacts.rotated_flatten N (nth i forces []) H1 H2) as [L E].
    rewrite <- Hrow in L, E. split; [exact L | exact (E n Hn)]. }
  assert (HFc : ncols Fr = (3 * N)%nat).
  { unfold ncols. destruct (HFe 0%nat 0%nat) as [L _]; try lia.
    destruct Fr as [|r0 Fr']; [cbn in HFr; lia|]. exact L. }
  set (X := mtab (3 * N) (3 * N)
                 (fun k j => big (3 * N) (fun i => mget D i k * mget D i j))).
  assert (HX : forall k j, (k < 3 * N)%nat -> (j < 3 * N)%nat ->
                 mget X k j == (dx0 * dx0) * kron k j).
  { intros k j Hk Hj. unfold X. rewrite mget_mtab by assumption.
    pose proof (big_single (3 * N) k (fun i => mget D i k * mget D i j) Hk) as Hs.
    cbv beta in Hs. rewrite Hs.
    - rewrite !HDe by assumption. rewrite Nat.eqb_refl. unfold kron.
      rewrite (Nat.eqb_sym j k). destruct (Nat.eqb k j); ring.
    - intros i Hi Hne. rewrite (HDe i k Hi Hk).
      destruct (Nat.eqb_spec k i); [congruence | ring]. }
  destruct (Hinvspec X (nrows_mtab _ _ _) HX) as (B & HB & HBr & HBc & HBinv).
  assert (HBe : forall k j, (k < 3 * N)%nat -> (j < 3 * N)%nat ->
                  mget B k j == kron k j / (dx0 * dx0)).
  { intros k j Hk Hj. pose proof (HBinv k j Hk Hj) as E.
    pose proof (big_single (3 * N) k (fun m => mget X k m * mget B m j) Hk) as Hs.
    cbv beta in Hs. rewrite Hs in E.
    - rewrite (HX k k Hk Hk) in E. unfold kron at 1 in E. rewrite Nat.eqb_refl in E.
      rewrite <- E. field. exact Hdx0.
    - intros m Hm Hne. rewrite (HX k m Hk Hm). unfold kron.
      destruct (Nat.eqb_spec k m); [congruence | ring]. }
  set (Y := mtab (3 * N) (3 * N)
                 (fun n k => big (3 * N) (fun i => mget Fr i n * mget D i k))).
  assert (HY : forall n k, (n < 3 * N)%nat -> (k < 3 * N)%nat ->
                 mget Y n k == vget (flatten (nth k forces [])) n * dx0).
  { intros n k Hn Hk. unfold Y. rewrite mget_mtab by assumption.
    pose proof (big_single (3 * N) k (fun i => mget Fr i n * mget D i k) Hk) as Hs.
    cbv beta in Hs. rewrite Hs.
    - rewrite (HDe k k Hk Hk), Nat.eqb_refl.
      destruct (HFe k n Hk Hn) as [_ ->]. reflexivity.
    - intros i Hi Hne. rewrite (HDe i k Hi Hk).
      destruct (Nat.eqb_spec k i); [congruence | ring]. }
  set (H := mtab (3 * N) (3 * N)
                 (fun n j => - big (3 * N) (fun k => mget B k j * mget Y n k))).
  assert (HH : forall n j, (n < 3 * N)%nat -> (j < 3 * N)%nat ->
                 mget H n j == - (vget (flatten (nth j forces [])) n / dx0)).
  { intros n j Hn Hj. unfold H. rewrite mget_mtab by assumption.
    pose proof (big_single (3 * N) j (fun k => mget B k j * mget Y n k) Hj) as Hs.
    cbv beta in Hs. rewrite Hs.
    - rewrite (HBe j j Hj Hj), (HY n j Hn Hj). unfold kron. rewrite Nat.eqb_refl.
      field. exact Hdx0.
    - intros k Hk Hne. rewrite (HBe k j Hk Hj). unfold kron.
      destruct (Nat.eqb_spec k j); [congruence | field; exact Hdx0]. }
  exists H, h1. split; [|split; [|split; [|split]]].
  - unfold Hessian.get_hessian. unfold bind at 1. unfold get at 1.
    unfold bind at 1. rewrite Hset.
    cbv beta iota delta [bind get ret raise modify lift].
    rewrite HD, HF. cbv beta iota zeta.
    rewrite HDr, HDc, HFr, HFc. fold X. unfold inv. rewrite HB.
    cbv beta iota. rewrite nrows_mtab, HBr, HBc. reflexivity.
  - apply nrows_mtab.
  - apply rows_mtab.
  - exact HH.
  - intros K HK n j Hn Hj. rewrite (HH n j Hn Hj), (HK n j Hn Hj).
    field. exact Hdx0.
Qed.

Lemma get_hessian_finite_difference_witness :
  exists H h',
    Hessian.get_hessian inv_diag
      (Some [[[-(2 # 100); 0; 0]]; [[0; -(3 # 100); 0]]; [[0; 0; -(4 # 100)]]])
      (Hessian.__init__ one_atom (1 # 100)) = (Ok H, h') /\
    mget H 0 0 == 2 /\ mget H 1 1 == 3 /\ mget H 2 2 == 4 /\ mget H 0 1 == 0.
Proof.
  destruct (get_hessian_finite_difference inv_diag one_atom 1 (1 # 100)
              [[[-(2 # 100); 0; 0]]; [[0; -(3 # 100); 0]]; [[0; 0; -(4 # 100)]]])
    as (H & h' & H1 & _ & _ & H4 & _).
  - lia.
  - reflexivity.
  - intros row [<-|[]]. reflexivity.
  - reflexivity.
  - reflexivity.
  - vm_compute. reflexivity.
  - reflexivity.
  - intros ff [<-|[<-|[<-|[]]]]; (split; [reflexivity | intros row [<-|[]]; reflexivity]).
  - intros A HA Hent.
    destruct (inv_diag_scalar ((1 # 100) * (1 # 100)) 3 A) as (B & HB & HBr & HBi);
      [intros E; vm_compute in E; discriminate E | exact HA | exact Hent |].
    exists B. split; [exact HB|]. split; [exact HBr|]. split; [|exact HBi].
    rewrite (inv_diag_ncols A B HB). exact HA.
  - exists H, h'. split; [exact H1|].
    split; [|split; [|split]].
    + rewrite (H4 0%nat 0%nat) by lia. vm_compute. reflexivity.
    + rewrite (H4 1%nat 1%nat) by lia. vm_compute. reflexivity.
    + rewrite (H4 2%nat 2%nat) by lia. vm_compute. reflexivity.
    + rewrite (H4 0%nat 1%nat) by lia. vm_compute. reflexivity.
Defined.

(** * The atomsk command line *)

Module AtomskFacts.
Import Atomsk.

Lemma append_empty (s : string) : (s ++ "")%string = s.
Proof. induction s as [|c s IH]; [reflexivity|]. cbn. rewrite IH. reflexivity. Qed.

Lemma append_assoc (a b c : string) : ((a ++ b) ++ c)%string = (a ++ (b ++ c))%string.
Proof. induction a as [|x a IH]; [reflexivity|]. cbn. rewrite IH. reflexivity. Qed.

(** A space between two texts ends the word being read: what comes after
    is split on its own. *)
Lemma split_from_space (cur a b : string) :
  split_from cur (a ++ String " " b) = split_from cur a ++ split b.
Proof.
  revert cur. induction a as [|c a IH]; intros cur.
  - reflexivity.
  - cbn [String.append split_from]. destruct (is_space c).
    + rewrite IH, app_assoc. reflexivity.
    + apply IH.
Qed.

(** The words of a joined list are the words of its members, in order. *)
Lemma split_join (l : list string) : split (join l) = concat (map split l).
Proof.
  induction l as [|x l IH]; [reflexivity|].
  destruct l as [|y l].
  - cbn [join String.concat map concat]. rewrite app_nil_r. reflexivity.
  - change (join (x :: y :: l)) with (x ++ String " " (join (y :: l)))%string.
    unfold split at 1. rewrite split_from_space.
    fold (split x). rewrite IH. reflexivity.
Qed.

Lemma split_from_no_space (cur s : string) :
  no_space s = true -> split_from cur s = flush (cur ++ s).
Proof.
  revert cur. induction s as [|c s IH]; intros cur H.
  - cbn. rewrite append_empty. reflexivity.
  - cbn [no_space] in H. apply andb_true_iff in H. destruct H as [Hc Hs].
    apply negb_true_iff in Hc. cbn [split_from]. rewrite Hc.
    rewrite (IH _ Hs), append_assoc. reflexivity.
Qed.

Lemma split_word (s : string) : word s = true -> split s = [s].
Proof.
  intros H. unfold split. destruct s as [|c s]; [discriminate|].
  unfold word in H. rewrite (split_from_no_space _ _ H). reflexivity.
Qed.

Lemma split_words (l : list string) :
  forallb word l = true -> concat (map split l) = l.
Proof.
  induction l as [|x l IH]; [reflexivity|].
  cbn [forallb map concat]. intros H. apply andb_true_iff in H. destruct H as [Hx Hl].
  rewrite (split_word x Hx), (IH Hl). reflexivity.
Qed.

Lemma command_line_tokens (options : list string) :
  command_line options = "atomsk"%string :: concat (map split options).
Proof. unfold command_line. rewrite split_join. reflexivity. Qed.

Lemma split_join_words (l : list string) :
  forallb word l = true -> split (join l) = l.
Proof. intros H. rewrite split_join. apply split_words. exact H. Qed.

Lemma command_line_append (options : list string) (line : string) :
  command_line (options ++ [line]) = command_line options ++ split line.
Proof.
  rewrite !command_line_tokens, map_app, concat_app.
  cbn [map concat]. rewrite app_nil_r. reflexivity.
Qed.

Lemma no_space_replace (a b : ascii) (s : string) :
  is_space b = false -> no_space s = true -> no_space (replace a b s) = true.
Proof.
  intros Hb. induction s as [|c s IH]; [reflexivity|].
  cbn [no_space replace]. intros H. apply andb_true_iff in H. destruct H as [Hc Hs].
  rewrite (IH Hs), andb_true_r.
  destruct (Ascii.eqb c a); [rewrite Hb; reflexivity | exact Hc].
Qed.

Lemma word_flag (name : string) :
  word name = true -> word ("-" ++ replace "_" "-" name) = true.
Proof.
  intros H. destruct name as [|c s]; [discriminate|].
  unfold word in H.
  change (no_space (replace "_" "-" (String c s)) = true).
  apply no_space_replace; [reflexivity | exact H].
Qed.

End AtomskFacts.

(** X13: The command line of [build]: [atomsk], then the words of every option
    in the order the options were added (white space inside an option
    separates arguments just as the space between two options does), then
    [-] and [exyz].  The output directive stays among the options: a builder
    built twice runs [atomsk] the second time with the directive given
    twice. *)
Theorem build_command_line (Atoms : Type)
        (run_atomsk : list string -> option Atoms -> result string)
        (read_structure : string -> result Atoms)
        (b : Atomsk.AtomskBuilder Atoms) :
  let argv := "atomsk"%string :: concat (map Atomsk.split (Atomsk._options b))
                ++ ["-"%string; "exyz"%string] in
  Atomsk.build run_atomsk read_structure b
  = (match run_atomsk argv (Atomsk._structure b) with
     | Ok text => read_structure text
     | Raise x => Raise x
     end,
     Atomsk.append_option "- exyz" b) /\
  Atomsk.build run_atomsk read_structure (Atomsk.append_option "- exyz" b)
  = (match run_atomsk (argv ++ ["-"%string; "exyz"%string]) (Atomsk._structure b) with
     | Ok text => read_structure text
     | Raise x => Raise x
     end,
     Atomsk.append_option "- exyz" (Atomsk.append_option "- exyz" b)).
Proof.
  intros argv.
  assert (Hrun : forall b0 : Atomsk.AtomskBuilder Atoms,
            Atomsk.build run_atomsk read_structure b0
            = (match run_atomsk (Atomsk.command_line (Atomsk._options b0)
                                   ++ ["-"%string; "exyz"%string])
                                (Atomsk._structure b0) with
               | Ok text => read_structure text
               | Raise x => Raise x
               end,
               Atomsk.append_option "- exyz" b0)).
  { intros b0. unfold Atomsk.build.
    cbv beta iota delta [bind get ret raise modify lift].
    cbn [Atomsk._options Atomsk._structure Atomsk.append_option].
    rewrite AtomskFacts.command_line_append.
    change (Atomsk.split "- exyz") with ["-"%string; "exyz"%string].
    destruct (run_atomsk _ _); reflexivity. }
  split.
  - rewrite Hrun, AtomskFacts.command_line_tokens. reflexivity.
  - rewrite Hrun. cbn [Atomsk._options Atomsk._structure Atomsk.append_option].
    rewrite AtomskFacts.command_line_append, AtomskFacts.command_line_tokens.
    change (Atomsk.split "- exyz") with ["-"%string; "exyz"%string].
    reflexivity.
Qed.

Lemma build_command_line_witness :
  Atomsk.build Atomsk.echo_atomsk Atomsk.read_nothing (Atomsk.modify unit tt)
  = (Ok tt, Atomsk.append_option "- exyz" (Atomsk.modify unit tt)) /\
  Atomsk.echo_atomsk ["atomsk"; "input.exyz"; "-"; "exyz"]%string (Some tt)
  = Ok "atomsk input.exyz - exyz"%string.
Proof.
  destruct (build_command_line unit Atomsk.echo_atomsk Atomsk.read_nothing
              (Atomsk.modify unit tt)) as [H _].
  split; [rewrite H; reflexivity | reflexivity].
Defined.



(** X15: The methods that add an option, on arguments that are words: each
    leaves the structure alone and adds its flag and its arguments, one
    word each, at the end of the command line.  [duplicate] repeats [nx]
    for a missing [ny] and [ny] for a missing [nz]; a method the class does
    not define adds its own name, the underscores turned into dashes behind
    one more dash, then the positional arguments, then each keyword with
    its value. *)
Theorem methods_add_their_words (Atoms : Type) (b : Atomsk.AtomskBuilder Atoms) :
  (forall nx ny nz,
     Atomsk.word nx = true ->
     (forall y, ny = Some y -> Atomsk.word y = true) ->
     (forall z, nz = Some z -> Atomsk.word z = true) ->
     exists b',
       Atomsk.duplicate nx ny nz b = (Ok tt, b') /\
       Atomsk._structure b' = Atomsk._structure b /\
       Atomsk.command_line (Atomsk._options b')
       = Atomsk.command_line (Atomsk._options b)
           ++ ["-duplicate"%string; nx;
               match ny with Some y => y | None => nx end;
               match nz with
               | Some z => z
               | None => match ny with Some y => y | None => nx end
               end]) /\
  (exists b',
     Atomsk.orthogonal b = (Ok tt, b') /\
     Atomsk._structure b' = Atomsk._structure b /\
     Atomsk.command_line (Atomsk._options b')
     = Atomsk.command_line (Atomsk._options b) ++ ["-orthogonal-cell"%string]) /\
  (forall name args kwargs,
     Atomsk.word name = true ->
     forallb Atomsk.word args = true ->
     forallb (fun kv => Atomsk.word (fst kv) && Atomsk.word (snd kv)) kwargs = true ->
     exists b',
       Atomsk.__getattr__ name args kwargs b = (Ok tt, b') /\
       Atomsk._structure b' = Atomsk._structure b /\
       Atomsk.command_line (Atomsk._options b')
       = Atomsk.command_line (Atomsk._options b)
           ++ ("-" ++ Atomsk.replace "_" "-" name)%string
           :: args ++ flat_map (fun kv => [fst kv; snd kv]) kwargs).
Proof.
  split; [|split].
  - intros nx ny nz Hx Hy Hz.
    eexists. split; [reflexivity|]. split; [reflexivity|].
    cbn [Atomsk._options Atomsk.append_option].
    rewrite AtomskFacts.command_line_append. f_equal.
    set (y := match ny with Some y => y | None => nx end).
    set (z := match nz with Some z => z | None => y end).
    assert (Wy : Atomsk.word y = true)
      by (unfold y; destruct ny as [y0|]; [apply Hy; reflexivity | exact Hx]).
    assert (Wz : Atomsk.word z = true)
      by (unfold z; destruct nz as [z0|]; [apply Hz; reflexivity | exact Wy]).
    change ("-duplicate " ++ nx ++ " " ++ y ++ " " ++ z)%string
      with (Atomsk.join ["-duplicate"%string; nx; y; z]).
    apply AtomskFacts.split_join_words. cbn [forallb].
    rewrite Hx, Wy, Wz. reflexivity.
  - eexists. split; [reflexivity|]. split; [reflexivity|].
    cbn [Atomsk._options Atomsk.append_option].
    rewrite AtomskFacts.command_line_append. reflexivity.
  - intros name args kwargs Hn Ha Hk.
    eexists. split; [reflexivity|]. split; [reflexivity|].
    cbn [Atomsk._options Atomsk.append_option].
    rewrite AtomskFacts.command_line_append. f_equal.
    set (flag := ("-" ++ Atomsk.replace "_" "-" name)%string).
    set (pairs := map (fun kv => (fst kv ++ " " ++ snd kv)%string) kwargs).
    change ("-" ++ Atomsk.replace "_" "-" name ++ " " ++ Atomsk.join args ++ " "
                ++ Atomsk.join pairs)%string
      with (flag ++ String " " (Atomsk.join [Atomsk.join args; Atomsk.join pairs]))%string.
    unfold Atomsk.split at 1. rewrite AtomskFacts.split_from_space.
    fold (Atomsk.split flag).
    rewrite (AtomskFacts.split_word flag (AtomskFacts.word_flag name Hn)).
    rewrite AtomskFacts.split_join. cbn [map concat].
    rewrite (AtomskFacts.split_join_words args Ha), app_nil_r.
    cbn [app]. f_equal. f_equal.
    rewrite AtomskFacts.split_join. unfold pairs. clear pairs.
    induction kwargs as [|[k v] rest IH]; [reflexivity|].
    cbn [forallb fst snd] in Hk. apply andb_true_iff in Hk. destruct Hk as [Hkv Hrest].
    apply andb_true_iff in Hkv. destruct Hkv as [Wk Wv].
    cbn [map concat flat_map fst snd]. rewrite (IH Hrest).
    change (k ++ " " ++ v)%string with (Atomsk.join [k; v]).
    rewrite AtomskFacts.split_join_words by (cbn [forallb]; rewrite Wk, Wv; reflexivity).
    reflexivity.
Qed.

Lemma methods_add_their_words_witness :
  exists b1 b2 b3,
    Atomsk.duplicate "2" None None (Atomsk.modify unit tt) = (Ok tt, b1) /\
    Atomsk.__getattr__ "orthogonal_cell" [] [] b1 = (Ok tt, b2) /\
    Atomsk.__getattr__ "cell" ["add"; "3"; "x"]%string [] b2 = (Ok tt, b3) /\
    Atomsk.command_line (Atomsk._options b3)
    = ["atomsk"; "input.exyz"; "-duplicate"; "2"; "2"; "2"; "-orthogonal-cell";
       "-cell"; "add"; "3"; "x"]%string.
Proof.
  destruct (methods_add_their_words unit (Atomsk.modify unit tt)) as (Hd & _ & _).
  destruct (Hd "2"%string None None) as (b1 & H1 & _ & C1);
    [reflexivity | intros y E; discriminate E | intros z E; discriminate E |].
  destruct (methods_add_their_words unit b1) as (_ & _ & Hg).
  destruct (Hg "orthogonal_cell"%string [] []) as (b2 & H2 & _ & C2);
    [reflexivity | reflexivity | reflexivity |].
  destruct (methods_add_their_words unit b2) as (_ & _ & Hg').
  destruct (Hg' "cell"%string ["add"; "3"; "x"]%string []) as (b3 & H3 & _ & C3);
    [reflexivity | reflexivity | reflexivity |].
  exists b1, b2, b3. split; [exact H1|]. split; [exact H2|]. split; [exact H3|].
  rewrite C3, C2, C1. reflexivity.
Defined.
